(** * A disk-based text retrieval index: model and verification

    Shallow embedding of the indexing and retrieval core of the repository:

    - [core/text_preprocessor.py]        (module [TextPreprocessor]),
    - [indexes/merge_blocks.py]          (module [MergeBlocks]),
    - [indexes/inverted_index_spimi.py]  (module [SPIMI], the block files),
    - [indexes/query_engine.py]          (module [QueryEngine]),
    - [indexes/run_query.py] and [indexes/batch_query_runner.py]
                                         (module [QueryRunner], the excerpts),

    together with the fragments of the Python runtime these files rely on
    (insertion-ordered dictionaries, [sorted], [heapq], [math.log],
    UTF-8 encoding), collected in the modules [Py] and [Heapq].  What the
    platform provides ([log] of the C library, the [json] module, Unicode
    case mapping and transliteration) is a parameter of the definitions;
    the module [Reference] gives instances that compute, and [Examples]
    runs the model on small corpora.  The properties follow, from
    [TextFacts] on.

    Python values are modelled as follows.
    - [str] is a sequence of Unicode code points ([list N]); string comparison
      is lexicographic on code points, as in Python.
    - [bytes] is [list Byte.byte].
    - [int] is [Z]; [float] is the primitive binary64 type of Rocq.
    - a [dict] is an association list kept in insertion order with unique
      keys: Python dictionaries iterate in insertion order, and the order is
      observable in the files that [merge_blocks] writes.
    - a raised exception is the [Raise] constructor of [result]. *)

From Stdlib Require Import ZArith NArith List String Ascii.
From Stdlib.Strings Require Import Byte.
From Stdlib Require Import PrimFloat FloatOps SpecFloat Uint63.
From Stdlib Require Import DecimalString.
From Stdlib Require DecimalZ FloatAxioms.
From stdpp Require Import base tactics option list sorting gmap.

Open Scope Z_scope.

(* ===================================================================== *)
(** * Part I. The Python runtime fragment                                  *)
(* ===================================================================== *)

Module Py.

(** Exceptions that the modelled code can raise or let through. *)
Inductive exn : Type :=
| RuntimeError
| LookupError
| ValueError
| ZeroDivisionError
| IndexError
| FileNotFoundError
| UnicodeEncodeError
| OSError
| OtherError.

Inductive result (A : Type) : Type :=
| Ok (a : A)
| Raise (e : exn).
Arguments Ok {A} a.
Arguments Raise {A} e.

Definition bind {A B} (m : result A) (k : A -> result B) : result B :=
  match m with
  | Ok a => k a
  | Raise e => Raise e
  end.

Definition is_ok {A} (m : result A) : bool :=
  match m with Ok _ => true | Raise _ => false end.

(** ** Strings *)

(** A Python [str]: its code points. *)
Definition str : Type := list N.

(** ASCII literals. *)
Definition lit (s : string) : str :=
  List.map N_of_ascii (list_ascii_of_string s).

(** [a < b] on strings: lexicographic on code points. *)
Fixpoint str_compare (a b : str) : comparison :=
  match a, b with
  | [], [] => Eq
  | [], _ :: _ => Lt
  | _ :: _, [] => Gt
  | x :: a', y :: b' =>
      match N.compare x y with
      | Eq => str_compare a' b'
      | c => c
      end
  end.

Definition str_lt (a b : str) : bool :=
  match str_compare a b with Lt => true | _ => false end.

Definition str_eqb (a b : str) : bool := bool_decide (a = b).

(** [s.startswith(p)] and [s.endswith(p)]. *)
Fixpoint startswith (s p : str) : bool :=
  match p, s with
  | [], _ => true
  | _ :: _, [] => false
  | c :: p', d :: s' => bool_decide (c = d) && startswith s' p'
  end.

Definition endswith (s p : str) : bool := startswith (rev s) (rev p).

(** [str(n)] for an [int]. *)
Definition str_of_int (z : Z) : str :=
  lit (NilZero.string_of_int (Z.to_int z)).

(** ** [sorted] *)

(** [sorted] is stable and only ever asks [<].  For a comparison that is a
    strict weak order on the elements (every use in the modelled code,
    unless a score is NaN), its result is the one computed by this stable
    insertion sort; in every case the result is a permutation of the
    argument, which is all the proofs below use about ties. *)
Fixpoint insort {A} (lt : A -> A -> bool) (x : A) (l : list A) : list A :=
  match l with
  | [] => [x]
  | y :: l' => if lt y x then y :: insort lt x l' else x :: l
  end.

Definition sorted {A} (lt : A -> A -> bool) (l : list A) : list A :=
  foldr (insort lt) [] l.

(** "Not greater than", the order in which [sorted] leaves its result. *)
Definition not_gt {A} (lt : A -> A -> bool) (a b : A) : Prop := lt b a = false.

(** [<] on the string keys of the elements. *)
Definition key_lt {A} (key : A -> str) (a b : A) : bool :=
  str_lt (key a) (key b).

(** [sorted(l, key=key, reverse=True)] on float keys: descending, and
    elements with equal keys keep their original order. *)
Definition sorted_by_key_desc {A} (key : A -> float) (l : list A) : list A :=
  sorted (fun a b => PrimFloat.ltb (key b) (key a)) l.

(** ** Dictionaries *)

Section Dict.
Context {K : Type} `{EqDecision K} {V : Type}.

Definition dict : Type := list (K * V).

Fixpoint dict_get (k : K) (d : dict) : option V :=
  match d with
  | [] => None
  | (k', v) :: d' => if decide (k = k') then Some v else dict_get k d'
  end.

(** [d[k] = v]: an existing key keeps its position, a new key goes last. *)
Fixpoint dict_set (k : K) (v : V) (d : dict) : dict :=
  match d with
  | [] => [(k, v)]
  | (k', v') :: d' =>
      if decide (k = k') then (k', v) :: d'
      else (k', v') :: dict_set k v d'
  end.

Definition keys (d : dict) : list K := List.map fst d.
Definition values (d : dict) : list V := List.map snd d.

(** [d.get(k, default)] *)
Definition dict_get_default (k : K) (default : V) (d : dict) : V :=
  match dict_get k d with Some v => v | None => default end.
End Dict.
Arguments dict K V : clear implicits.

(** ** UTF-8 *)

(** [s.encode("utf-8")]: surrogates and values above U+10FFFF cannot be
    encoded ([UnicodeEncodeError]). *)
Definition byte_of (n : N) : byte :=
  match Byte.of_N (n mod 256) with Some b => b | None => x00 end.

Definition utf8_char (c : N) : option (list byte) :=
  (if c <? 0x80 then Some [byte_of c]
   else if c <? 0x800 then
     Some [byte_of (0xC0 + c / 64); byte_of (0x80 + c mod 64)]
   else if (0xD800 <=? c) && (c <=? 0xDFFF) then None
   else if c <? 0x10000 then
     Some [byte_of (0xE0 + c / 4096); byte_of (0x80 + (c / 64) mod 64);
           byte_of (0x80 + c mod 64)]
   else if c <? 0x110000 then
     Some [byte_of (0xF0 + c / 262144); byte_of (0x80 + (c / 4096) mod 64);
           byte_of (0x80 + (c / 64) mod 64); byte_of (0x80 + c mod 64)]
   else None)%N.

Fixpoint utf8_encode (s : str) : option (list byte) :=
  match s with
  | [] => Some []
  | c :: s' =>
      match utf8_char c, utf8_encode s' with
      | Some b, Some bs => Some (b ++ bs)
      | _, _ => None
      end
  end.

(** ** Numbers *)

(** [float(n)] for an [int]: the nearest binary64 value, ties to even.
    (Python raises [OverflowError] above the binary64 range, where this
    gives infinity; document counts and term frequencies are far below.) *)
Definition float_of_int (z : Z) : float :=
  SF2Prim (binary_normalize prec emax z 0 false).

(** The platform's C library, of which the code uses [log] (through
    [math.log]). *)
Class Libm : Type := { libm_log : float -> float }.

Section Math.
Context {libm : Libm}.

(** [m_log] of CPython's [mathmodule.c]: the domain checks around the C
    library's [log]. *)
Definition m_log (x : float) : result float :=
  if is_finite x then
    if PrimFloat.ltb 0 x then Ok (libm_log x) else Raise ValueError
  else if is_nan x then Ok x
  else if PrimFloat.ltb 0 x then Ok x
  else Raise ValueError.

(** [math.log(x, base)] is [m_log(x) / m_log(base)], a float division. *)
Definition math_log (x base : float) : result float :=
  bind (m_log x) (fun num =>
  bind (m_log base) (fun den =>
  if PrimFloat.eqb den 0 then Raise ZeroDivisionError
  else Ok (PrimFloat.div num den))).

(** [math.sqrt(x)] *)
Definition math_sqrt (x : float) : result float :=
  if PrimFloat.ltb x 0 then Raise ValueError else Ok (PrimFloat.sqrt x).
End Math.

Definition ten : float := float_of_int 10.

(** ** More on strings *)

(** [sep.join(parts)] *)
Fixpoint str_join (sep : str) (parts : list str) : str :=
  match parts with
  | [] => []
  | [p] => p
  | p :: rest => p ++ sep ++ str_join sep rest
  end.

(** [s[:n]]: a negative [n] counts from the end. *)
Definition slice_to (s : str) (n : Z) : str :=
  if n <? 0 then take (List.length s - Z.to_nat (- n)) s
  else take (Z.to_nat n) s.

(** ** Cells of a data set *)

(** A cell of a data set as pandas hands it over: [None], a string, an
    integer, or the float NaN that stands for a missing cell.  (Other
    floats are left out.) *)
Inductive value : Type :=
| VNone
| VStr (s : str)
| VInt (z : Z)
| VNaN.

(** [str(v)] *)
Definition str_of_value (v : value) : str :=
  match v with
  | VNone => lit "None"
  | VStr s => s
  | VInt z => str_of_int z
  | VNaN => lit "nan"
  end.

(** The truth value of [v], as in [if not v]. *)
Definition truthy (v : value) : bool :=
  match v with
  | VNone => false
  | VStr s => negb (bool_decide (s = []))
  | VInt z => negb (z =? 0)
  | VNaN => true
  end.

End Py.


(* ===================================================================== *)
(** * Part II. [heapq]                                                     *)
(* ===================================================================== *)

(** The binary min-heap of the standard library, on a list used as an
    array ([heapq.py]; the C accelerator implements the same algorithm).
    The two loops are bounded by the position they move: [_siftdown] by
    [pos], which strictly decreases, and [_siftup] by the length of the
    heap, below which [pos] strictly increases. *)
Module Heapq.
Import Py.

Section Heap.
Context {A : Type} (lt : A -> A -> bool).

(** The [while pos > startpos] loop of [_siftdown]; [n] bounds the number
    of iterations and is instantiated with [pos]. *)
Fixpoint siftdown_loop (n : nat) (heap : list A) (startpos pos : nat)
    (newitem : A) : list A :=
  match n with
  | O => <[pos := newitem]> heap
  | S n' =>
      if bool_decide (startpos < pos)%nat then
        let parentpos := ((pos - 1) / 2)%nat in
        match heap !! parentpos with
        | Some parent =>
            if lt newitem parent then
              siftdown_loop n' (<[pos := parent]> heap) startpos parentpos
                newitem
            else <[pos := newitem]> heap
        | None => <[pos := newitem]> heap
        end
      else <[pos := newitem]> heap
  end.

Definition _siftdown (heap : list A) (startpos pos : nat) : list A :=
  match heap !! pos with
  | Some newitem => siftdown_loop pos heap startpos pos newitem
  | None => heap
  end.

(** The [while childpos < endpos] loop of [_siftup]: bubbles the smaller
    child up until a leaf is reached; returns the heap and the leaf. *)
Fixpoint siftup_loop (n : nat) (heap : list A) (endpos pos : nat)
    : list A * nat :=
  match n with
  | O => (heap, pos)
  | S n' =>
      let childpos := (2 * pos + 1)%nat in
      if bool_decide (childpos < endpos)%nat then
        let rightpos := (childpos + 1)%nat in
        let childpos :=
          match heap !! childpos, heap !! rightpos with
          | Some c, Some r =>
              if bool_decide (rightpos < endpos)%nat && negb (lt c r)
              then rightpos else childpos
          | _, _ => childpos
          end in
        match heap !! childpos with
        | Some c => siftup_loop n' (<[pos := c]> heap) endpos childpos
        | None => (heap, pos)
        end
      else (heap, pos)
  end.

Definition _siftup (heap : list A) (pos : nat) : list A :=
  match heap !! pos with
  | Some newitem =>
      let '(heap, leaf) := siftup_loop (length heap) heap (length heap) pos in
      _siftdown (<[leaf := newitem]> heap) pos leaf
  | None => heap
  end.

(** [heappush(heap, item)] *)
Definition heappush (heap : list A) (item : A) : list A :=
  _siftdown (heap ++ [item]) 0 (length heap).

(** [heapreplace(heap, item)]: the heap after the call ([heap[0]] raises
    [IndexError] on an empty heap). *)
Definition heapreplace (heap : list A) (item : A) : result (list A) :=
  match heap with
  | [] => Raise IndexError
  | _ :: _ => Ok (_siftup (<[0%nat := item]> heap) 0)
  end.
End Heap.

(** [a < b] on the pairs [(score, doc_id)] kept in the heap: tuples compare
    at the first position where they differ. *)
Definition tuple_lt (a b : float * str) : bool :=
  if PrimFloat.eqb (fst a) (fst b) then
    if str_eqb (snd a) (snd b) then false else str_lt (snd a) (snd b)
  else PrimFloat.ltb (fst a) (fst b).

End Heapq.


(** ** The order of a heap *)

(** The invariant that [heapq] maintains on the array, and what holds of
    the array while an item is being moved. *)
Module HeapOrder.
Section Order.
Context {A : Type} (R : A -> A -> Prop).

(** The position of the parent of position [i] in the array. *)
Definition parent (i : nat) : nat := ((i - 1) / 2)%nat.

(** The invariant of [heapq]: no item is below its parent
    ([R p a]: [p] is not above [a]). *)
Definition heap_ordered (heap : list A) : Prop :=
  forall i a p,
    (0 < i)%nat -> heap !! i = Some a -> heap !! parent i = Some p -> R p a.

(** What holds while [_siftdown] carries [newitem] from [pos] towards the
    root: the order holds wherever [pos] is not involved, [newitem] is not
    above the children of [pos], nor is the parent of [pos]. *)
Definition sifting_down (heap : list A) (pos : nat) (newitem : A) : Prop :=
  (forall i a p,
     (0 < i)%nat -> i <> pos -> parent i <> pos ->
     heap !! i = Some a -> heap !! parent i = Some p -> R p a)
  /\ (forall c a,
        (0 < c)%nat -> parent c = pos -> heap !! c = Some a -> R newitem a)
  /\ (forall c a p,
        (0 < c)%nat -> parent c = pos -> (0 < pos)%nat ->
        heap !! c = Some a -> heap !! parent pos = Some p -> R p a).

(** What holds while [_siftup] moves the hole at [pos] towards the leaves:
    the order holds wherever [pos] is not the parent, and the parent of
    [pos] is not above the children of [pos]. *)
Definition sifting_up (heap : list A) (pos : nat) : Prop :=
  (forall i a p,
     (0 < i)%nat -> parent i <> pos ->
     heap !! i = Some a -> heap !! parent i = Some p -> R p a)
  /\ (forall c a p,
        (0 < c)%nat -> parent c = pos -> (0 < pos)%nat ->
        heap !! c = Some a -> heap !! parent pos = Some p -> R p a).

End Order.
End HeapOrder.


(* ===================================================================== *)
(** * Part III. [core/text_preprocessor.py]                                *)
(* ===================================================================== *)

Module TextPreprocessor.
Import Py.

(** ** Unicode services *)

Definition is_ascii (c : N) : bool := (c <? 128)%N.

(** The two Unicode services the module calls on its input.  On ASCII text
    both are fixed: [unidecode] returns an ASCII string unchanged (the
    package tests [string.encode('ASCII')] first, and the fallback defined
    by the module when the package is missing is the identity), and
    [str.lower] maps [A-Z] to [a-z].  On other text [unidecode] is the
    package's transliteration (or the identity of the fallback) and
    [str.lower] is the Unicode case mapping; both are parameters. *)
Class Unicode : Type := {
  transliterate : str -> str;
  unicode_lower : str -> str
}.

Definition ascii_lower (c : N) : N :=
  (if (65 <=? c) && (c <=? 90) then c + 32 else c)%N.

Section Text.
Context {unicode : Unicode}.

Definition unidecode (s : str) : str :=
  if forallb is_ascii s then s else transliterate s.

Definition lower (s : str) : str :=
  if forallb is_ascii s then List.map ascii_lower s else unicode_lower s.

(** ** Regular expressions and whitespace *)

(** [\s] on [str] patterns, and the characters [str.strip] and [str.split]
    treat as blank: the Unicode whitespace characters. *)
Definition is_space (c : N) : bool :=
  ((9 <=? c) && (c <=? 13) || (28 <=? c) && (c <=? 32)
   || (c =? 0x85) || (c =? 0xA0) || (c =? 0x1680)
   || (0x2000 <=? c) && (c <=? 0x200A)
   || (c =? 0x2028) || (c =? 0x2029) || (c =? 0x202F) || (c =? 0x205F)
   || (c =? 0x3000))%N.

(** [[a-z0-9]] *)
Definition is_lower_alnum (c : N) : bool :=
  ((97 <=? c) && (c <=? 122) || (48 <=? c) && (c <=? 57))%N.

Definition space : N := 32%N.

(** [re.sub(r"[^a-z0-9\s]", " ", text)] *)
Definition sub_non_alnum (s : str) : str :=
  List.map (fun c => if is_lower_alnum c || is_space c then c else space) s.

(** [re.sub(r"\s+", " ", text)]: every maximal run of whitespace becomes
    one space; [in_run] tells that the previous character was whitespace. *)
Fixpoint sub_spaces_from (in_run : bool) (s : str) : str :=
  match s with
  | [] => []
  | c :: s' =>
      if is_space c then
        if in_run then sub_spaces_from true s'
        else space :: sub_spaces_from true s'
      else c :: sub_spaces_from false s'
  end.

Definition sub_spaces (s : str) : str := sub_spaces_from false s.

Fixpoint lstrip (s : str) : str :=
  match s with
  | [] => []
  | c :: s' => if is_space c then lstrip s' else s
  end.

Fixpoint rstrip (s : str) : str :=
  match s with
  | [] => []
  | c :: s' =>
      match rstrip s' with
      | [] => if is_space c then [] else [c]
      | r => c :: r
      end
  end.

(** [s.strip()] *)
Definition strip (s : str) : str := rstrip (lstrip s).

(** [normalize_text(text)]; [None] is Python's [None]. *)
Definition normalize_text (text : option str) : str :=
  match text with
  | None => []
  | Some text =>
      let text := unidecode text in
      let text := lower text in
      let text := sub_non_alnum text in
      strip (sub_spaces text)
  end.

(** The shape of a normalised text: lowercase ASCII letters and digits, in
    words separated by exactly one space, with no space at either end.
    [after_space] tells that a space (or the beginning) precedes. *)
Fixpoint words_from (after_space : bool) (s : str) : bool :=
  match s with
  | [] => negb after_space
  | c :: s' =>
      if (c =? space)%N then negb after_space && words_from true s'
      else is_lower_alnum c && words_from false s'
  end.

Definition normal_form (s : str) : bool :=
  match s with
  | [] => true
  | _ => words_from true s
  end.

(** The same shape with spaces allowed at either end: what the two
    substitutions produce, before [strip]. *)
Fixpoint spaced (after_space : bool) (s : str) : bool :=
  match s with
  | [] => true
  | c :: s' =>
      if (c =? space)%N then negb after_space && spaced true s'
      else is_lower_alnum c && spaced false s'
  end.

Definition alnum_or_space (c : N) : bool := is_lower_alnum c || is_space c.

(** [text.split()]: the maximal runs of non-blank characters; [word] is
    the run being read, reversed. *)
Fixpoint split_from (word : str) (s : str) : list str :=
  match s with
  | [] => match word with [] => [] | _ => [rev word] end
  | c :: s' =>
      if is_space c then
        match word with
        | [] => split_from [] s'
        | _ => rev word :: split_from [] s'
        end
      else split_from (c :: word) s'
  end.

Definition split (s : str) : list str := split_from [] s.

Definition tokenize (text : option str) : list str :=
  match normalize_text text with
  | [] => []
  | text => split text
  end.

(** ** The heuristic stemmer *)

Definition noun_suffixes : list str :=
  [ lit "mente"; lit "aci" ++ [243%N] ++ lit "n"; lit "aciones";
    lit "amientos"; lit "amiento"; lit "imientos"; lit "imiento";
    lit "idades"; lit "idad"; lit "anzas"; lit "ancia"; lit "ancia";
    lit "ismo"; lit "ista"; lit "istas"; lit "able"; lit "ibles";
    lit "mente"; lit "mente" ].

Definition verb_suffixes : list str :=
  [ lit "ar"; lit "er"; lit "ir"; lit "ado"; lit "ido"; lit "ando";
    lit "iendo"; lit "ar" ++ [233%N]; lit "er" ++ [233%N];
    lit "ir" ++ [233%N]; lit "ar" ++ [237%N] ++ lit "a";
    lit "er" ++ [237%N] ++ lit "a"; lit "ir" ++ [237%N] ++ lit "a" ].

(** The [for s in suffixes] loops of [_simple_stem]: the first suffix that
    ends the word and leaves at least three characters is cut off. *)
Fixpoint strip_first_suffix (word : str) (suffixes : list str) : option str :=
  match suffixes with
  | [] => None
  | s :: rest =>
      if endswith word s && bool_decide (3 <= length word - length s)%nat
      then Some (take (length word - length s) word)
      else strip_first_suffix word rest
  end.

Definition _simple_stem (word : str) : str :=
  if bool_decide (length word <= 4)%nat then word
  else
    match strip_first_suffix word noun_suffixes with
    | Some w => w
    | None =>
        match strip_first_suffix word verb_suffixes with
        | Some w => w
        | None => word
        end
    end.

(** ** The lazily initialised resources *)

(** What a call of [stopwords.words("spanish")] does. *)
Inductive lookup : Type :=
| Found (words : list str)
| RaisesLookupError
| RaisesOther.

(** The [nltk] package as the module sees it when its import succeeded:
    the outcome of [SnowballStemmer("spanish")] (the stemming function when
    it constructs; the [except] branch repeats the same call, so a failure
    is raised from there), of the first [stopwords.words("spanish")], and of
    [nltk.download("stopwords")] followed by a second lookup. *)
Record nltk_package : Type := {
  snowball : result (str -> str);
  stopwords_words : lookup;
  download_then_words : result (list str)
}.

(** The surroundings of the process.  [custom_file] is [None] when
    [stopwords_es.txt] does not exist next to the module, [Some None] when
    it exists and reading it raises, [Some (Some lines)] otherwise.
    [nltk] is [None] when the imports at the top of the module failed. *)
Record environment : Type := {
  custom_file : option (option (list str));
  nltk : option nltk_package
}.

(** The module globals [_stemmer] and [_stopwords]. *)
Record globals : Type := {
  _stemmer : option (str -> str);
  _stopwords : option (list str)
}.

Definition initial : globals := {| _stemmer := None; _stopwords := None |}.

Definition set_stopwords (g : globals) (ws : list str) : globals :=
  {| _stemmer := _stemmer g; _stopwords := Some ws |}.

Definition set_stemmer (g : globals) (st : str -> str) : globals :=
  {| _stemmer := Some st; _stopwords := _stopwords g |}.

(** The lines of the custom file that are kept, normalised. *)
Definition custom_words (lines : list str) : list str :=
  let raw :=
    List.map strip
      (List.filter
         (fun w => negb (bool_decide (strip w = []))
                   && negb (startswith (strip w) (lit "#")))
         lines) in
  List.map (fun w => lower (unidecode w)) raw.

Definition normalize_words (sw : list str) : list str :=
  List.map (fun w => lower (unidecode w)) sw.

(** The NLTK half of [_ensure_nltk_resources] (from [if nltk is None]). *)
Definition ensure_from_nltk (env : environment) (g : globals)
    : result unit * globals :=
  match nltk env with
  | None => (Raise RuntimeError, g)
  | Some pkg =>
      let stemmer_step : result unit * globals :=
        match _stemmer g with
        | Some _ => (Ok tt, g)
        | None =>
            match snowball pkg with
            | Ok st => (Ok tt, set_stemmer g st)
            | Raise e => (Raise e, g)
            end
        end in
      match stemmer_step with
      | (Raise e, g) => (Raise e, g)
      | (Ok _, g) =>
          match _stopwords g with
          | Some _ => (Ok tt, g)
          | None =>
              match stopwords_words pkg with
              | Found sw => (Ok tt, set_stopwords g (normalize_words sw))
              | RaisesLookupError =>
                  match download_then_words pkg with
                  | Ok sw => (Ok tt, set_stopwords g (normalize_words sw))
                  | Raise e => (Raise e, g)
                  end
              | RaisesOther => (Ok tt, set_stopwords g [])
              end
          end
      end
  end.

Definition _ensure_nltk_resources (env : environment) (g : globals)
    : result unit * globals :=
  match _stopwords g, custom_file env with
  | None, Some (Some lines) => (Ok tt, set_stopwords g (custom_words lines))
  | _, _ => ensure_from_nltk env g
  end.

Definition remove_stopwords (env : environment) (g : globals)
    (tokens : list str) : result (list str) * globals :=
  match _ensure_nltk_resources env g with
  | (Raise e, g) => (Raise e, g)
  | (Ok _, g) =>
      match _stopwords g with
      | Some sw =>
          (Ok (List.filter (fun t => negb (bool_decide (t ∈ sw))) tokens), g)
      | None => (Raise OtherError, g)
      end
  end.

Definition stem_tokens (env : environment) (g : globals)
    (tokens : list str) : result (list str) * globals :=
  match _ensure_nltk_resources env g with
  | (Raise e, g) => (Raise e, g)
  | (Ok _, g) =>
      match _stemmer g with
      | Some st => (Ok (List.map st tokens), g)
      | None => (Ok (List.map _simple_stem tokens), g)
      end
  end.

Definition preprocess (env : environment) (g : globals)
    (text : option str) : result (list str) * globals :=
  match tokenize text with
  | [] => (Ok [], g)
  | tokens =>
      match remove_stopwords env g tokens with
      | (Raise e, g) => (Raise e, g)
      | (Ok tokens, g) => stem_tokens env g tokens
      end
  end.

(** ** Which stopword sources can be loaded *)

(** The custom word list exists and can be read. *)
Definition custom_loadable (env : environment) : bool :=
  match custom_file env with
  | Some (Some _) => true
  | _ => false
  end.

(** The NLTK Spanish stopword list can be obtained, at once or after the
    download. *)
Definition nltk_loadable (env : environment) : bool :=
  match nltk env with
  | None => false
  | Some pkg =>
      match stopwords_words pkg with
      | Found _ => true
      | RaisesLookupError => is_ok (download_then_words pkg)
      | RaisesOther => false
      end
  end.

(** The [except Exception: _stopwords = set()] branch is reached from the
    initial state: NLTK is imported, the stemmer is constructed, and the
    lookup raises something else than [LookupError]. *)
Definition reaches_empty_fallback (env : environment) : bool :=
  match nltk env with
  | None => false
  | Some pkg =>
      is_ok (snowball pkg)
      && match stopwords_words pkg with RaisesOther => true | _ => false end
  end.

(** ** Concatenating the fields of a row *)

(** [concat_series_text(series)], on the values of the series. *)
Definition concat_series_text (values : list value) : str :=
  let parts :=
    fold_left
      (fun parts v =>
         match v with
         | VNone => parts
         | _ =>
             let s := strip (str_of_value v) in
             if negb (bool_decide (s = []))
                && negb (bool_decide (lower s ∈ [lit "nan"; lit "none"]))
             then parts ++ [s]
             else parts
         end)
      values [] in
  str_join [space] parts.

(** The fields that [concat_series_text] keeps: neither [None], nor blank,
    nor the text [nan] or [none] in any case. *)
Definition kept_field (v : value) : bool :=
  match v with
  | VNone => false
  | _ =>
      let s := strip (str_of_value v) in
      negb (bool_decide (s = []))
      && negb (bool_decide (lower s ∈ [lit "nan"; lit "none"]))
  end.

(** A text that neither begins nor ends with a blank. *)
Definition trimmed (s : str) : Prop :=
  (exists c r, s = c :: r /\ is_space c = false)
  /\ (exists r c, s = r ++ [c] /\ is_space c = false).

End Text.
End TextPreprocessor.


(* ===================================================================== *)
(** * Part IV. The index files                                             *)
(* ===================================================================== *)

(** The three files written by [merge_blocks] and read by [QueryEngine]:
    [inverted.jsonl] (one JSON record per line), [vocab.json] and
    [doc_norms.json]. *)
Module IndexFiles.
Import Py.

(** One line of [inverted.jsonl]:
    [{"term": ..., "df": ..., "postings": [[doc_id, weight], ...]}]. *)
Record posting_record : Type := {
  term : str;
  df : Z;
  postings : list (str * float)
}.

(** One value of [vocab.json]: [{"df": ..., "offset": ..., "length": ...}]. *)
Record meta : Type := {
  meta_df : Z;
  meta_offset : Z;
  meta_length : Z
}.

(** The [json] module on posting records.  [json_dumps r] is
    [json.dumps(r, ensure_ascii=False)]; [json_loads data] is
    [json.loads(data.decode("utf-8"))], with [None] when either step raises.
    (JSON text of another shape than a posting record is outside the model.) *)
Class Json : Type := {
  json_dumps : posting_record -> str;
  json_loads : list byte -> option posting_record
}.

Definition newline : N := 10%N.

(** [vocab.json] and [doc_norms.json] are written with [json.dump] and read
    back with [json.load]; the model hands the dictionaries over as values. *)
Record index : Type := {
  inverted : list byte;
  vocab : dict str meta;
  doc_norms : dict str float
}.

End IndexFiles.


(* ===================================================================== *)
(** * Part V. [indexes/merge_blocks.py]                                    *)
(* ===================================================================== *)

Module MergeBlocks.
Import Py IndexFiles.

(** A document id as found in a block file; [merge_blocks] applies [str]. *)
Inductive doc_id_value : Type :=
| IdStr (s : str)
| IdInt (z : Z).

Definition str_of (d : doc_id_value) : str :=
  match d with
  | IdStr s => s
  | IdInt z => str_of_int z
  end.

(** A block file after [json.load]: the items of the dictionary
    term -> list of [[doc_id, tf]], in file order ([int(tf)] is applied). *)
Definition block : Type := list (str * list (doc_id_value * Z)).

(** The blocks directory: file names with their content, in the order the
    operating system lists them ([None]: the file does not hold a block). *)
Definition directory : Type := list (str * option block).

(** [_write_block]'s file name for a block id: [f"block_{block_id}.json"]. *)
Definition block_name (block_id : Z) : str :=
  lit "block_" ++ str_of_int block_id ++ lit ".json".

(** [glob.glob(os.path.join(blocks_dir, "block_*.json"))] *)
Definition matches_pattern (name : str) : bool :=
  startswith name (lit "block_") && endswith name (lit ".json")
  && bool_decide (11 <= List.length name)%nat.

Definition glob (dir : directory) : directory :=
  List.filter (fun f => matches_pattern (fst f)) dir.

(** [sorted(glob.glob(...))]: the paths share the directory prefix, so they
    are ordered by file name, as strings. *)
Definition block_files (dir : directory) : directory :=
  sorted (key_lt fst) (glob dir).

(** ** Aggregation *)

(** [term_doc_tf] and [doc_ids]. *)
Definition term_doc_tf : Type := dict str (dict str Z).

Definition aggregate : Type := term_doc_tf * gset str.

(** [term_doc_tf[term][str(doc_id)] += int(tf); doc_ids.add(str(doc_id))];
    both dictionaries are [defaultdict]s. *)
Definition add_posting (term : str) (acc : aggregate)
    (p : doc_id_value * Z) : aggregate :=
  let '(tdt, doc_ids) := acc in
  let doc := str_of (fst p) in
  let docs := dict_get_default (V := dict str Z) term [] tdt in
  let docs := dict_set doc (dict_get_default doc 0 docs + snd p) docs in
  (dict_set term docs tdt, {[doc]} ∪ doc_ids).

Definition add_item (acc : aggregate)
    (item : str * list (doc_id_value * Z)) : aggregate :=
  fold_left (add_posting (fst item)) (snd item) acc.

Definition add_block (acc : aggregate) (b : block) : aggregate :=
  fold_left add_item b acc.

(** The [for bf in block_files] loop; a file that is not a block raises. *)
Fixpoint aggregate_blocks (files : directory) (acc : aggregate)
    : result aggregate :=
  match files with
  | [] => Ok acc
  | (_, None) :: _ => Raise ValueError
  | (_, Some b) :: files' => aggregate_blocks files' (add_block acc b)
  end.

(** ** Weights *)

Section Merge.
Context {libm : Libm} {json : Json}.

(** [math.log((N / df), 10) if df > 0 else 0.0]; [N / df] on two [int]s is
    their quotient rounded to binary64, which is the float division of the
    two counts as long as they are below [2^53]. *)
Definition idf_of (N df : Z) : result float :=
  if 0 <? df then
    math_log (PrimFloat.div (float_of_int N) (float_of_int df)) ten
  else Ok 0%float.

(** [1.0 + math.log(tf, 10) if tf > 0 else 0.0] *)
Definition tf_weight_of (tf : Z) : result float :=
  if 0 <? tf then
    bind (math_log (float_of_int tf) ten) (fun l => Ok (1 + l)%float)
  else Ok 0%float.

(** The inner loop over [docs.items()]: the postings of the record, and
    [doc_sq_sums] (a [defaultdict(float)]). *)
Fixpoint weigh (idf : float) (docs : list (str * Z))
    (postings : list (str * float)) (doc_sq_sums : dict str float)
    : result (list (str * float) * dict str float) :=
  match docs with
  | [] => Ok (postings, doc_sq_sums)
  | (doc_id, tf) :: docs' =>
      bind (tf_weight_of tf) (fun tf_weight =>
      let weight := (tf_weight * idf)%float in
      let sq := dict_get_default doc_id 0%float doc_sq_sums in
      weigh idf docs' (postings ++ [(doc_id, weight)])
        (dict_set doc_id (sq + weight * weight)%float doc_sq_sums))
  end.

(** What the loop over the sorted terms has produced so far. *)
Record written : Type := {
  w_inverted : list byte;
  w_vocab : dict str meta;
  w_doc_sq_sums : dict str float
}.

(** One iteration of [for term in sorted(term_doc_tf.keys())]. *)
Definition write_term (N : Z) (tdt : term_doc_tf) (term : str)
    (w : written) : result written :=
  let docs := dict_get_default (V := dict str Z) term [] tdt in
  let df := Z.of_nat (List.length docs) in
  bind (idf_of N df) (fun idf =>
  bind (weigh idf docs [] (w_doc_sq_sums w)) (fun '(postings, sq) =>
  let record := {| term := term; df := df; postings := postings |} in
  let offset := Z.of_nat (List.length (w_inverted w)) in
  let line := json_dumps record ++ [newline] in
  match utf8_encode line with
  | None => Raise UnicodeEncodeError
  | Some data =>
      Ok {| w_inverted := w_inverted w ++ data;
            w_vocab :=
              dict_set term
                {| meta_df := df; meta_offset := offset;
                   meta_length := Z.of_nat (List.length data) |}
                (w_vocab w);
            w_doc_sq_sums := sq |}
  end)).

Fixpoint write_terms (N : Z) (tdt : term_doc_tf) (terms : list str)
    (w : written) : result written :=
  match terms with
  | [] => Ok w
  | term :: terms' =>
      bind (write_term N tdt term w) (write_terms N tdt terms')
  end.

(** [{doc: math.sqrt(sq) for doc, sq in doc_sq_sums.items()}] *)
Fixpoint norms_of (doc_sq_sums : list (str * float))
    : result (dict str float) :=
  match doc_sq_sums with
  | [] => Ok []
  | (doc, sq) :: rest =>
      bind (math_sqrt sq) (fun n =>
      bind (norms_of rest) (fun ns => Ok ((doc, n) :: ns)))
  end.

(** The value returned under ["N"], with the three files written. *)
Record merge_output : Type := {
  out_index : index;
  out_N : Z
}.

(** [merge_blocks(blocks_dir, out_dir)] *)
Definition merge_blocks (dir : directory) : result merge_output :=
  match block_files dir with
  | [] => Raise FileNotFoundError
  | files =>
      bind (aggregate_blocks files ([], ∅)) (fun '(tdt, doc_ids) =>
      let N := Z.of_nat (size doc_ids) in
      if N =? 0 then Raise RuntimeError
      else
        bind (write_terms N tdt (sorted str_lt (keys tdt))
                {| w_inverted := []; w_vocab := []; w_doc_sq_sums := [] |})
          (fun w =>
        bind (norms_of (w_doc_sq_sums w)) (fun norms =>
        Ok {| out_index :=
                {| inverted := w_inverted w; vocab := w_vocab w;
                   doc_norms := norms |};
              out_N := N |})))
  end.

(** ** The content of the files written *)

(** The bytes of the line written for a record. *)
Definition line_bytes (record : posting_record) : option (list byte) :=
  utf8_encode (json_dumps record ++ [newline]).

(** The bytes of the lines written for a sequence of records. *)
Fixpoint lines_of (records : list posting_record) : option (list byte) :=
  match records with
  | [] => Some []
  | r :: rest =>
      match line_bytes r, lines_of rest with
      | Some b, Some bs => Some (b ++ bs)
      | _, _ => None
      end
  end.

(** A posting carries the weight of its document: the document id, and
    [tf_weight * idf]. *)
Definition posting_for (idf : float) (doc : str * Z) (p : str * float) : Prop :=
  fst p = fst doc
  /\ exists tf_weight,
       tf_weight_of (snd doc) = Ok tf_weight
       /\ snd p = (tf_weight * idf)%float.

(** The record written for a term of [term_doc_tf]. *)
Definition record_for (N : Z) (tdt : term_doc_tf) (t : str)
    (record : posting_record) : Prop :=
  let docs := dict_get_default (V := dict str Z) t [] tdt in
  term record = t
  /\ df record = Z.of_nat (List.length docs)
  /\ exists idf,
       idf_of N (df record) = Ok idf
       /\ Forall2 (posting_for idf) docs (postings record).

(** The dictionary entry of a line written at [offset]. *)
Definition entry_at (offset : nat) (record : posting_record)
    (data : list byte) : meta :=
  {| meta_df := df record; meta_offset := Z.of_nat offset;
     meta_length := Z.of_nat (List.length data) |}.

(** The dictionary entries of consecutive lines, the first of which starts
    at [offset]. *)
Fixpoint layout (offset : nat) (lines : list (posting_record * list byte))
    : dict str meta :=
  match lines with
  | [] => []
  | (record, data) :: lines' =>
      (term record,
       {| meta_df := df record; meta_offset := Z.of_nat offset;
          meta_length := Z.of_nat (List.length data) |})
      :: layout (offset + List.length data) lines'
  end.

End Merge.

(** Every [(term, [doc_id, tf])] entry of the block files, in the order in
    which [merge_blocks] meets them. *)
Definition entries_of_block (b : block) : list (str * (doc_id_value * Z)) :=
  concat (List.map (fun item => List.map (fun p => (fst item, p)) (snd item)) b).

Definition entries_of (files : directory) : list (str * (doc_id_value * Z)) :=
  concat
    (List.map
       (fun f => match snd f with Some b => entries_of_block b | None => [] end)
       files).

(** The cumulative term frequency of a (term, document) pair: the sum of
    the [tf] of its entries over all blocks. *)
Definition contribution (t d : str) (e : str * (doc_id_value * Z)) : Z :=
  if decide (fst e = t /\ str_of (fst (snd e)) = d) then snd (snd e) else 0.

Definition cumulative_tf (dir : directory) (t d : str) : Z :=
  foldr Z.add 0 (List.map (contribution t d) (entries_of (block_files dir))).

(** One entry added to the aggregate. *)
Definition step (acc : aggregate) (e : str * (doc_id_value * Z)) : aggregate :=
  add_posting (fst e) acc (snd e).

(** What holds of [term_doc_tf] and [doc_ids] once the entries [es] have
    been added. *)
Record aggregated (es : list (str * (doc_id_value * Z))) (acc : aggregate)
    : Prop := {
  agg_terms : NoDup (keys (fst acc));
  agg_docs : forall t docs,
    dict_get t (fst acc) = Some docs -> NoDup (keys docs) /\ docs <> [];
  agg_tf : forall t d,
    dict_get_default d 0 (dict_get_default (V := dict str Z) t [] (fst acc))
    = foldr Z.add 0 (List.map (contribution t d) es);
  agg_occurs : forall t docs d,
    dict_get t (fst acc) = Some docs -> d ∈ keys docs ->
    exists e, e ∈ es /\ fst e = t /\ str_of (fst (snd e)) = d;
  agg_ids : forall d,
    d ∈ snd acc <->
    exists t docs, dict_get t (fst acc) = Some docs /\ d ∈ keys docs
}.

(** The block builder only writes positive frequencies. *)
Definition positive_tf (dir : directory) : Prop :=
  Forall (fun e => 1 <= snd (snd e)) (entries_of (block_files dir)).


#[global] Instance doc_id_value_eq_dec : EqDecision doc_id_value.
Proof. solve_decision. Defined.

(** The entries of the dictionary, in the order of the file, cover a file
    of [size] bytes from [offset] on: each record starts where the previous
    one ends, none is empty, and the last one ends the file. *)
Fixpoint contiguous (offset : Z) (entries : list meta) (size : Z) : Prop :=
  match entries with
  | [] => offset = size
  | m :: rest =>
      meta_offset m = offset
      /\ 0 < meta_length m
      /\ contiguous (offset + meta_length m) rest size
  end.

End MergeBlocks.


(* ===================================================================== *)
(** * Part VI. [indexes/inverted_index_spimi.py]                           *)
(* ===================================================================== *)

(** The block builder, as far as the merge depends on it: the block files
    it writes.  (The per-document statistics of [doc_stats.json] are not
    read by the merge nor by the query engine and are left out.) *)
Module SPIMI.
Import Py MergeBlocks.

Section Build.
Context {unicode : TextPreprocessor.Unicode}.

(** [Counter(tokens)]: the count of each token, in order of first
    occurrence. *)
Definition counter (tokens : list str) : dict str Z :=
  fold_left (fun tf t => dict_set t (dict_get_default t 0 tf + 1) tf)
    tokens [].

(** [block_terms[term].append([doc_id, freq])] for every term of a
    document; [block_terms] is a [defaultdict(list)]. *)
Definition add_document (doc_id : str) (tf : dict str Z) (block_terms : block)
    : block :=
  fold_left
    (fun block_terms '(term, freq) =>
       dict_set term
         (dict_get_default (V := list (doc_id_value * Z)) term [] block_terms
          ++ [(IdStr doc_id, freq)])
         block_terms)
    tf block_terms.

(** The state of the loop over the documents. *)
Record building : Type := {
  block_terms : block;
  block_count : Z;
  docs_in_block : Z;
  written_files : directory
}.

(** [self._write_block(block_terms, block_count)] *)
Definition _write_block (b : building) : directory :=
  written_files b ++ [(block_name (block_count b), Some (block_terms b))].

(** One iteration of [for doc_id, text in docs]. *)
Definition index_document (env : TextPreprocessor.environment)
    (block_doc_limit : Z) (st : building * TextPreprocessor.globals)
    (doc : str * option str)
    : result building * TextPreprocessor.globals :=
  let '(b, g) := st in
  match TextPreprocessor.preprocess env g (snd doc) with
  | (Raise e, g) => (Raise e, g)
  | (Ok [], g) => (Ok b, g)
  | (Ok tokens, g) =>
      let terms := add_document (fst doc) (counter tokens) (block_terms b) in
      let n := docs_in_block b + 1 in
      if block_doc_limit <=? n then
        (Ok {| block_terms := []; block_count := block_count b + 1;
               docs_in_block := 0;
               written_files :=
                 written_files b ++ [(block_name (block_count b), Some terms)] |},
         g)
      else
        (Ok {| block_terms := terms; block_count := block_count b;
               docs_in_block := n; written_files := written_files b |}, g)
  end.

Fixpoint index_documents (env : TextPreprocessor.environment)
    (block_doc_limit : Z) (st : building * TextPreprocessor.globals)
    (docs : list (str * option str))
    : result building * TextPreprocessor.globals :=
  match docs with
  | [] => (Ok (fst st), snd st)
  | doc :: docs' =>
      match index_document env block_doc_limit st doc with
      | (Raise e, g) => (Raise e, g)
      | (Ok b, g) => index_documents env block_doc_limit (b, g) docs'
      end
  end.

(** [build_from_documents(docs, block_doc_limit)]: the blocks directory
    after the call. *)
Definition build_from_documents (env : TextPreprocessor.environment)
    (g : TextPreprocessor.globals) (docs : list (str * option str))
    (block_doc_limit : Z) : result directory * TextPreprocessor.globals :=
  match index_documents env block_doc_limit
          ({| block_terms := []; block_count := 0; docs_in_block := 0;
              written_files := [] |}, g) docs with
  | (Raise e, g) => (Raise e, g)
  | (Ok b, g) =>
      if (0 <? docs_in_block b) || (block_count b =? 0)
      then (Ok (_write_block b), g)
      else (Ok (written_files b), g)
  end.

End Build.

(** ** What the builder maintains *)

(** Every frequency of a block is at least one. *)
Definition positive_block (b : block) : Prop :=
  Forall (fun item => Forall (fun p => 1 <= snd p) (snd item)) b.

(** What holds of the state of the builder's loop: the files written so
    far are the blocks numbered from 0 to [block_count - 1], and all
    frequencies are positive. *)
Record built (b : building) : Prop := {
  built_count : 0 <= block_count b;
  built_docs : 0 <= docs_in_block b;
  built_names :
    List.map fst (written_files b) = List.map block_name (seqZ 0 (block_count b));
  built_blocks :
    Forall (fun f => exists blk, snd f = Some blk /\ positive_block blk)
      (written_files b);
  built_terms : positive_block (block_terms b)
}.

(** The document ids of the postings of a block. *)
Definition block_docs (blk : block) : list doc_id_value :=
  concat (List.map (fun item => List.map fst (snd item)) blk).

(** A block holds postings of at most [n] documents. *)
Definition holds_at_most (n : Z) (blk : block) : Prop :=
  Z.of_nat (List.length (remove_dups (block_docs blk))) <= n.

(** The size of the blocks while the builder runs: fewer than
    [block_doc_limit] documents (one, when the limit is below one) are in the
    block being filled, and no block written holds more than that. *)
Record bounded (limit : Z) (b : building) : Prop := {
  bounded_docs : docs_in_block b < Z.max 1 limit;
  bounded_terms :
    exists ids : list doc_id_value,
      Z.of_nat (List.length ids) = docs_in_block b
      /\ forall id, id ∈ block_docs (block_terms b) -> id ∈ ids;
  bounded_written :
    Forall (fun f => forall blk, snd f = Some blk ->
                     holds_at_most (Z.max 1 limit) blk)
      (written_files b)
}.

End SPIMI.


(* ===================================================================== *)
(** * Part VII. [indexes/query_engine.py]                                   *)
(* ===================================================================== *)

Module QueryEngine.
Import Py IndexFiles.

(** [f.seek(offset); f.read(length)] on a file opened with ["rb"]: seeking
    past the end is allowed and reads nothing; a negative offset and a
    length below [-1] are refused; [read(-1)] reads to the end. *)
Definition read_at (file : list byte) (offset length : Z)
    : result (list byte) :=
  if offset <? 0 then Raise OSError
  else if length <? -1 then Raise ValueError
  else
    let rest := drop (Z.to_nat offset) file in
    Ok (if length =? -1 then rest else take (Z.to_nat length) rest).

(** The value of [query] without the wall-clock ["time"] field. *)
Record query_result : Type := {
  results : list (str * float);
  bytes_read : Z
}.

Section Query.
Context {libm : Libm} {json : Json} {unicode : TextPreprocessor.Unicode}.

(** [_read_postings(term)] *)
Definition _read_postings (idx : index) (term : str)
    : result (list (str * float) * Z) :=
  match dict_get term (vocab idx) with
  | None => Ok ([], 0)
  | Some meta =>
      bind (read_at (inverted idx) (meta_offset meta) (meta_length meta))
        (fun data =>
      match json_loads data with
      | None => Ok ([], meta_length meta)
      | Some record => Ok (postings record, meta_length meta)
      end)
  end.

(** [q_tf]: the number of occurrences of each token, keyed in order of
    first occurrence. *)
Definition count_tokens (tokens : list str) : dict str Z :=
  fold_left (fun q_tf t => dict_set t (dict_get_default t 0 q_tf + 1) q_tf)
    tokens [].

(** [accum[doc_id] = accum.get(doc_id, 0.0) + q_w * float(doc_w)] for every
    posting. *)
Definition accumulate (q_w : float) (postings : list (str * float))
    (accum : dict str float) : dict str float :=
  fold_left
    (fun accum '(doc_id, doc_w) =>
       dict_set doc_id (dict_get_default doc_id 0 accum + q_w * doc_w)%float
         accum)
    postings accum.

(** The state of the loop over [q_tf.items()]. *)
Record scoring : Type := {
  accum : dict str float;
  q_sq_sum : float;
  s_bytes_read : Z
}.

(** [math.log((len(self.doc_norms) / df), 10) if df > 0 else 0.0] *)
Definition query_idf (idx : index) (df : Z) : result float :=
  if 0 <? df then
    math_log
      (PrimFloat.div (float_of_int (Z.of_nat (List.length (doc_norms idx))))
         (float_of_int df)) ten
  else Ok 0%float.

(** [1.0 + math.log(tf, 10) if tf > 0 else 0.0] *)
Definition q_tf_weight_of (tf : Z) : result float :=
  if 0 <? tf then
    bind (math_log (float_of_int tf) ten) (fun l => Ok (1 + l)%float)
  else Ok 0%float.

(** One iteration of [for term, tf in q_tf.items()]. *)
Definition score_term (idx : index) (s : scoring) (item : str * Z)
    : result scoring :=
  let '(term, tf) := item in
  match dict_get term (vocab idx) with
  | None => Ok s
  | Some meta =>
      bind (query_idf idx (meta_df meta)) (fun idf =>
      bind (q_tf_weight_of tf) (fun q_tf_weight =>
      let q_w := (q_tf_weight * idf)%float in
      bind (_read_postings idx term) (fun '(postings, br) =>
      Ok {| accum := accumulate q_w postings (accum s);
            q_sq_sum := (q_sq_sum s + q_w * q_w)%float;
            s_bytes_read := s_bytes_read s + br |})))
  end.

Fixpoint score_terms (idx : index) (s : scoring) (q_tf : list (str * Z))
    : result scoring :=
  match q_tf with
  | [] => Ok s
  | item :: rest =>
      bind (score_term idx s item) (fun s => score_terms idx s rest)
  end.

(** One iteration of [for doc_id, dot in accum.items()]. *)
Definition select (idx : index) (k : Z) (q_norm : float)
    (heap : list (float * str)) (item : str * float)
    : result (list (float * str)) :=
  let '(doc_id, dot) := item in
  let doc_norm := dict_get_default doc_id 0%float (doc_norms idx) in
  if PrimFloat.eqb doc_norm 0 then Ok heap
  else
    let den := (q_norm * doc_norm)%float in
    if PrimFloat.eqb den 0 then Raise ZeroDivisionError
    else
      let score := (dot / den)%float in
      if Z.of_nat (List.length heap) <? k then
        Ok (Heapq.heappush Heapq.tuple_lt heap (score, doc_id))
      else
        match heap with
        | [] => Raise IndexError
        | top :: _ =>
            if PrimFloat.ltb (fst top) score then
              Heapq.heapreplace Heapq.tuple_lt heap (score, doc_id)
            else Ok heap
        end.

Fixpoint select_all (idx : index) (k : Z) (q_norm : float)
    (heap : list (float * str)) (items : list (str * float))
    : result (list (float * str)) :=
  match items with
  | [] => Ok heap
  | item :: rest =>
      bind (select idx k q_norm heap item) (fun heap =>
      select_all idx k q_norm heap rest)
  end.

(** The body of [query] once the tokens are known to be non-empty. *)
Definition query_tokens (idx : index) (tokens : list str) (k : Z)
    : result query_result :=
  let q_tf := count_tokens tokens in
  bind (score_terms idx
          {| accum := []; q_sq_sum := 0; s_bytes_read := 0 |} q_tf)
    (fun s =>
  bind (if PrimFloat.ltb 0 (q_sq_sum s) then math_sqrt (q_sq_sum s)
        else Ok 1%float) (fun q_norm =>
  bind (select_all idx k q_norm [] (accum s)) (fun heap =>
  let results :=
    sorted_by_key_desc snd
      (List.map (fun '(score, doc_id) => (doc_id, score)) heap) in
  let final := sorted_by_key_desc snd results in
  Ok {| results := final; bytes_read := s_bytes_read s |}))).

(** [QueryEngine.query(qtext, k)]; the module globals of the text
    preprocessor are threaded through. *)
Definition query (env : TextPreprocessor.environment)
    (g : TextPreprocessor.globals) (idx : index) (qtext : option str)
    (k : Z) : result query_result * TextPreprocessor.globals :=
  match TextPreprocessor.preprocess env g qtext with
  | (Raise e, g) => (Raise e, g)
  | (Ok [], g) => (Ok {| results := []; bytes_read := 0 |}, g)
  | (Ok tokens, g) => (query_tokens idx tokens k, g)
  end.

(** ** What a query touches *)

(** The bytes of the dictionary entry of a term: its [length] field, and
    nothing for a term that is not in the dictionary. *)
Definition entry_bytes (idx : index) (t : str) : Z :=
  match dict_get t (vocab idx) with
  | Some meta => meta_length meta
  | None => 0
  end.

(** The sum of the [length] fields over the distinct tokens of a query. *)
Definition touched_bytes (idx : index) (tokens : list str) : Z :=
  foldr Z.add 0 (List.map (entry_bytes idx) (remove_dups tokens)).

(** The postings a term contributes: those of its record, none when the
    term is not in the dictionary or its record does not parse. *)
Definition fetched_postings (idx : index) (t : str) : list (str * float) :=
  match _read_postings idx t with
  | Ok (postings, _) => postings
  | Raise _ => []
  end.

(** The candidate documents of a query: every document id in the postings
    fetched for its tokens. *)
Definition candidates (idx : index) (tokens : list str) : list str :=
  remove_dups
    (concat (List.map (fun t => List.map fst (fetched_postings idx t))
               (remove_dups tokens))).

(** [doc_norm == 0.0] is false: the stored norm of the document is not
    zero (a document missing from the table counts as zero). *)
Definition has_norm (idx : index) (doc_id : str) : bool :=
  negb (PrimFloat.eqb (dict_get_default doc_id 0%float (doc_norms idx)) 0).

End Query.

(** ** The selection of the best scores *)

(** The pair that [query] puts on the heap for an item of [accum]:
    [(dot / (q_norm * doc_norm), doc_id)]. *)
Definition scored (idx : index) (q_norm : float) (item : str * float)
    : float * str :=
  ((snd item / (q_norm * dict_get_default (fst item) 0%float (doc_norms idx)))%float,
   fst item).

(** The pairs of the items whose stored norm is not zero. *)
Definition scores_of (idx : index) (q_norm : float) (items : list (str * float))
    : list (float * str) :=
  List.map (scored idx q_norm)
    (List.filter (fun item => has_norm idx (fst item)) items).

(** [a] does not score above [b]. *)
Definition score_le (a b : float * str) : Prop :=
  PrimFloat.leb (fst a) (fst b) = true.

(** The score is a number. *)
Definition has_score (a : float * str) : Prop := is_nan (fst a) = false.

(** What holds of the heap while [query] selects: it is ordered by score, it
    holds at most [k] pairs, and the pairs left out so far ([rest]) score
    no higher than any pair kept; nothing is left out before the heap is
    full. *)
Record selecting (k : Z) (heap rest : list (float * str)) : Prop := {
  sel_ordered : HeapOrder.heap_ordered score_le heap;
  sel_scores : Forall has_score heap;
  sel_rest : forall x y, x ∈ rest -> y ∈ heap -> score_le x y;
  sel_full : rest = [] \/ Z.of_nat (List.length heap) = k;
  sel_length : Z.of_nat (List.length heap) <= k
}.

(** [(doc_id, score)] for a pair [(score, doc_id)] of the heap. *)
Definition swap (p : float * str) : str * float := (snd p, fst p).

End QueryEngine.


(** ** [indexes/run_query.py] and [indexes/batch_query_runner.py] *)

(** The two runners print or export the results of [QueryEngine.query]
    with an excerpt of each document. *)
Module QueryRunner.
Import Py TextPreprocessor.

Section Runner.
Context {unicode : Unicode}.

(** [snippet(text, length)] *)
Definition snippet (text : value) (length : Z) : str :=
  if negb (truthy text) then []
  else
    let s := strip (str_of_value text) in
    if length <? Z.of_nat (List.length s) then slice_to s length ++ lit "..."
    else s.

End Runner.
End QueryRunner.


(* ===================================================================== *)
(** * Part VIII. A reference platform                                      *)
(* ===================================================================== *)

(** Concrete instances of the platform services, used to run the model on
    examples: the correctly rounded logarithm, the [json] module of CPython on
    posting records, and the text services without the [unidecode] package.
    The theorems below are stated for arbitrary instances. *)
Module Reference.
Import Py IndexFiles.

(** ** The C library *)

(** The natural logarithm rounded to the nearest binary64 value: the
    result the C libraries aim at (their error is below one unit in the
    last place, and glibc returns the rounded value for all but a few
    arguments in ten thousand).  It is computed in fixed point with
    [log_bits] fractional bits, from [ln x = k ln 2 + 2 atanh s] where
    [x = y 2^k], [y] lies between [sqrt(1/2)] and [sqrt 2], and
    [s = (y - 1) / (y + 1)]. *)
Definition log_bits : Z := 256.

(** [sum (s^(2n+1) / (2n+1))] from the term [s^(2n+1)] on, in fixed point;
    the terms vanish long before the 200th. *)
Fixpoint atanh_terms (count : nat) (power s2 n : Z) : Z :=
  match count with
  | O => 0
  | S count' =>
      power / (2 * n + 1)
      + atanh_terms count' (power * s2 / 2 ^ log_bits) s2 (n + 1)
  end.

Definition atanh_fixed (s : Z) : Z :=
  atanh_terms 200 s (s * s / 2 ^ log_bits) 0.

Definition ln2_fixed : Z := 2 * atanh_fixed (2 ^ log_bits / 3).

(** [ln (m 2^e)] in fixed point, for [m > 0]. *)
Definition ln_fixed (m e : Z) : Z :=
  let bl := Z.log2 m + 1 in
  let above_sqrt2 := 2 * 4 ^ (bl - 1) <? m * m in
  let k := if above_sqrt2 then e + bl else e + bl - 1 in
  let den := if above_sqrt2 then 2 ^ bl else 2 ^ (bl - 1) in
  let num := m - den in
  let a := atanh_fixed (Z.abs num * 2 ^ log_bits / (m + den)) in
  k * ln2_fixed + (if 0 <=? num then 2 * a else - (2 * a)).

Definition rounded_log (x : float) : float :=
  match Prim2SF x with
  | S754_finite false m e =>
      let l := ln_fixed (Zpos m) e in
      if l =? 0 then 0%float
      else
        let r :=
          SF2Prim
            (binary_normalize prec emax (2 * Z.abs l + 1) (- (log_bits + 1))
               false) in
        if l <? 0 then (- r)%float else r
  | _ => nan
  end.

Definition correctly_rounded : Libm := {| libm_log := rounded_log |}.

(** The same logarithm with the values that the examples ask for computed
    once and for all: the arguments are 1, 3/2, 2, 3 and 10. *)
Definition known_logs : list (float * float) :=
  Eval vm_compute in
    List.map (fun x => (x, rounded_log x))
      [float_of_int 1; PrimFloat.div (float_of_int 3) (float_of_int 2);
       float_of_int 2; float_of_int 3; float_of_int 10].

Definition tabulated_log (x : float) : float :=
  match List.find (fun p => PrimFloat.eqb (fst p) x) known_logs with
  | Some p => snd p
  | None => rounded_log x
  end.

Definition tabulated : Libm := {| libm_log := tabulated_log |}.

(** ** [repr] of a float *)

(** [c * 10^q] compared with [num / den] ([den > 0]). *)
Definition cmp_scaled (c q num den : Z) : comparison :=
  if 0 <=? q then (c * 10 ^ q * den ?= num)
  else (c * den ?= num * 10 ^ (- q)).

(** The shortest decimal [D * 10^q] that reads back as the positive finite
    value [m * 2^e], the closest to the value among the shortest; [D] has
    no trailing zero. *)
Section Shortest.
Variables (m e : Z).

(* the value and its rounding interval, over the denominator [den] *)
Let scale : Z := if 0 <=? e - 2 then 2 ^ (e - 2) else 1.
Let den : Z := if 0 <=? e - 2 then 1 else 2 ^ (2 - e).
Let V : Z := 4 * m * scale.
Let LO : Z :=
  (4 * m - (if (m =? 2 ^ 52) && (-1074 <? e) then 1 else 2)) * scale.
Let HI : Z := (4 * m + 2) * scale.

Definition inside (c q : Z) : bool :=
  match cmp_scaled c q LO den, cmp_scaled c q HI den with
  | Gt, Lt => true
  | Eq, Lt | Gt, Eq | Eq, Eq => Z.even m
  | _, _ => false
  end.

(** [|c * 10^q - v|], over the denominator [den * 10^max(0,-q)]. *)
Definition distance (c q : Z) : Z :=
  if 0 <=? q then Z.abs (c * 10 ^ q * den - V)
  else Z.abs (c * den - V * 10 ^ (- q)).

Definition floor_scaled (q : Z) : Z :=
  if 0 <=? q then V / (10 ^ q * den) else (V * 10 ^ (- q)) / den.

(** [10^k <= v] *)
Definition ge_pow10 (k : Z) : bool :=
  match cmp_scaled 1 k V den with Gt => false | _ => true end.

(** [floor(log10 v)], from an estimate that is off by at most one. *)
Definition decimal_exponent : Z :=
  let k := ((Z.log2 m + 1 + e - 1) * 30103) / 100000 in
  let k := if ge_pow10 k then k else k - 1 in
  let k := if ge_pow10 k then k else k - 1 in
  let k := if ge_pow10 (k + 1) then k + 1 else k in
  if ge_pow10 (k + 1) then k + 1 else k.

Fixpoint strip_zeros (fuel : nat) (c q : Z) : Z * Z :=
  match fuel with
  | O => (c, q)
  | S fuel' => if c mod 10 =? 0 then strip_zeros fuel' (c / 10) (q + 1) else (c, q)
  end.

(** Tries [n], [n + 1], ... significant digits ([fuel] more lengths). *)
Fixpoint shortest_from (fuel : nat) (k n : Z) : Z * Z :=
  let q := k - n + 1 in
  let lo := floor_scaled q in
  let hi := lo + 1 in
  let pick c := strip_zeros 18 c q in
  match fuel with
  | O => pick lo
  | S fuel' =>
      match (0 <? lo) && inside lo q, inside hi q with
      | true, true =>
          match distance lo q ?= distance hi q with
          | Lt => pick lo
          | Gt => pick hi
          | Eq => if Z.even lo then pick lo else pick hi
          end
      | true, false => pick lo
      | false, true => pick hi
      | false, false => shortest_from fuel' k (n + 1)
      end
  end.

Definition shortest : Z * Z := shortest_from 17 decimal_exponent 1.
End Shortest.

Definition zeros (n : Z) : str := List.repeat 48%N (Z.to_nat n).

(** [float.__repr__] on a positive finite value. *)
Definition repr_positive (m e : Z) : str :=
  let '(D, q) := shortest m e in
  let ds := str_of_int D in
  let nd := Z.of_nat (List.length ds) in
  let decpt := nd + q in
  if (-4 <? decpt) && (decpt <=? 16) then
    if decpt <=? 0 then lit "0." ++ zeros (- decpt) ++ ds
    else if nd <=? decpt then ds ++ zeros (decpt - nd) ++ lit ".0"
    else firstn (Z.to_nat decpt) ds ++ lit "." ++ skipn (Z.to_nat decpt) ds
  else
    let ex := decpt - 1 in
    firstn 1 ds
    ++ (if 1 <? nd then lit "." ++ skipn 1 ds else [])
    ++ lit "e" ++ (if ex <? 0 then lit "-" else lit "+")
    ++ (if Z.abs ex <? 10 then lit "0" else []) ++ str_of_int (Z.abs ex).

(** A float in JSON text, as [json.dumps] writes it. *)
Definition json_float (x : float) : str :=
  match Prim2SF x with
  | S754_nan => lit "NaN"
  | S754_infinity false => lit "Infinity"
  | S754_infinity true => lit "-Infinity"
  | S754_zero false => lit "0.0"
  | S754_zero true => lit "-0.0"
  | S754_finite s m e =>
      (if s then lit "-" else []) ++ repr_positive (Zpos m) e
  end.

(** ** [json.dumps] *)

Definition quote : N := 34%N.
Definition backslash : N := 92%N.

Definition hex_digit (n : N) : N := (if n <? 10 then 48 + n else 87 + n)%N.

(** One character inside a JSON string ([ensure_ascii=False]): the quote,
    the backslash and the control characters are escaped. *)
Definition json_char (c : N) : str :=
  (if c =? quote then [backslash; quote]
   else if c =? backslash then [backslash; backslash]
   else if c =? 8 then backslash :: lit "b"
   else if c =? 12 then backslash :: lit "f"
   else if c =? 10 then backslash :: lit "n"
   else if c =? 13 then backslash :: lit "r"
   else if c =? 9 then backslash :: lit "t"
   else if c <? 32 then
     backslash :: lit "u00" ++ [hex_digit (c / 16); hex_digit (c mod 16)]
   else [c])%N.

Definition json_string (s : str) : str :=
  quote :: List.concat (List.map json_char s) ++ [quote].

Fixpoint join (sep : str) (l : list str) : str :=
  match l with
  | [] => []
  | [x] => x
  | x :: l' => x ++ sep ++ join sep l'
  end.

Definition json_posting (p : str * float) : str :=
  lit "[" ++ json_string (fst p) ++ lit ", " ++ json_float (snd p) ++ lit "]".

Definition dumps (r : posting_record) : str :=
  lit "{" ++ json_string (lit "term") ++ lit ": " ++ json_string (term r)
  ++ lit ", " ++ json_string (lit "df") ++ lit ": " ++ str_of_int (df r)
  ++ lit ", " ++ json_string (lit "postings") ++ lit ": ["
  ++ join (lit ", ") (List.map json_posting (postings r)) ++ lit "]}".

(** ** [bytes.decode("utf-8")] *)

Definition cont (b : N) : bool := ((128 <=? b) && (b <? 192))%N.

Fixpoint utf8_decode_from (fuel : nat) (bs : list N) : option str :=
  match fuel with
  | O => match bs with [] => Some [] | _ => None end
  | S fuel' =>
      let next c rest :=
        match utf8_decode_from fuel' rest with
        | Some s => Some (c :: s)
        | None => None
        end in
      (match bs with
       | [] => Some []
       | b0 :: rest =>
           if b0 <? 128 then next b0 rest
           else if b0 <? 0xC2 then None
           else if b0 <? 0xE0 then
             match rest with
             | b1 :: rest =>
                 if cont b1 then next ((b0 - 0xC0) * 64 + (b1 - 128)) rest
                 else None
             | _ => None
             end
           else if b0 <? 0xF0 then
             match rest with
             | b1 :: b2 :: rest =>
                 let c := (b0 - 0xE0) * 4096 + (b1 - 128) * 64 + (b2 - 128) in
                 if cont b1 && cont b2 && (0x800 <=? c)
                    && negb ((0xD800 <=? c) && (c <=? 0xDFFF))
                 then next c rest else None
             | _ => None
             end
           else if b0 <? 0xF5 then
             match rest with
             | b1 :: b2 :: b3 :: rest =>
                 let c := (b0 - 0xF0) * 262144 + (b1 - 128) * 4096
                          + (b2 - 128) * 64 + (b3 - 128) in
                 if cont b1 && cont b2 && cont b3 && (0x10000 <=? c)
                    && (c <? 0x110000)
                 then next c rest else None
             | _ => None
             end
           else None
       end)%N
  end.

Definition utf8_decode (bs : list byte) : option str :=
  utf8_decode_from (List.length bs) (List.map Byte.to_N bs).

(** ** [json.loads] *)

#[local] Unset Elimination Schemes.
Inductive json : Type :=
| JNull
| JBool (b : bool)
| JInt (z : Z)
| JFloat (x : float)
| JString (s : str)
| JArray (l : list json)
| JObject (l : list (str * json)).
#[local] Set Elimination Schemes.

Definition is_ws (c : N) : bool :=
  ((c =? 32) || (c =? 9) || (c =? 10) || (c =? 13))%N.

Fixpoint skip_ws (s : str) : str :=
  match s with
  | c :: s' => if is_ws c then skip_ws s' else s
  | [] => []
  end.

Definition is_digit (c : N) : bool := ((48 <=? c) && (c <=? 57))%N.

(** The leading digits of [s], as a number together with their count. *)
Fixpoint digits (acc : Z) (n : Z) (s : str) : Z * Z * str :=
  match s with
  | c :: s' =>
      if is_digit c then digits (acc * 10 + Z.of_N (c - 48)) (n + 1) s'
      else (acc, n, s)
  | [] => (acc, n, s)
  end.

(** The binary64 value nearest to [D * 10^q] ([0 <= D]), ties to even. *)
Definition float_of_decimal (D q : Z) : float :=
  if D =? 0 then 0%float
  else if 0 <=? q then float_of_int (D * 10 ^ q)
  else
    let d := 10 ^ (- q) in
    let sh := Z.max 0 (64 + Z.log2 d - Z.log2 D) in
    let n := D * 2 ^ sh in
    let sticky := if n mod d =? 0 then 0 else 1 in
    SF2Prim (binary_normalize prec emax (2 * (n / d) + sticky) (- sh - 1) false).

(** A number: an optional minus sign, an integer part without superfluous
    leading zero, an optional fraction and an optional exponent; an integer
    when it has neither fraction nor exponent. *)
Definition parse_number (s : str) : option (json * str) :=
  let '(neg, s) :=
    match s with
    | 45%N :: s' => (true, s')
    | _ => (false, s)
    end in
  let '(ip, n, s1) := digits 0 0 s in
  let leading_zero := match s with 48%N :: _ => true | _ => false end in
  if n =? 0 then None
  else
    let '(ip, s1) := if leading_zero then (0, List.tl s) else (ip, s1) in
    let '(fp, fn, s2, has_frac) :=
      match s1 with
      | 46%N :: s' =>
          let '(fp, fn, s'') := digits 0 0 s' in
          if fn =? 0 then (0, 0, s1, false) else (fp, fn, s'', true)
      | _ => (0, 0, s1, false)
      end in
    let '(ex, s3, has_exp) :=
      match s2 with
      | c :: s' =>
          if ((c =? 101) || (c =? 69))%N then
            let '(eneg, s'') :=
              match s' with
              | 45%N :: t => (true, t)
              | 43%N :: t => (false, t)
              | _ => (false, s')
              end in
            let '(ev, en, s''') := digits 0 0 s'' in
            if en =? 0 then (0, s2, false)
            else ((if eneg then - ev else ev), s''', true)
          else (0, s2, false)
      | [] => (0, s2, false)
      end in
    if has_frac || has_exp then
      let x := float_of_decimal (ip * 10 ^ fn + fp) (ex - fn) in
      Some (JFloat (if neg then (- x)%float else x), s3)
    else Some (JInt (if neg then - ip else ip), s3).

Definition hex_value (c : N) : option N :=
  (if (48 <=? c) && (c <=? 57) then Some (c - 48)
   else if (97 <=? c) && (c <=? 102) then Some (c - 87)
   else if (65 <=? c) && (c <=? 70) then Some (c - 55)
   else None)%N.

Definition hex4 (s : str) : option (N * str) :=
  match s with
  | a :: b :: c :: d :: rest =>
      match hex_value a, hex_value b, hex_value c, hex_value d with
      | Some a, Some b, Some c, Some d =>
          Some (((a * 16 + b) * 16 + c) * 16 + d, rest)%N
      | _, _, _, _ => None
      end
  | _ => None
  end.

(** The rest of a string after its opening quote. *)
Fixpoint parse_string (fuel : nat) (s : str) : option (str * str) :=
  match fuel with
  | O => None
  | S fuel' =>
      let next c rest :=
        match parse_string fuel' rest with
        | Some (t, rest') => Some (c :: t, rest')
        | None => None
        end in
      (match s with
       | [] => None
       | 34 :: rest => Some ([], rest)
       | 92 :: e :: rest =>
           if e =? 34 then next 34 rest
           else if e =? 92 then next 92 rest
           else if e =? 47 then next 47 rest
           else if e =? 98 then next 8 rest
           else if e =? 102 then next 12 rest
           else if e =? 110 then next 10 rest
           else if e =? 114 then next 13 rest
           else if e =? 116 then next 9 rest
           else if e =? 117 then
             match hex4 rest with
             | Some (u, rest') =>
                 match rest' with
                 | 92 :: 117 :: rest'' =>
                     match hex4 rest'' with
                     | Some (v, rest''') =>
                         if (0xD800 <=? u) && (u <? 0xDC00)
                            && (0xDC00 <=? v) && (v <? 0xE000)
                         then next (0x10000 + (u - 0xD800) * 1024 + (v - 0xDC00))
                                rest'''
                         else next u rest'
                     | None => next u rest'
                     end
                 | _ => next u rest'
                 end
             | None => None
             end
           else None
       | c :: rest => if c <? 32 then None else next c rest
       end)%N
  end.

Definition expect (word : string) (v : json) (s : str) : option (json * str) :=
  let w := lit word in
  if str_eqb w (firstn (List.length w) s)
  then Some (v, skipn (List.length w) s) else None.

(** A JSON value at the head of [s], with the text that follows it. *)
Fixpoint parse_value (fuel : nat) (s : str) : option (json * str) :=
  match fuel with
  | O => None
  | S fuel' =>
      (match skip_ws s with
       | [] => None
       | 34 :: rest =>
           match parse_string (List.length rest) rest with
           | Some (t, rest') => Some (JString t, rest')
           | None => None
           end
       | 91 :: rest =>
           match skip_ws rest with
           | 93 :: rest' => Some (JArray [], rest')
           | _ =>
               match parse_elements fuel' rest with
               | Some (l, rest') => Some (JArray l, rest')
               | None => None
               end
           end
       | 123 :: rest =>
           match skip_ws rest with
           | 125 :: rest' => Some (JObject [], rest')
           | _ =>
               match parse_members fuel' rest with
               | Some (l, rest') => Some (JObject l, rest')
               | None => None
               end
           end
       | 110 :: _ => expect "null" JNull (skip_ws s)
       | 116 :: _ => expect "true" (JBool true) (skip_ws s)
       | 102 :: _ => expect "false" (JBool false) (skip_ws s)
       | 78 :: _ => expect "NaN" (JFloat nan) (skip_ws s)
       | 73 :: _ => expect "Infinity" (JFloat infinity) (skip_ws s)
       | 45 :: 73 :: _ => expect "-Infinity" (JFloat neg_infinity) (skip_ws s)
       | _ => parse_number (skip_ws s)
       end)%N
  end

(** The elements of an array after its opening bracket, up to and
    including the closing one. *)
with parse_elements (fuel : nat) (s : str) : option (list json * str) :=
  match fuel with
  | O => None
  | S fuel' =>
      match parse_value fuel' s with
      | Some (v, rest) =>
          (match skip_ws rest with
           | 44 :: rest' =>
               match parse_elements fuel' rest' with
               | Some (l, rest'') => Some (v :: l, rest'')
               | None => None
               end
           | 93 :: rest' => Some ([v], rest')
           | _ => None
           end)%N
      | None => None
      end
  end

(** The members of an object after its opening brace. *)
with parse_members (fuel : nat) (s : str) : option (list (str * json) * str) :=
  match fuel with
  | O => None
  | S fuel' =>
      (match skip_ws s with
       | 34 :: rest =>
           match parse_string (List.length rest) rest with
           | Some (key, rest') =>
               match skip_ws rest' with
               | 58 :: rest'' =>
                   match parse_value fuel' rest'' with
                   | Some (v, rest3) =>
                       match skip_ws rest3 with
                       | 44 :: rest4 =>
                           match parse_members fuel' rest4 with
                           | Some (l, rest5) => Some ((key, v) :: l, rest5)
                           | None => None
                           end
                       | 125 :: rest4 => Some ([(key, v)], rest4)
                       | _ => None
                       end
                   | None => None
                   end
               | _ => None
               end
           | None => None
           end
       | _ => None
       end)%N
  end.

(** [json.loads(text)]: one value, with nothing but blanks around it. *)
Definition loads_text (text : str) : option json :=
  match parse_value (2 * List.length text + 2) text with
  | Some (v, rest) => match skip_ws rest with [] => Some v | _ => None end
  | None => None
  end.

(** [obj.get(key)]: a repeated key holds its last value. *)
Fixpoint member (key : str) (l : list (str * json)) : option json :=
  match l with
  | [] => None
  | (k, v) :: l' =>
      match member key l' with
      | Some v' => Some v'
      | None => if str_eqb k key then Some v else None
      end
  end.

Definition posting_of (v : json) : option (str * float) :=
  match v with
  | JArray [JString d; JFloat w] => Some (d, w)
  | JArray [JString d; JInt z] => Some (d, float_of_int z)
  | _ => None
  end.

Fixpoint postings_of (l : list json) : option (list (str * float)) :=
  match l with
  | [] => Some []
  | v :: l' =>
      match posting_of v, postings_of l' with
      | Some p, Some ps => Some (p :: ps)
      | _, _ => None
      end
  end.

(** The posting record held by a JSON object. *)
Definition record_of (v : json) : option posting_record :=
  match v with
  | JObject l =>
      let t := match member (lit "term") l with Some (JString s) => s | _ => [] end in
      let d := match member (lit "df") l with Some (JInt z) => z | _ => 0 end in
      match member (lit "postings") l with
      | None => Some {| term := t; df := d; postings := [] |}
      | Some (JArray ps) =>
          match postings_of ps with
          | Some ps => Some {| term := t; df := d; postings := ps |}
          | None => None
          end
      | Some _ => None
      end
  | _ => None
  end.

Definition loads (data : list byte) : option posting_record :=
  match utf8_decode data with
  | Some text =>
      match loads_text text with
      | Some v => record_of v
      | None => None
      end
  | None => None
  end.

Definition python_json : Json := {| json_dumps := dumps; json_loads := loads |}.

(** ** Text *)

(** [str.lower] on text of the Latin-1 range (the examples stay within it):
    [A-Z] and the accented capitals U+00C0..U+00DE, except the
    multiplication sign U+00D7, move up by 32. *)
Definition latin1_lower (c : N) : N :=
  (if (65 <=? c) && (c <=? 90) then c + 32
   else if (0xC0 <=? c) && (c <=? 0xDE) && negb (c =? 0xD7) then c + 32
   else c)%N.

(** The module without the [unidecode] package: its fallback
    [def unidecode(s): return s]. *)
Definition without_unidecode : TextPreprocessor.Unicode :=
  {| TextPreprocessor.transliterate := fun s => s;
     TextPreprocessor.unicode_lower := List.map latin1_lower |}.

End Reference.


(* ===================================================================== *)
(** * Part IX. Example inputs                                              *)
(* ===================================================================== *)

Module Examples.
Import Py TextPreprocessor IndexFiles MergeBlocks.

#[local] Existing Instances Reference.correctly_rounded Reference.python_json
  Reference.without_unidecode.

(** ** Environments *)

(** Some entries of NLTK's Spanish stopword list, standing for the list. *)
Definition spanish_stopwords : list str :=
  List.map lit
    ["de"; "la"; "que"; "el"; "en"; "y"; "a"; "los"; "del"; "se"; "las";
     "por"; "un"; "para"; "con"; "no"; "una"; "su"; "al"; "lo"]%string.

(** The stems that the Snowball stemmer for Spanish gives to the words of
    the examples; any other word is left as it is. *)
Definition snowball_stems : dict str str :=
  [(lit "gato", lit "gat"); (lit "come", lit "com"); (lit "perro", lit "perr");
   (lit "pescado", lit "pesc"); (lit "carne", lit "carn");
   (lit "duerme", lit "duerm")].

Definition example_stem (w : str) : str := dict_get_default w w snowball_stems.

(** NLTK installed with its stopword corpus, and no custom word list. *)
Definition with_nltk : environment :=
  {| custom_file := None;
     nltk := Some {| snowball := Ok example_stem;
                     stopwords_words := Found spanish_stopwords;
                     download_then_words := Ok spanish_stopwords |} |}.

(** Neither NLTK nor a custom word list. *)
Definition bare : environment := {| custom_file := None; nltk := None |}.

(** NLTK installed, no custom word list, and a stopword corpus whose
    lookup raises an [OSError] (an unreadable file, say). *)
Definition unreadable_corpus : environment :=
  {| custom_file := None;
     nltk := Some {| snowball := Ok example_stem;
                     stopwords_words := RaisesOther;
                     download_then_words := Raise LookupError |} |}.

(** ** Corpora *)

(** The blocks directory built from a corpus, and the index merged from
    it (empty when a step raises). *)
Definition blocks_of (corpus : list (str * option str)) (block_doc_limit : Z)
    : directory :=
  match SPIMI.build_from_documents with_nltk initial corpus block_doc_limit with
  | (Ok dir, _) => dir
  | (Raise _, _) => []
  end.

Definition empty_output : merge_output :=
  {| out_index := {| inverted := []; vocab := []; doc_norms := [] |};
     out_N := 0 |}.

Definition merged_of (dir : directory) : merge_output :=
  match merge_blocks dir with
  | Ok out => out
  | Raise _ => empty_output
  end.

(** Three documents about pets. *)
Definition pets : list (str * option str) :=
  [(lit "1", Some (lit "el gato come pescado"));
   (lit "2", Some (lit "el perro come carne"));
   (lit "3", Some (lit "El gato duerme."))].

Definition pets_blocks : directory := Eval vm_compute in blocks_of pets 1000.

Definition pets_merged : merge_output := Eval vm_compute in merged_of pets_blocks.

(** The same index after damage to the dictionary: the entry of "gat"
    points one byte too far, into the middle of two records. *)
Definition pets_damaged : index :=
  {| inverted := inverted (out_index pets_merged);
     vocab :=
       dict_set (lit "gat")
         {| meta_df := 2; meta_offset := 233; meta_length := 95 |}
         (vocab (out_index pets_merged));
     doc_norms := doc_norms (out_index pets_merged) |}.

(** Two documents that share the word "come". *)
Definition meals : list (str * option str) :=
  [(lit "1", Some (lit "el gato come")); (lit "2", Some (lit "el perro come"))].

Definition meals_blocks : directory := Eval vm_compute in blocks_of meals 1000.

Definition meals_merged : merge_output :=
  Eval vm_compute in merged_of meals_blocks.

(** Eleven documents, numbered from 0 to 10, indexed one per block. *)
Definition eleven : list (str * option str) :=
  List.map (fun i => (str_of_int i, Some (lit "gato")))
    [0; 1; 2; 3; 4; 5; 6; 7; 8; 9; 10].

Definition eleven_blocks : directory := Eval vm_compute in blocks_of eleven 1.

Definition eleven_merged : merge_output :=
  Eval vm_compute in merged_of eleven_blocks.

(** ** More environments *)

(** A custom word list next to the module, and no NLTK. *)
Definition custom_only : environment :=
  {| custom_file := Some (Some [lit "el"; lit "la"; lit "# comentario"; lit "Y"]);
     nltk := None |}.


(** ** Reading results *)

Definition no_result : QueryEngine.query_result :=
  {| QueryEngine.results := []; QueryEngine.bytes_read := 0 |}.

(** [QueryEngine.query] in the environment with NLTK, from the initial
    globals, with the reference platform. *)
Definition run_query (idx : index) (qtext : string) (k : Z)
    : result QueryEngine.query_result * globals :=
  QueryEngine.query with_nltk initial idx (Some (lit qtext)) k.

Definition result_of (q : result QueryEngine.query_result * globals)
    : QueryEngine.query_result :=
  match fst q with
  | Ok r => r
  | Raise _ => no_result
  end.

(** The same with the tabulated logarithm. *)
Definition quick_query (idx : index) (qtext : string) (k : Z)
    : result QueryEngine.query_result * globals :=
  QueryEngine.query (libm := Reference.tabulated) with_nltk initial idx
    (Some (lit qtext)) k.

End Examples.


(* ===================================================================== *)
(** * Part X. Properties of the text pipeline                           *)
(* ===================================================================== *)

Module TextFacts.
Import Py TextPreprocessor.

Section Normalize.
Context {unicode : Unicode}.

(** *** Character classes *)

Lemma lower_alnum_not_space c : is_lower_alnum c = true -> is_space c = false.
Proof.
  unfold is_lower_alnum, is_space. intros Hc.
  repeat (rewrite ?andb_true_iff, ?orb_true_iff, ?N.leb_le in Hc).
  repeat (rewrite ?andb_false_iff, ?orb_false_iff, ?N.leb_gt, ?N.eqb_neq).
  lia.
Qed.

Lemma lower_alnum_ascii c : is_lower_alnum c = true -> is_ascii c = true.
Proof.
  unfold is_lower_alnum, is_ascii. intros Hc.
  repeat (rewrite ?andb_true_iff, ?orb_true_iff, ?N.leb_le in Hc).
  apply N.ltb_lt. lia.
Qed.

Lemma lower_alnum_lower c : is_lower_alnum c = true -> ascii_lower c = c.
Proof.
  unfold is_lower_alnum, ascii_lower. intros Hc.
  repeat (rewrite ?andb_true_iff, ?orb_true_iff, ?N.leb_le in Hc).
  destruct ((65 <=? c)%N && (c <=? 90)%N) eqn:E; [|done].
  rewrite andb_true_iff, !N.leb_le in E. lia.
Qed.

Lemma lower_alnum_not_blank c : is_lower_alnum c = true -> (c =? space)%N = false.
Proof.
  unfold is_lower_alnum, space. intros Hc.
  repeat (rewrite ?andb_true_iff, ?orb_true_iff, ?N.leb_le in Hc).
  apply N.eqb_neq. lia.
Qed.


Lemma sub_non_alnum_chars s : forallb alnum_or_space (sub_non_alnum s) = true.
Proof.
  induction s as [|c s IH]; [done|]. cbn [sub_non_alnum List.map forallb].
  fold (sub_non_alnum s). rewrite IH, andb_true_r. unfold alnum_or_space.
  destruct (is_lower_alnum c || is_space c) eqn:E; [done|].
  apply orb_true_r.
Qed.

Lemma sub_spaces_spaced b s :
  forallb alnum_or_space s = true -> spaced b (sub_spaces_from b s) = true.
Proof.
  revert b. induction s as [|c s IH]; intros b Hs; [done|].
  cbn [forallb] in Hs. apply andb_true_iff in Hs as [Hc Hs].
  cbn [sub_spaces_from]. destruct (is_space c) eqn:Esp.
  - destruct b; [by apply IH|]. cbn [spaced]. rewrite N.eqb_refl. by apply IH.
  - unfold alnum_or_space in Hc. rewrite Esp, orb_false_r in Hc.
    cbn [spaced]. rewrite (lower_alnum_not_blank _ Hc), Hc. by apply IH.
Qed.

Lemma spaced_lstrip b s : spaced b s = true -> spaced true (lstrip s) = true.
Proof.
  destruct s as [|c s]; [done|]. cbn [spaced lstrip].
  destruct (c =? space)%N eqn:Ec.
  - apply N.eqb_eq in Ec as ->. intros [_ Hs]%andb_true_iff. cbn.
    destruct s as [|d s]; [done|]. cbn [spaced] in Hs. cbn [lstrip].
    destruct (d =? space)%N eqn:Ed; [done|].
    apply andb_true_iff in Hs as [Hd Hs].
    rewrite (lower_alnum_not_space _ Hd). cbn [spaced]. by rewrite Ed, Hd, Hs.
  - intros [Hc Hs]%andb_true_iff. rewrite (lower_alnum_not_space _ Hc).
    cbn [spaced]. by rewrite Ec, Hc, Hs.
Qed.

Lemma words_from_cons b c s :
  words_from b (c :: s) =
  if (c =? space)%N then negb b && words_from true s
  else is_lower_alnum c && words_from false s.
Proof. done. Qed.

Lemma spaced_rstrip b s :
  spaced b s = true -> rstrip s = [] \/ words_from b (rstrip s) = true.
Proof.
  revert b. induction s as [|c s IH]; intros b Hs; [by left|].
  cbn [spaced] in Hs. cbn [rstrip]. destruct (c =? space)%N eqn:Ec.
  - apply N.eqb_eq in Ec as ->. apply andb_true_iff in Hs as [Hb Hs].
    destruct (IH _ Hs) as [-> | Hw]; [by left|].
    destruct (rstrip s) as [|d r] eqn:Er; [done|]. right.
    rewrite words_from_cons. change (space =? space)%N with true. cbn iota.
    by rewrite Hb, Hw.
  - apply andb_true_iff in Hs as [Hc Hs]. right.
    destruct (IH _ Hs) as [-> | Hw].
    + rewrite (lower_alnum_not_space _ Hc). cbn. by rewrite Ec, Hc.
    + destruct (rstrip s) as [|d r] eqn:Er.
      * rewrite (lower_alnum_not_space _ Hc). cbn. by rewrite Ec, Hc.
      * rewrite words_from_cons. by rewrite Ec, Hc, Hw.
Qed.

(** The output of [normalize_text] has the normal form. *)
Lemma normalize_text_normal t : normal_form (normalize_text t) = true.
Proof.
  destruct t as [t|]; [|done]. unfold normalize_text, strip, sub_spaces.
  set (s := sub_spaces_from _ _).
  assert (Hs : spaced true (lstrip s) = true).
  { apply (spaced_lstrip false). apply sub_spaces_spaced, sub_non_alnum_chars. }
  destruct (spaced_rstrip _ _ Hs) as [-> | Hw]; [done|].
  unfold normal_form. by destruct (rstrip (lstrip s)).
Qed.

(** *** A text in normal form is left alone *)

Lemma words_chars b s :
  words_from b s = true ->
  Forall (fun c => c = space \/ is_lower_alnum c = true) s.
Proof.
  revert b. induction s as [|c s IH]; intros b Hs; [constructor|].
  cbn [words_from] in Hs. destruct (c =? space)%N eqn:Ec.
  - apply N.eqb_eq in Ec. apply andb_true_iff in Hs as [_ Hs].
    constructor; [by left | by eapply IH].
  - apply andb_true_iff in Hs as [Hc Hs].
    constructor; [by right | by eapply IH].
Qed.

Lemma chars_ascii s :
  Forall (fun c => c = space \/ is_lower_alnum c = true) s ->
  forallb is_ascii s = true.
Proof.
  induction 1 as [|c s Hc _ IH]; [done|]. cbn [forallb]. rewrite IH, andb_true_r.
  destruct Hc as [-> | Hc]; [done | by apply lower_alnum_ascii].
Qed.

Lemma chars_lower s :
  Forall (fun c => c = space \/ is_lower_alnum c = true) s ->
  List.map ascii_lower s = s.
Proof.
  induction 1 as [|c s Hc _ IH]; [done|]. cbn [List.map]. rewrite IH. f_equal.
  destruct Hc as [-> | Hc]; [done | by apply lower_alnum_lower].
Qed.

Lemma chars_sub_non_alnum s :
  Forall (fun c => c = space \/ is_lower_alnum c = true) s ->
  sub_non_alnum s = s.
Proof.
  induction 1 as [|c s Hc _ IH]; [done|]. unfold sub_non_alnum in *.
  cbn [List.map]. rewrite IH. f_equal.
  destruct Hc as [-> | Hc]; [done | by rewrite Hc].
Qed.

Lemma words_sub_spaces b s :
  words_from b s = true -> sub_spaces_from b s = s.
Proof.
  revert b. induction s as [|c s IH]; intros b Hs; [done|].
  cbn [words_from] in Hs. cbn [sub_spaces_from]. destruct (c =? space)%N eqn:Ec.
  - apply N.eqb_eq in Ec as ->. apply andb_true_iff in Hs as [Hb Hs].
    change (is_space space) with true. cbn iota. destruct b; [done|].
    by rewrite (IH _ Hs).
  - apply andb_true_iff in Hs as [Hc Hs].
    rewrite (lower_alnum_not_space _ Hc). by rewrite (IH _ Hs).
Qed.

Lemma words_lstrip s : words_from true s = true -> lstrip s = s.
Proof.
  destruct s as [|c s]; [done|]. cbn [words_from lstrip].
  destruct (c =? space)%N; [done|]. intros [Hc _]%andb_true_iff.
  by rewrite (lower_alnum_not_space _ Hc).
Qed.

Lemma words_rstrip b s : words_from b s = true -> rstrip s = s.
Proof.
  revert b. induction s as [|c s IH]; intros b Hs; [done|].
  cbn [words_from] in Hs. cbn [rstrip].
  assert (exists b', words_from b' s = true /\
                     (s = [] -> is_space c = false)) as (b' & Hs' & Hc).
  { destruct (c =? space)%N.
    - apply andb_true_iff in Hs as [_ Hs]. exists true. split; [done|].
      by intros ->.
    - apply andb_true_iff in Hs as [Hc Hs]. exists false. split; [done|].
      intros _. by apply lower_alnum_not_space. }
  rewrite (IH _ Hs'). destruct s; [by rewrite Hc | done].
Qed.

Lemma normal_form_fixed s :
  normal_form s = true -> normalize_text (Some s) = s.
Proof.
  destruct s as [|c s]; [done|]. unfold normal_form. intros Hw.
  pose proof (words_chars _ _ Hw) as Hch.
  unfold normalize_text, unidecode. rewrite (chars_ascii _ Hch).
  unfold lower. rewrite (chars_ascii _ Hch), (chars_lower _ Hch).
  rewrite (chars_sub_non_alnum _ Hch). unfold sub_spaces, strip.
  assert (Hsub : sub_spaces_from false (c :: s) = c :: s).
  { revert Hw. cbn [words_from sub_spaces_from].
    destruct (c =? space)%N; [done|]. intros [Hc Hs]%andb_true_iff.
    rewrite (lower_alnum_not_space _ Hc). by rewrite (words_sub_spaces _ _ Hs). }
  rewrite Hsub, (words_lstrip _ Hw). by apply (words_rstrip true).
Qed.

End Normalize.

(** C10. [normalize_text] is idempotent: normalising an already normalised
    text returns it unchanged, because the output of [normalize_text]
    consists of lowercase ASCII letters and digits in words separated by
    single spaces, with no whitespace at either end. *)
Theorem normalize_text_idempotent {unicode : Unicode} (t : option str) :
  normalize_text (Some (normalize_text t)) = normalize_text t
  /\ normal_form (normalize_text t) = true.
Proof.
  split; [|apply normalize_text_normal].
  apply normal_form_fixed, normalize_text_normal.
Qed.

(** *** Initialisation of the stopword set *)

Lemma filter_no_stopwords (tokens : list str) :
  List.filter (fun t => negb (bool_decide (t ∈ ([] : list str)))) tokens
  = tokens.
Proof.
  induction tokens as [|t ts IH]; [done|]. cbn [List.filter].
  rewrite bool_decide_eq_false_2 by apply not_elem_of_nil. cbn. by rewrite IH.
Qed.


(** C1, as stated, fails: with no custom word list and an NLTK stopword
    corpus whose lookup raises an exception other than [LookupError],
    neither source can be loaded, yet [remove_stopwords] returns normally,
    with every token kept and an empty stopword set installed. *)
Lemma empty_stopwords_fallback :
  custom_loadable Examples.unreadable_corpus = false
  /\ nltk_loadable Examples.unreadable_corpus = false
  /\ fst (remove_stopwords (unicode := Reference.without_unidecode)
            Examples.unreadable_corpus initial [lit "el"; lit "gato"])
     = Ok [lit "el"; lit "gato"]
  /\ _stopwords
       (snd (remove_stopwords (unicode := Reference.without_unidecode)
               Examples.unreadable_corpus initial [lit "el"; lit "gato"]))
     = Some [].
Proof. repeat split. Qed.

(** C1, amended.  When neither the custom word list nor the NLTK stopword
    resource can be loaded, the first initialisation (from the initial
    globals) raises, and so do [remove_stopwords], [stem_tokens] and
    [preprocess] on a text with tokens, except when NLTK is imported, its
    stemmer is constructed and the stopword lookup raises an exception other
    than [LookupError]: then the stopword set becomes empty and
    [remove_stopwords] returns its argument. *)
Theorem stopwords_unavailable {unicode : Unicode} (env : environment) :
  custom_loadable env = false ->
  nltk_loadable env = false ->
  if reaches_empty_fallback env then
    exists g, _ensure_nltk_resources env initial = (Ok tt, g)
              /\ _stopwords g = Some []
              /\ forall tokens, remove_stopwords env initial tokens = (Ok tokens, g)
  else
    exists e g, _ensure_nltk_resources env initial = (Raise e, g)
                /\ _stopwords g = None
                /\ (forall tokens,
                      fst (remove_stopwords env initial tokens) = Raise e
                      /\ fst (stem_tokens env initial tokens) = Raise e)
                /\ (forall text, tokenize text <> [] ->
                      fst (preprocess env initial text) = Raise e).
Proof.
  intros Hc Hn.
  assert (Hens : _ensure_nltk_resources env initial
                 = ensure_from_nltk env initial).
  { unfold _ensure_nltk_resources, custom_loadable in *. cbn.
    by destruct (custom_file env) as [[?|]|]. }
  unfold reaches_empty_fallback, nltk_loadable in *.
  unfold remove_stopwords, stem_tokens, preprocess, remove_stopwords.
  rewrite Hens. unfold ensure_from_nltk.
  destruct (nltk env) as [pkg|]; cbn.
  - destruct (snowball pkg) as [st|e]; cbn.
    + destruct (stopwords_words pkg); cbn; [done| |].
      * destruct (download_then_words pkg) as [?|e]; [done|]. cbn.
        exists e. eexists. repeat split; try done.
        intros text Ht. by destruct (tokenize text).
      * eexists. repeat split. intros tokens. cbn.
        by rewrite filter_no_stopwords.
    + exists e. eexists. repeat split; try done.
      intros text Ht. by destruct (tokenize text).
  - exists RuntimeError. eexists. repeat split; try done.
    intros text Ht. by destruct (tokenize text).
Qed.

Section OnExamples.
#[local] Existing Instance Reference.without_unidecode.

(** The amended C1 at work: without NLTK and without a custom word list,
    the first initialisation raises [RuntimeError] and installs nothing. *)
Lemma stopwords_unavailable_bare :
  exists e g,
    _ensure_nltk_resources Examples.bare initial = (Raise e, g)
    /\ _stopwords g = None
    /\ (forall tokens,
          fst (remove_stopwords Examples.bare initial tokens) = Raise e
          /\ fst (stem_tokens Examples.bare initial tokens) = Raise e)
    /\ (forall text, tokenize text <> [] ->
          fst (preprocess Examples.bare initial text) = Raise e).
Proof.
  exact (stopwords_unavailable Examples.bare eq_refl eq_refl).
Defined.

End OnExamples.

End TextFacts.


(* ===================================================================== *)
(** * Part XI. Properties of the runtime fragment                          *)
(* ===================================================================== *)

Module PyFacts.
Import Py.

(** ** String order *)

Lemma str_compare_refl a : str_compare a a = Eq.
Proof. induction a as [|x a IH]; [done|]. cbn. by rewrite N.compare_refl. Qed.

Lemma str_compare_eq a b : str_compare a b = Eq -> a = b.
Proof.
  revert b. induction a as [|x a IH]; intros [|y b]; cbn; try done.
  destruct (N.compare_spec x y) as [->| |]; try done.
  intros Hab. by rewrite (IH _ Hab).
Qed.

Lemma str_compare_antisym a b : str_compare b a = CompOpp (str_compare a b).
Proof.
  revert b. induction a as [|x a IH]; intros [|y b]; cbn; try done.
  rewrite (N.compare_antisym x y).
  destruct (N.compare x y) eqn:E; cbn; [apply IH|done|done].
Qed.

Lemma str_compare_lt_trans a b c :
  str_compare a b = Lt -> str_compare b c = Lt -> str_compare a c = Lt.
Proof.
  revert b c. induction a as [|x a IH]; intros [|y b] [|z c]; cbn; try done.
  destruct (N.compare_spec x y) as [->|Hxy|Hxy]; try done.
  - destruct (N.compare_spec y z) as [->|Hyz|Hyz]; try done. apply IH.
  - intros _. destruct (N.compare_spec y z) as [->|Hyz|Hyz]; try done.
    + intros _. by rewrite (proj2 (N.compare_lt_iff x z)).
    + intros _. rewrite (proj2 (N.compare_lt_iff x z)); [done|lia].
Qed.

Lemma str_lt_irrefl a : str_lt a a = false.
Proof. unfold str_lt. by rewrite str_compare_refl. Qed.

Lemma str_lt_asym a b : str_lt a b = true -> str_lt b a = false.
Proof.
  unfold str_lt. rewrite (str_compare_antisym a b).
  by destruct (str_compare a b).
Qed.

Lemma str_lt_trans a b c :
  str_lt a b = true -> str_lt b c = true -> str_lt a c = true.
Proof.
  unfold str_lt. intros Hab Hbc.
  destruct (str_compare a b) eqn:E1; try done.
  destruct (str_compare b c) eqn:E2; try done.
  by rewrite (str_compare_lt_trans _ _ _ E1 E2).
Qed.

Lemma str_lt_total a b : str_lt a b = true \/ a = b \/ str_lt b a = true.
Proof.
  unfold str_lt. rewrite (str_compare_antisym a b).
  destruct (str_compare a b) eqn:E; cbn; auto.
  right; left. by apply str_compare_eq.
Qed.

#[global] Instance str_lt_strict : StrictOrder (fun a b => str_lt a b = true).
Proof.
  split.
  - intros a Ha. by rewrite str_lt_irrefl in Ha.
  - intros a b c. apply str_lt_trans.
Qed.

(** ** [sorted] *)

Section Sorted.
Context {A : Type} (lt : A -> A -> bool).

Lemma insort_Permutation x l : insort lt x l ≡ₚ x :: l.
Proof.
  induction l as [|y l IH]; [done|]. cbn. destruct (lt y x); [|done].
  rewrite IH. apply perm_swap.
Qed.

Lemma sorted_Permutation l : sorted lt l ≡ₚ l.
Proof.
  induction l as [|x l IH]; [done|]. cbn. fold (sorted lt l).
  by rewrite insort_Permutation, IH.
Qed.

Lemma sorted_length l : List.length (sorted lt l) = List.length l.
Proof. apply Permutation_length, sorted_Permutation. Qed.

(** The result is ordered by "not greater than" whenever [lt] is
    asymmetric. *)
Hypothesis lt_asym : forall a b, lt a b = true -> lt b a = false.

Lemma insort_Sorted x l :
  Sorted (not_gt lt) l -> Sorted (not_gt lt) (insort lt x l).
Proof.
  induction 1 as [|y l Hl IH Hy]; [repeat constructor|].
  cbn. destruct (lt y x) eqn:E.
  - constructor; [done|]. destruct l as [|z l]; cbn in *.
    + constructor. by apply lt_asym.
    + destruct (lt z x); constructor.
      * by inversion Hy.
      * by apply lt_asym.
  - constructor; [by constructor|]. by constructor.
Qed.

Lemma sorted_Sorted l : Sorted (not_gt lt) (sorted lt l).
Proof.
  induction l as [|x l IH]; [constructor|]. by apply insort_Sorted.
Qed.

End Sorted.

(** Sorting by a string key without repeated keys gives strictly increasing
    keys, and the order of the argument does not matter. *)
Lemma key_lt_asym {A} (key : A -> str) a b :
  key_lt key a b = true -> key_lt key b a = false.
Proof. apply str_lt_asym. Qed.

#[global] Instance key_lt_trans {A} (key : A -> str) :
  Transitive (fun a b => key_lt key a b = true).
Proof. intros a b c. apply str_lt_trans. Qed.

Lemma sorted_key_strict {A} (key : A -> str) (l : list A) :
  NoDup (List.map key l) ->
  Sorted (fun a b => key_lt key a b = true) (sorted (key_lt key) l).
Proof.
  intros Hnd. pose proof (sorted_Sorted _ (key_lt_asym key) l) as Hs.
  assert (Hnd' : NoDup (List.map key (sorted (key_lt key) l))).
  { by rewrite (Permutation_map key (sorted_Permutation (key_lt key) l)). }
  induction Hs as [|x k Hk IH Hx]; [constructor|]. cbn in Hnd'.
  apply NoDup_cons in Hnd' as [Hnotin Hnd']. constructor; [by apply IH|].
  destruct Hx as [|y k Hxy]; constructor. unfold not_gt, key_lt in *.
  destruct (str_lt_total (key x) (key y)) as [?|[Heq|Hyx]]; [done| |congruence].
  exfalso. apply Hnotin. rewrite Heq. by left.
Qed.

Lemma sorted_key_Permutation {A} (key : A -> str) (l1 l2 : list A) :
  NoDup (List.map key l1) -> l1 ≡ₚ l2 ->
  sorted (key_lt key) l1 = sorted (key_lt key) l2.
Proof.
  intros Hnd Hp.
  apply (Sorted_unique_strong (fun a b => key_lt key a b = true)).
  - intros a b _ _ Hab Hba. by rewrite (key_lt_asym _ _ _ Hab) in Hba.
  - by apply sorted_key_strict.
  - apply sorted_key_strict. by rewrite <- (Permutation_map key Hp).
  - by rewrite !sorted_Permutation.
Qed.

Lemma sorted_str_strict (l : list str) :
  NoDup l -> Sorted (fun a b => str_lt a b = true) (sorted str_lt l).
Proof.
  intros Hnd. apply (sorted_key_strict (fun t => t)). by rewrite List.map_id.
Qed.

(** ** [filter] *)

Lemma filter_Permutation {A} (f : A -> bool) (l1 l2 : list A) :
  l1 ≡ₚ l2 -> List.filter f l1 ≡ₚ List.filter f l2.
Proof.
  induction 1 as [|x l1 l2 _ IH|x y l|l1 l2 l3 _ IH1 _ IH2]; cbn.
  - done.
  - destruct (f x); by rewrite IH.
  - destruct (f x), (f y); try done. apply perm_swap.
  - by rewrite IH1.
Qed.

Lemma filter_length_Permutation {A} (f : A -> bool) (l1 l2 : list A) :
  l1 ≡ₚ l2 ->
  List.length (List.filter f l1) = List.length (List.filter f l2).
Proof. intros Hp. apply Permutation_length. by apply filter_Permutation. Qed.

Lemma sum_Permutation (l1 l2 : list Z) :
  l1 ≡ₚ l2 -> foldr Z.add 0 l1 = foldr Z.add 0 l2.
Proof. induction 1; cbn; lia. Qed.

Lemma sum_app (l1 l2 : list Z) :
  foldr Z.add 0 (l1 ++ l2) = foldr Z.add 0 l1 + foldr Z.add 0 l2.
Proof. induction l1 as [|x l1 IH]; cbn; lia. Qed.

Lemma submseteq_NoDup {A} (l k : list A) : l ⊆+ k -> NoDup k -> NoDup l.
Proof.
  intros (k' & Hsub & Hp)%submseteq_sublist_l Hk. rewrite <- Hp in Hk.
  by eapply sublist_NoDup.
Qed.

(** ** Dictionaries *)

Section DictFacts.
Context {K : Type} `{EqDecision K} {V : Type}.
Implicit Types (d : dict K V) (k : K) (v : V).

Lemma dict_get_None k d : dict_get k d = None <-> k ∉ keys d.
Proof.
  induction d as [|[k' v'] d IH]; cbn.
  - split; [intros _; apply not_elem_of_nil | done].
  - rewrite not_elem_of_cons. destruct (decide (k = k')); [|tauto].
    split; [done | tauto].
Qed.

Lemma dict_get_Some k v d : dict_get k d = Some v -> (k, v) ∈ d.
Proof.
  induction d as [|[k' v'] d IH]; cbn; [done|].
  destruct (decide (k = k')) as [->|].
  - intros [= ->]. by left.
  - intros Hd. right. by apply IH.
Qed.

Lemma dict_get_elem k v d : NoDup (keys d) -> (k, v) ∈ d -> dict_get k d = Some v.
Proof.
  induction d as [|[k' v'] d IH]; cbn; [by intros _ ?%elem_of_nil|].
  intros [Hk' Hd]%NoDup_cons [[= -> ->]|Hin]%elem_of_cons.
  - by rewrite decide_True.
  - rewrite decide_False; [by apply IH|]. intros ->. apply Hk'.
    apply list_elem_of_fmap. by exists (k', v).
Qed.

Lemma dict_get_is_Some k d : is_Some (dict_get k d) <-> k ∈ keys d.
Proof.
  rewrite <- not_eq_None_Some, dict_get_None.
  destruct (decide (k ∈ keys d)); tauto.
Qed.

Lemma keys_dict_set k v d :
  keys (dict_set k v d) = if decide (k ∈ keys d) then keys d else keys d ++ [k].
Proof.
  induction d as [|[k' v'] d IH]; cbn.
  - rewrite decide_False; [done | apply not_elem_of_nil].
  - destruct (decide (k = k')) as [->|Hne]; cbn.
    + rewrite decide_True; [done | by left].
    + fold (keys d). fold (keys (dict_set k v d)). rewrite IH.
      destruct (decide (k ∈ keys d)) as [Hin|Hnin].
      * rewrite decide_True; [done | by right].
      * rewrite decide_False; [done|]. rewrite not_elem_of_cons. tauto.
Qed.

Lemma NoDup_keys_dict_set k v d : NoDup (keys d) -> NoDup (keys (dict_set k v d)).
Proof.
  intros Hd. rewrite keys_dict_set. destruct (decide (k ∈ keys d)); [done|].
  apply NoDup_app. split_and!; [done | | apply NoDup_singleton].
  intros x Hx ->%list_elem_of_singleton. done.
Qed.

Lemma elem_of_keys_dict_set k k' v d :
  k' ∈ keys (dict_set k v d) <-> k' = k \/ k' ∈ keys d.
Proof.
  rewrite keys_dict_set. destruct (decide (k ∈ keys d)) as [Hin|Hnin].
  - split; [tauto | intros [->|?]; done].
  - rewrite elem_of_app, list_elem_of_singleton. tauto.
Qed.

Lemma dict_get_set_eq k v d : dict_get k (dict_set k v d) = Some v.
Proof.
  induction d as [|[k' v'] d IH]; cbn; [by rewrite decide_True|].
  destruct (decide (k = k')) as [->|Hne]; cbn.
  - by rewrite decide_True.
  - by rewrite decide_False.
Qed.

Lemma dict_get_set_ne k k' v d :
  k <> k' -> dict_get k' (dict_set k v d) = dict_get k' d.
Proof.
  intros Hne. induction d as [|[k0 v0] d IH]; cbn.
  - by rewrite decide_False.
  - destruct (decide (k = k0)) as [->|Hne0]; cbn.
    + by rewrite !decide_False.
    + destruct (decide (k' = k0)); [done | apply IH].
Qed.

End DictFacts.

End PyFacts.


(* ===================================================================== *)
(** * Part XII. Properties of [heapq]                                        *)
(* ===================================================================== *)

Module HeapqFacts.
Import Py Heapq.

Section HeapFacts.
Context {A : Type} (lt : A -> A -> bool).
Implicit Types (heap : list A) (x a : A).

(** *** Overwriting one slot, up to permutation *)

Lemma insert_take_out heap i a x :
  heap !! i = Some a -> a :: <[i := x]> heap ≡ₚ x :: heap.
Proof.
  revert i. induction heap as [|b heap IH]; intros [|i]; cbn; try done.
  - intros [= ->]. apply perm_swap.
  - intros Hi. rewrite perm_swap. rewrite (IH _ Hi). apply perm_swap.
Qed.

(** Moving the content of slot [i] to slot [j] and putting [x] in slot [i]
    holds the same items as putting [x] in slot [j]. *)
Lemma insert_move heap i j a x :
  i <> j -> heap !! i = Some a -> (j < List.length heap)%nat ->
  <[i := x]> (<[j := a]> heap) ≡ₚ <[j := x]> heap.
Proof.
  intros Hij Hi Hj.
  destruct (lookup_lt_is_Some_2 heap j Hj) as [b Hb].
  assert (H1 : a :: <[i := x]> (<[j := a]> heap) ≡ₚ x :: <[j := a]> heap).
  { apply insert_take_out. by rewrite list_lookup_insert_ne. }
  pose proof (insert_take_out heap j b a Hb) as H2.
  pose proof (insert_take_out heap j b x Hb) as H3.
  apply (Permutation_cons_inv (a := b)). apply (Permutation_cons_inv (a := a)).
  trans (x :: a :: heap).
  - rewrite (perm_swap b a (<[i := x]> (<[j := a]> heap))), H1.
    rewrite (perm_swap x b (<[j := a]> heap)), H2. done.
  - rewrite H3. apply perm_swap.
Qed.

(** *** [_siftdown] *)

Lemma siftdown_loop_Permutation n heap startpos pos x :
  (pos < List.length heap)%nat ->
  siftdown_loop lt n heap startpos pos x ≡ₚ <[pos := x]> heap.
Proof.
  revert heap pos. induction n as [|n IH]; intros heap pos Hpos; [done|].
  cbn [siftdown_loop]. case_bool_decide as Hlt; [|done].
  destruct (heap !! ((pos - 1) / 2)%nat) as [parent|] eqn:Hp; [|done].
  destruct (lt x parent); [|done].
  assert (Hpar : ((pos - 1) / 2 < pos)%nat).
  { apply Nat.le_lt_trans with (pos - 1)%nat; [|lia].
    apply Nat.Div0.div_le_upper_bound. lia. }
  rewrite IH by (rewrite length_insert; lia).
  apply insert_move; [lia | done | done].
Qed.

Lemma siftdown_Permutation heap startpos pos :
  _siftdown lt heap startpos pos ≡ₚ heap.
Proof.
  unfold _siftdown. destruct (heap !! pos) as [x|] eqn:Hx; [|done].
  rewrite siftdown_loop_Permutation by by eapply lookup_lt_Some.
  by rewrite list_insert_id.
Qed.

(** The bound [pos] on the iterations is never the reason the loop stops:
    any larger bound gives the same heap. *)
Lemma siftdown_loop_bound n m heap startpos pos x :
  (pos <= n)%nat -> (pos <= m)%nat ->
  siftdown_loop lt n heap startpos pos x = siftdown_loop lt m heap startpos pos x.
Proof.
  revert m heap pos. induction n as [|n IH]; intros m heap pos Hn Hm.
  - assert (pos = 0)%nat as -> by lia. destruct m; [done|]. cbn.
    by rewrite bool_decide_eq_false_2 by lia.
  - destruct m as [|m].
    + assert (pos = 0)%nat as -> by lia. cbn.
      by rewrite bool_decide_eq_false_2 by lia.
    + cbn [siftdown_loop]. case_bool_decide as Hlt; [|done].
      destruct (heap !! ((pos - 1) / 2)%nat) as [parent|]; [|done].
      destruct (lt x parent); [|done].
      assert (((pos - 1) / 2 <= pos - 1)%nat)
        by (apply Nat.Div0.div_le_upper_bound; lia).
      apply IH; lia.
Qed.

(** *** [_siftup] *)

Lemma siftup_loop_Permutation n heap endpos pos x :
  (pos < List.length heap)%nat ->
  let '(heap', leaf) := siftup_loop lt n heap endpos pos in
  <[leaf := x]> heap' ≡ₚ <[pos := x]> heap
  /\ (leaf < List.length heap')%nat.
Proof.
  revert heap pos. induction n as [|n IH]; intros heap pos Hpos; [done|].
  cbn [siftup_loop]. case_bool_decide as Hlt; [|done].
  set (child := match heap !! (2 * pos + 1)%nat with
                | Some c => _ | None => _ end).
  assert (Hchild : (pos < child)%nat).
  { subst child. destruct (heap !! (2 * pos + 1)%nat); [|lia].
    destruct (heap !! (2 * pos + 1 + 1)%nat); [|lia].
    destruct (_ && _); lia. }
  destruct (heap !! child) as [c|] eqn:Hc; [|done].
  specialize (IH (<[pos := c]> heap) child).
  destruct (siftup_loop lt n (<[pos:=c]> heap) endpos child) as [heap' leaf].
  destruct IH as [IH Hleaf].
  { rewrite length_insert. by eapply lookup_lt_Some. }
  split; [|done]. rewrite IH. apply insert_move; [lia | done | done].
Qed.

Lemma siftup_Permutation heap pos : _siftup lt heap pos ≡ₚ heap.
Proof.
  unfold _siftup. destruct (heap !! pos) as [x|] eqn:Hx; [|done].
  pose proof (siftup_loop_Permutation (List.length heap) heap
                (List.length heap) pos x (lookup_lt_Some _ _ _ Hx)) as Hl.
  destruct (siftup_loop lt _ heap _ pos) as [heap' leaf].
  destruct Hl as [Hl _]. rewrite siftdown_Permutation, Hl.
  by rewrite list_insert_id.
Qed.

Lemma siftup_loop_bound n m heap endpos pos :
  (endpos - pos <= n)%nat -> (endpos - pos <= m)%nat ->
  siftup_loop lt n heap endpos pos = siftup_loop lt m heap endpos pos.
Proof.
  revert m heap pos. induction n as [|n IH]; intros m heap pos Hn Hm.
  - destruct m; [done|]. cbn. by rewrite bool_decide_eq_false_2 by lia.
  - destruct m as [|m].
    + cbn. by rewrite bool_decide_eq_false_2 by lia.
    + cbn [siftup_loop]. case_bool_decide as Hlt; [|done].
      set (child := match heap !! (2 * pos + 1)%nat with
                    | Some c => _ | None => _ end).
      assert (Hchild : (pos < child)%nat).
      { subst child. destruct (heap !! (2 * pos + 1)%nat); [|lia].
        destruct (heap !! (2 * pos + 1 + 1)%nat); [|lia].
        destruct (_ && _); lia. }
      destruct (heap !! child); [|done]. apply IH; lia.
Qed.

(** *** The two operations used by the query engine *)

Lemma heappush_Permutation heap item : heappush lt heap item ≡ₚ item :: heap.
Proof.
  unfold heappush. rewrite siftdown_Permutation.
  by rewrite Permutation_app_comm.
Qed.

Lemma heapreplace_Permutation top heap item :
  exists heap', heapreplace lt (top :: heap) item = Ok heap'
                /\ heap' ≡ₚ item :: heap.
Proof.
  eexists. split; [done|]. by rewrite siftup_Permutation.
Qed.

End HeapFacts.
End HeapqFacts.


(* ===================================================================== *)
(** * Part XIII. Properties of the query engine                              *)
(* ===================================================================== *)

Module QueryFacts.
Import Py IndexFiles QueryEngine PyFacts HeapqFacts.

Section QueryProofs.
Context {libm : Libm} {json : Json} {unicode : TextPreprocessor.Unicode}.

(** *** Query term frequencies *)

Lemma count_tokens_keys_from (tokens : list str) (q_tf : dict str Z) :
  NoDup (keys q_tf) ->
  let q_tf' :=
    fold_left (fun q_tf t => dict_set t (dict_get_default t 0 q_tf + 1) q_tf)
      tokens q_tf in
  NoDup (keys q_tf')
  /\ forall t, t ∈ keys q_tf' <-> t ∈ keys q_tf \/ t ∈ tokens.
Proof.
  revert q_tf. induction tokens as [|t ts IH]; intros q_tf Hnd; cbn.
  - split; [done|]. intros t. rewrite elem_of_nil. tauto.
  - destruct (IH (dict_set t (dict_get_default t 0 q_tf + 1) q_tf)) as [Hnd' Hel].
    { by apply NoDup_keys_dict_set. }
    split; [done|]. intros t'. rewrite Hel, elem_of_keys_dict_set, elem_of_cons.
    tauto.
Qed.

Lemma count_tokens_keys (tokens : list str) :
  keys (count_tokens tokens) ≡ₚ remove_dups tokens.
Proof.
  destruct (count_tokens_keys_from tokens [] (NoDup_nil_2)) as [Hnd Hel].
  apply NoDup_Permutation; [done | apply NoDup_remove_dups|].
  intros t. rewrite elem_of_remove_dups. unfold count_tokens. rewrite Hel.
  cbn. rewrite elem_of_nil. tauto.
Qed.

(** *** Bytes read *)

Lemma read_postings_bytes (idx : index) (t : str) postings br :
  _read_postings idx t = Ok (postings, br) -> br = entry_bytes idx t.
Proof.
  unfold _read_postings, entry_bytes.
  destruct (dict_get t (vocab idx)) as [meta|]; [|by intros [= _ <-]].
  destruct (read_at _ _ _) as [data|]; cbn; [|done].
  by destruct (json_loads data); intros [= _ <-].
Qed.

Lemma score_term_bytes (idx : index) s s' (item : str * Z) :
  score_term idx s item = Ok s' ->
  s_bytes_read s' = s_bytes_read s + entry_bytes idx (fst item).
Proof.
  destruct item as [t tf]. unfold score_term. cbn [fst].
  destruct (dict_get t (vocab idx)) as [meta|] eqn:Hm.
  - destruct (query_idf idx (meta_df meta)); cbn; [|done].
    destruct (q_tf_weight_of tf); cbn; [|done].
    destruct (_read_postings idx t) as [[postings br]|] eqn:Hr; cbn; [|done].
    intros [= <-]. cbn. by rewrite (read_postings_bytes _ _ _ _ Hr).
  - intros [= <-]. unfold entry_bytes. rewrite Hm. lia.
Qed.

Lemma score_terms_bytes (idx : index) s s' (q_tf : list (str * Z)) :
  score_terms idx s q_tf = Ok s' ->
  s_bytes_read s' =
  s_bytes_read s + foldr Z.add 0 (List.map (entry_bytes idx) (keys q_tf)).
Proof.
  unfold keys. revert s. induction q_tf as [|item q_tf IH]; intros s; cbn.
  - intros [= <-]. lia.
  - destruct (score_term idx s item) as [s1|] eqn:H1; cbn; [|done].
    intros Hrest. rewrite (IH _ Hrest), (score_term_bytes _ _ _ _ H1). lia.
Qed.

Lemma query_tokens_bytes (idx : index) (tokens : list str) (k : Z) r :
  query_tokens idx tokens k = Ok r -> bytes_read r = touched_bytes idx tokens.
Proof.
  unfold query_tokens.
  destruct (score_terms idx _ (count_tokens tokens)) as [s|] eqn:Hs; cbn; [|done].
  destruct (if PrimFloat.ltb 0 (q_sq_sum s) then _ else _); cbn; [|done].
  destruct (select_all idx k _ [] (accum s)); cbn; [|done].
  intros [= <-]. cbn. rewrite (score_terms_bytes _ _ _ _ Hs). cbn.
  unfold touched_bytes. apply sum_Permutation.
  apply Permutation_map, count_tokens_keys.
Qed.

(** *** Candidate documents *)

Lemma accumulate_keys (q_w : float) postings (acc : dict str float) :
  NoDup (keys acc) ->
  NoDup (keys (accumulate q_w postings acc))
  /\ forall d, d ∈ keys (accumulate q_w postings acc)
               <-> d ∈ keys acc \/ d ∈ List.map fst postings.
Proof.
  unfold accumulate. revert acc.
  induction postings as [|[doc_id doc_w] ps IH]; intros acc Hnd; cbn.
  - split; [done|]. intros d. rewrite elem_of_nil. tauto.
  - edestruct IH as [Hnd' Hel]; [by apply NoDup_keys_dict_set|].
    split; [exact Hnd'|]. intros d.
    rewrite Hel, elem_of_keys_dict_set, elem_of_cons. tauto.
Qed.

Lemma score_term_keys (idx : index) s s' (item : str * Z) :
  score_term idx s item = Ok s' ->
  NoDup (keys (accum s)) ->
  NoDup (keys (accum s'))
  /\ forall d, d ∈ keys (accum s')
               <-> d ∈ keys (accum s)
                   \/ d ∈ List.map fst (fetched_postings idx (fst item)).
Proof.
  destruct item as [t tf]. unfold score_term, fetched_postings. cbn [fst].
  destruct (dict_get t (vocab idx)) as [meta|] eqn:Hm.
  - destruct (query_idf idx (meta_df meta)); cbn; [|done].
    destruct (q_tf_weight_of tf); cbn; [|done].
    destruct (_read_postings idx t) as [[postings br]|] eqn:Hr; cbn; [|done].
    intros [= <-] Hnd. cbn. by apply accumulate_keys.
  - intros [= <-] Hnd. unfold _read_postings. rewrite Hm. cbn.
    split; [done|]. intros d. rewrite elem_of_nil. tauto.
Qed.

Lemma score_terms_keys (idx : index) s s' (q_tf : list (str * Z)) :
  score_terms idx s q_tf = Ok s' ->
  NoDup (keys (accum s)) ->
  NoDup (keys (accum s'))
  /\ forall d, d ∈ keys (accum s')
               <-> d ∈ keys (accum s)
                   \/ exists t, t ∈ keys q_tf
                                /\ d ∈ List.map fst (fetched_postings idx t).
Proof.
  revert s. induction q_tf as [|item q_tf IH]; intros s; cbn.
  - intros [= <-] Hnd. split; [done|]. intros d. split; [by left|].
    intros [?|(t & Ht & _)]; [done|]. by apply elem_of_nil in Ht.
  - destruct (score_term idx s item) as [s1|] eqn:H1; cbn; [|done].
    intros Hrest Hnd.
    destruct (score_term_keys _ _ _ _ H1 Hnd) as [Hnd1 Hel1].
    destruct (IH _ Hrest Hnd1) as [Hnd' Hel']. split; [done|].
    intros d. rewrite Hel', Hel1. split.
    + intros [[?|?]|(t & Ht & Hd)]; [by left | |].
      * right. exists (fst item). split; [by left | done].
      * right. exists t. split; [by right | done].
    + intros [?|(t & [->|Ht]%elem_of_cons & Hd)]; [by left; left | |].
      * by left; right.
      * right. by exists t.
Qed.

Lemma accum_candidates (idx : index) (tokens : list str) s :
  score_terms idx {| accum := []; q_sq_sum := 0; s_bytes_read := 0 |}
    (count_tokens tokens) = Ok s ->
  keys (accum s) ≡ₚ candidates idx tokens.
Proof.
  intros Hs.
  destruct (score_terms_keys _ _ _ _ Hs) as [Hnd Hel]; [constructor|].
  apply NoDup_Permutation; [done | apply NoDup_remove_dups|].
  intros d. unfold candidates. rewrite elem_of_remove_dups, Hel. cbn.
  rewrite (list_elem_of_In (concat _)), in_concat. split.
  - intros [?%elem_of_nil|(t & Ht & Hd)]; [done|].
    exists (List.map fst (fetched_postings idx t)).
    split; [|by apply list_elem_of_In].
    apply (in_map (fun t => List.map fst (fetched_postings idx t))).
    apply list_elem_of_In. rewrite elem_of_remove_dups.
    by rewrite count_tokens_keys, elem_of_remove_dups in Ht.
  - intros (l & (t & <- & Ht)%in_map_iff & Hd). right. exists t.
    split; [|by apply list_elem_of_In].
    rewrite count_tokens_keys. by apply list_elem_of_In.
Qed.

(** *** Top-k selection *)

Lemma select_step (idx : index) (k : Z) q_norm heap heap' (item : str * float) :
  select idx k q_norm heap item = Ok heap' ->
  List.map snd heap' ⊆+ fst item :: List.map snd heap
  /\ (1 <= k -> Z.of_nat (List.length heap) <= k ->
      Z.of_nat (List.length heap') =
      Z.min k (Z.of_nat (List.length heap)
               + if has_norm idx (fst item) then 1 else 0)).
Proof.
  destruct item as [doc_id dot]. unfold select, has_norm. cbn [fst].
  destruct (PrimFloat.eqb (dict_get_default doc_id 0%float (doc_norms idx)) 0).
  { intros [= <-]. split; [by apply submseteq_cons | cbn; lia]. }
  destruct (PrimFloat.eqb _ 0); [done|]. cbn [negb].
  destruct (Z.ltb_spec (Z.of_nat (List.length heap)) k) as [Hlt|Hge].
  - intros [= <-]. pose proof (heappush_Permutation Heapq.tuple_lt heap
      ((dot / (q_norm * dict_get_default doc_id 0 (doc_norms idx)))%float,
       doc_id)) as Hp.
    split.
    + by rewrite Hp.
    + intros _ _. rewrite (Permutation_length Hp). cbn [List.length]. lia.
  - destruct heap as [|top heap]; [done|].
    destruct (PrimFloat.ltb (fst top) _).
    + destruct (heapreplace_Permutation Heapq.tuple_lt top heap
        ((dot / (q_norm * dict_get_default doc_id 0 (doc_norms idx)))%float,
         doc_id)) as (h & -> & Hp).
      intros [= <-]. split.
      * rewrite Hp. cbn. by apply submseteq_skip, submseteq_cons.
      * intros _ Hle. rewrite (Permutation_length Hp). cbn [List.length] in *. lia.
    + intros [= <-]. split; [by apply submseteq_cons | lia].
Qed.

Lemma select_all_spec (idx : index) (k : Z) q_norm heap heap' items :
  select_all idx k q_norm heap items = Ok heap' ->
  List.map snd heap' ⊆+ rev (keys items) ++ List.map snd heap
  /\ (1 <= k -> Z.of_nat (List.length heap) <= k ->
      Z.of_nat (List.length heap') =
      Z.min k (Z.of_nat (List.length heap)
               + Z.of_nat (List.length (List.filter (has_norm idx) (keys items))))).
Proof.
  unfold keys. revert heap. induction items as [|item items IH]; intros heap; cbn.
  - intros [= <-]. split; [done | lia].
  - destruct (select idx k q_norm heap item) as [h1|] eqn:H1; cbn; [|done].
    intros Hrest. destruct (select_step _ _ _ _ _ _ H1) as [Hsub1 Hlen1].
    destruct (IH _ Hrest) as [Hsub Hlen]. split.
    + rewrite Hsub, <- app_assoc. cbn. by apply submseteq_app.
    + intros Hk Hheap. specialize (Hlen1 Hk Hheap).
      rewrite Hlen by lia. rewrite Hlen1.
      destruct (has_norm idx (fst item)); cbn [List.length]; lia.
Qed.

Lemma sorted_by_key_desc_Permutation {A} (key : A -> float) (l : list A) :
  sorted_by_key_desc key l ≡ₚ l.
Proof. apply sorted_Permutation. Qed.

Lemma results_of_heap (heap : list (float * str)) :
  List.map fst
    (sorted_by_key_desc snd
       (sorted_by_key_desc snd
          (List.map (fun '(score, doc_id) => (doc_id, score)) heap)))
  ≡ₚ List.map snd heap.
Proof.
  rewrite !sorted_by_key_desc_Permutation, List.map_map.
  apply Permutation_refl'. apply List.map_ext. by intros [].
Qed.

Lemma query_tokens_results (idx : index) (tokens : list str) (k : Z) r :
  query_tokens idx tokens k = Ok r ->
  NoDup (List.map fst (results r))
  /\ (1 <= k ->
      Z.of_nat (List.length (results r)) =
      Z.min k (Z.of_nat (List.length
                 (List.filter (has_norm idx) (candidates idx tokens))))).
Proof.
  unfold query_tokens.
  destruct (score_terms idx _ (count_tokens tokens)) as [s|] eqn:Hs; cbn; [|done].
  destruct (if PrimFloat.ltb 0 (q_sq_sum s) then _ else _) as [q_norm|];
    cbn; [|done].
  destruct (select_all idx k q_norm [] (accum s)) as [heap|] eqn:Hsel;
    cbn; [|done].
  intros [= <-]. cbn [results].
  destruct (select_all_spec _ _ _ _ _ _ Hsel) as [Hsub Hlen].
  pose proof (accum_candidates _ _ _ Hs) as Hcand.
  destruct (score_terms_keys _ _ _ _ Hs) as [Hnd _]; [constructor|].
  split.
  - rewrite results_of_heap. eapply submseteq_NoDup; [exact Hsub|].
    cbn. by rewrite app_nil_r, <- Permutation_rev.
  - intros Hk. rewrite <- (length_map fst), (Permutation_length (results_of_heap heap)).
    rewrite length_map, Hlen by (cbn; lia). cbn [List.length].
    by rewrite (filter_length_Permutation _ _ _ Hcand).
Qed.

End QueryProofs.

(** C8. Whenever [query] returns, [bytes_read] is the sum of the [length]
    fields of the dictionary entries of the distinct tokens of the query:
    a token that is not in the dictionary adds nothing and is no error, and
    an entry whose record does not parse is counted all the same (the sum
    does not depend on [json_loads]). *)
Theorem query_bytes_read {libm : Libm} {json : Json}
    {unicode : TextPreprocessor.Unicode} env g (idx : index) qtext (k : Z)
    tokens g1 r g2 :
  TextPreprocessor.preprocess env g qtext = (Ok tokens, g1) ->
  tokens <> [] ->
  query env g idx qtext k = (Ok r, g2) ->
  bytes_read r = touched_bytes idx tokens.
Proof.
  unfold query. intros -> Hne. destruct tokens as [|t ts]; [done|].
  intros [= Hq _]. by apply query_tokens_bytes in Hq.
Qed.

(** C9. The result list of [query] never names a document twice. *)
Theorem query_results_distinct {libm : Libm} {json : Json}
    {unicode : TextPreprocessor.Unicode} env g (idx : index) qtext (k : Z)
    r g' :
  query env g idx qtext k = (Ok r, g') ->
  NoDup (List.map fst (results r)).
Proof.
  unfold query.
  destruct (TextPreprocessor.preprocess env g qtext) as [[[|t ts]|] g1].
  - intros [= <- _]. constructor.
  - intros [= Hq _]. by apply query_tokens_results in Hq as [? _].
  - done.
Qed.

(** C2, amended. For a capacity [k >= 1], the result list of [query] has
    [min(k, c)] entries, where [c] is the number of candidate documents
    (those in the postings fetched for the query's tokens) whose stored norm
    is not zero. *)
Theorem query_results_length {libm : Libm} {json : Json}
    {unicode : TextPreprocessor.Unicode} env g (idx : index) qtext (k : Z)
    tokens g1 r g2 :
  1 <= k ->
  TextPreprocessor.preprocess env g qtext = (Ok tokens, g1) ->
  query env g idx qtext k = (Ok r, g2) ->
  Z.of_nat (List.length (results r)) =
  Z.min k (Z.of_nat (List.length
             (List.filter (has_norm idx) (candidates idx tokens)))).
Proof.
  unfold query. intros Hk ->. destruct tokens as [|t ts].
  - intros [= <- _]. cbn. lia.
  - intros [= Hq _]. apply query_tokens_results in Hq as [_ Hq]. by apply Hq.
Qed.

Section OnExamples.
Import Examples.
#[local] Existing Instances Reference.correctly_rounded Reference.python_json
  Reference.without_unidecode.

(** C8 at work: on the index whose entry for "gat" no longer locates a
    record, the query "gato come" fetches nothing for "gat" and still
    counts the 95 bytes of its entry, with the 95 bytes of "com". *)
Lemma query_bytes_read_damaged :
  fst (run_query pets_damaged "gato come" 10)
  = Ok (result_of (run_query pets_damaged "gato come" 10))
  /\ fetched_postings pets_damaged (lit "gat") = []
  /\ touched_bytes pets_damaged [lit "gat"; lit "com"] = 190
  /\ bytes_read (result_of (run_query pets_damaged "gato come" 10))
     = touched_bytes pets_damaged [lit "gat"; lit "com"].
Proof.
  split; [vm_compute; reflexivity|]. split; [vm_compute; reflexivity|].
  split; [vm_compute; reflexivity|].
  apply (query_bytes_read with_nltk TextPreprocessor.initial pets_damaged
           (Some (lit "gato come")) 10 [lit "gat"; lit "com"]
           (snd (run_query pets_damaged "gato come" 10))
           (result_of (run_query pets_damaged "gato come" 10))
           (snd (run_query pets_damaged "gato come" 10))).
  - vm_compute; reflexivity.
  - discriminate.
  - vm_compute; reflexivity.
Defined.

(** C9 at work: the three documents of the example are ranked once each. *)
Lemma query_results_distinct_pets :
  fst (run_query (MergeBlocks.out_index pets_merged) "El perro y el gato" 10)
  = Ok (result_of (run_query (MergeBlocks.out_index pets_merged) "El perro y el gato" 10))
  /\ List.map fst
       (results
          (result_of (run_query (MergeBlocks.out_index pets_merged) "El perro y el gato" 10)))
     = [lit "2"; lit "3"; lit "1"]
  /\ NoDup
       (List.map fst
          (results
             (result_of
                (run_query (MergeBlocks.out_index pets_merged) "El perro y el gato" 10)))).
Proof.
  split; [vm_compute; reflexivity|]. split; [vm_compute; reflexivity|].
  apply (query_results_distinct with_nltk TextPreprocessor.initial (MergeBlocks.out_index pets_merged)
           (Some (lit "El perro y el gato")) 10 _
           (snd (run_query (MergeBlocks.out_index pets_merged) "El perro y el gato" 10))).
  vm_compute; reflexivity.
Defined.

(** C2, as stated, fails: both documents of the second example contain
    "come", so the idf of "com" is zero and so are both scores; the two
    documents are returned all the same, where the claim counts no
    document with a nonzero score and excludes documents of score zero. *)
Lemma zero_scores_returned :
  fst (SPIMI.build_from_documents with_nltk TextPreprocessor.initial meals 1000)
  = Ok meals_blocks
  /\ MergeBlocks.merge_blocks meals_blocks = Ok meals_merged
  /\ fst (run_query (MergeBlocks.out_index meals_merged) "come" 10)
     = Ok {| results := [(lit "1", 0%float); (lit "2", 0%float)];
             bytes_read := 63 |}.
Proof. repeat split; vm_compute; reflexivity. Qed.

(** The amended C2 at work: "gato" has two candidates with a norm, and a
    capacity of one keeps one. *)
Lemma query_results_length_pets :
  fst (run_query (MergeBlocks.out_index pets_merged) "gato" 1)
  = Ok (result_of (run_query (MergeBlocks.out_index pets_merged) "gato" 1))
  /\ candidates (MergeBlocks.out_index pets_merged) [lit "gat"] = [lit "1"; lit "3"]
  /\ Z.of_nat
       (List.length
          (results (result_of (run_query (MergeBlocks.out_index pets_merged) "gato" 1))))
     = Z.min 1
         (Z.of_nat
            (List.length
               (List.filter (has_norm (MergeBlocks.out_index pets_merged))
                  (candidates (MergeBlocks.out_index pets_merged) [lit "gat"])))).
Proof.
  split; [vm_compute; reflexivity|]. split; [vm_compute; reflexivity|].
  apply (query_results_length with_nltk TextPreprocessor.initial (MergeBlocks.out_index pets_merged)
           (Some (lit "gato")) 1 [lit "gat"]
           (snd (run_query (MergeBlocks.out_index pets_merged) "gato" 1))
           (result_of (run_query (MergeBlocks.out_index pets_merged) "gato" 1))
           (snd (run_query (MergeBlocks.out_index pets_merged) "gato" 1))).
  - lia.
  - vm_compute; reflexivity.
  - vm_compute; reflexivity.
Defined.

End OnExamples.

End QueryFacts.


(* ===================================================================== *)
(** * Part XIV. Properties of the merge                                    *)
(* ===================================================================== *)

Module MergeFacts.
Import Py IndexFiles MergeBlocks PyFacts.

(** ** Aggregation *)


Lemma add_block_entries (b : block) (acc : aggregate) :
  add_block acc b = fold_left step (entries_of_block b) acc.
Proof.
  unfold add_block, entries_of_block. revert acc.
  induction b as [|item b IH]; intros acc; [done|]. cbn.
  rewrite fold_left_app, <- IH. f_equal. unfold add_item.
  generalize (snd item). intros ps. revert acc.
  induction ps as [|p ps IHp]; intros acc; [done|]. cbn. by rewrite IHp.
Qed.

Lemma aggregate_blocks_entries (files : directory) (acc acc' : aggregate) :
  aggregate_blocks files acc = Ok acc' ->
  acc' = fold_left step (entries_of files) acc.
Proof.
  unfold entries_of. revert acc.
  induction files as [|[name [b|]] files IH]; intros acc; cbn.
  - by intros [= <-].
  - intros Hagg. rewrite fold_left_app, <- add_block_entries. by apply IH.
  - done.
Qed.


Lemma aggregated_empty : aggregated [] ([], ∅).
Proof.
  split; cbn; try done.
  - constructor.
  - intros d. split; [set_solver | by intros (? & ? & ? & ?)].
Qed.

Lemma dict_set_not_nil {K V} `{EqDecision K} (k : K) (v : V) (d : dict K V) :
  dict_set k v d <> [].
Proof. destruct d as [|[k' v'] d]; cbn; [done|]. by destruct (decide (k = k')). Qed.

Lemma aggregated_step es acc e :
  aggregated es acc -> aggregated (es ++ [e]) (step acc e).
Proof.
  destruct acc as [tdt ids], e as [t [id tf]]. intros [Ht Hd Htf Hocc Hids].
  cbn [fst snd] in *. unfold step, add_posting. cbn [fst snd].
  assert (Hdocs : NoDup (keys (dict_get_default (V := dict str Z) t [] tdt))).
  { unfold dict_get_default.
    destruct (dict_get t tdt) eqn:E; [by destruct (Hd _ _ E) | constructor]. }
  assert (Hin_docs : forall d1, d1 ∈ keys (dict_get_default (V := dict str Z) t [] tdt) ->
            exists docs0, dict_get t tdt = Some docs0 /\ d1 ∈ keys docs0).
  { intros d1. unfold dict_get_default.
    destruct (dict_get t tdt) as [docs0|]; [by exists docs0|].
    by intros ?%elem_of_nil. }
  assert (Hdocs_eq : forall docs0, dict_get t tdt = Some docs0 ->
            dict_get_default (V := dict str Z) t [] tdt = docs0).
  { intros docs0 E. unfold dict_get_default. by rewrite E. }
  set (d := str_of id). set (docs := dict_get_default (V := dict str Z) t [] tdt) in *.
  set (docs' := dict_set d (dict_get_default d 0 docs + tf) docs).
  assert (Hget : forall t1, dict_get t1 (dict_set t docs' tdt)
                            = if decide (t = t1) then Some docs'
                              else dict_get t1 tdt).
  { intros t1. destruct (decide (t = t1)) as [<-|Hne];
      [apply dict_get_set_eq | by apply dict_get_set_ne]. }
  assert (Hkeys : forall d1, d1 ∈ keys docs' <-> d1 = d \/ d1 ∈ keys docs).
  { intros d1. apply elem_of_keys_dict_set. }
  split; cbn [fst snd].
  - by apply NoDup_keys_dict_set.
  - intros t1 docs1. rewrite Hget. destruct (decide (t = t1)) as [<-|Hne].
    + intros [= <-]. split; [by apply NoDup_keys_dict_set|].
      apply dict_set_not_nil.
    + apply Hd.
  - intros t1 d1. rewrite List.map_app, sum_app, <- Htf. cbn.
    unfold contribution. cbn [fst snd]. fold d.
    unfold dict_get_default at 2. rewrite Hget.
    destruct (decide (t = t1)) as [<-|Hne].
    + fold docs. destruct (decide (d = d1)) as [<-|Hned].
      * rewrite decide_True by done. unfold dict_get_default at 1.
        subst docs'. rewrite dict_get_set_eq. lia.
      * rewrite decide_False by tauto. unfold dict_get_default.
        subst docs'. rewrite dict_get_set_ne by done. lia.
    + rewrite decide_False by tauto. unfold dict_get_default. lia.
  - intros t1 docs1 d1. rewrite Hget. destruct (decide (t = t1)) as [<-|Hne].
    + intros [= <-]. rewrite Hkeys. intros [->|Hin].
      * exists (t, (id, tf)). rewrite elem_of_app, list_elem_of_singleton. auto.
      * destruct (Hin_docs _ Hin) as (docs0 & E & Hin0).
        destruct (Hocc _ _ _ E Hin0) as (e & He & ?). exists e.
        rewrite elem_of_app. auto.
    + intros E Hin. destruct (Hocc _ _ _ E Hin) as (e & He & ?). exists e.
      rewrite elem_of_app. auto.
  - intros d1. rewrite elem_of_union, elem_of_singleton, Hids. split.
    + intros [->|(t1 & docs1 & E & Hin)].
      * exists t, docs'. rewrite Hget, decide_True by done.
        split; [done|]. apply Hkeys. by left.
      * destruct (decide (t = t1)) as [<-|Hne].
        -- exists t, docs'. rewrite Hget, decide_True by done.
           split; [done|]. apply Hkeys. right. by rewrite (Hdocs_eq _ E).
        -- exists t1, docs1. by rewrite Hget, decide_False.
    + intros (t1 & docs1 & E & Hin). rewrite Hget in E.
      destruct (decide (t = t1)) as [<-|Hne].
      * injection E as <-. apply Hkeys in Hin as [->|Hin]; [by left|].
        right. destruct (Hin_docs _ Hin) as (docs0 & E & Hin0).
        by exists t, docs0.
      * right. by exists t1, docs1.
Qed.

Lemma aggregated_fold es es' acc :
  aggregated es acc -> aggregated (es ++ es') (fold_left step es' acc).
Proof.
  revert es acc. induction es' as [|e es' IH]; intros es acc Hagg; cbn.
  - by rewrite app_nil_r.
  - replace (es ++ e :: es') with ((es ++ [e]) ++ es')
      by by rewrite <- app_assoc.
    by apply IH, aggregated_step.
Qed.

Lemma aggregate_blocks_aggregated (files : directory) acc :
  aggregate_blocks files ([], ∅) = Ok acc -> aggregated (entries_of files) acc.
Proof.
  intros ->%aggregate_blocks_entries.
  apply (aggregated_fold [] (entries_of files)), aggregated_empty.
Qed.

(** ** Writing the records *)

Section Writing.
Context {libm : Libm} {json : Json}.

Lemma weigh_spec idf docs ps sq ps' sq' :
  weigh idf docs ps sq = Ok (ps', sq') ->
  exists new,
    ps' = ps ++ new
    /\ Forall2 (posting_for idf) docs new
    /\ (NoDup (keys sq) -> NoDup (keys sq'))
    /\ (forall d, d ∈ keys sq' <-> d ∈ keys sq \/ d ∈ keys docs).
Proof.
  revert ps sq. induction docs as [|[doc_id tf] docs IH]; intros ps sq; cbn.
  - intros [= <- <-]. exists []. rewrite app_nil_r.
    split; [done|]. split; [constructor|]. split; [done|].
    intros d. rewrite elem_of_nil. tauto.
  - destruct (tf_weight_of tf) as [tfw|] eqn:Htf; cbn; [|done].
    intros (new & -> & Hnew & Hnd & Hel)%IH.
    exists ((doc_id, (tfw * idf)%float) :: new).
    split; [by rewrite <- app_assoc|]. split; [|split].
    + constructor; [|done]. split; [done|]. by exists tfw.
    + intros Hsq. by apply Hnd, NoDup_keys_dict_set.
    + intros d. rewrite Hel, elem_of_keys_dict_set, elem_of_cons. tauto.
Qed.


Lemma write_term_spec N tdt t w w' :
  write_term N tdt t w = Ok w' ->
  exists record data,
    record_for N tdt t record
    /\ line_bytes record = Some data
    /\ w_inverted w' = w_inverted w ++ data
    /\ w_vocab w' =
       dict_set t (entry_at (List.length (w_inverted w)) record data) (w_vocab w)
    /\ (NoDup (keys (w_doc_sq_sums w)) -> NoDup (keys (w_doc_sq_sums w')))
    /\ (forall d, d ∈ keys (w_doc_sq_sums w')
                  <-> d ∈ keys (w_doc_sq_sums w)
                      \/ d ∈ keys (dict_get_default (V := dict str Z) t [] tdt)).
Proof.
  unfold write_term.
  destruct (idf_of N _) as [idf|] eqn:Hidf; cbn; [|done].
  destruct (weigh idf _ [] (w_doc_sq_sums w)) as [[ps sq]|] eqn:Hw; cbn; [|done].
  apply weigh_spec in Hw as (new & -> & Hnew & Hnd & Hel). cbn in *.
  destruct (utf8_encode _) as [data|] eqn:Henc; [|done]. intros [= <-].
  eexists _, data. split; [|done].
  split; [done|]. split; [done|]. by exists idf.
Qed.

Lemma write_terms_spec N tdt terms w w' :
  write_terms N tdt terms w = Ok w' ->
  exists lines,
    Forall2 (fun t l => record_for N tdt t (fst l)
                        /\ line_bytes (fst l) = Some (snd l)) terms lines
    /\ w_inverted w' = w_inverted w ++ concat (List.map snd lines)
    /\ w_vocab w' =
       fold_left (fun v e => dict_set (fst e) (snd e) v)
         (layout (List.length (w_inverted w)) lines) (w_vocab w)
    /\ (NoDup (keys (w_doc_sq_sums w)) -> NoDup (keys (w_doc_sq_sums w')))
    /\ (forall d, d ∈ keys (w_doc_sq_sums w')
                  <-> d ∈ keys (w_doc_sq_sums w)
                      \/ exists t, t ∈ terms
                           /\ d ∈ keys (dict_get_default (V := dict str Z) t [] tdt)).
Proof.
  revert w. induction terms as [|t terms IH]; intros w; cbn.
  - intros [= <-]. exists []. rewrite app_nil_r.
    split; [constructor|]. split; [done|]. split; [done|]. split; [done|].
    intros d. split; [by left|]. intros [?|(t & Ht & _)]; [done|].
    by apply elem_of_nil in Ht.
  - destruct (write_term N tdt t w) as [w1|] eqn:H1; cbn; [|done].
    apply write_term_spec in H1
      as (record & data & Hrec & Hline & Hinv & Hvoc & Hnd1 & Hel1).
    intros (lines & Hlines & Hinv' & Hvoc' & Hnd' & Hel')%IH.
    exists ((record, data) :: lines).
    split; [by constructor|]. split; [|split; [|split]].
    + rewrite Hinv', Hinv. cbn. by rewrite <- app_assoc.
    + rewrite Hvoc', Hvoc, Hinv, length_app. cbn.
      destruct Hrec as [-> _]. done.
    + auto.
    + intros d. rewrite Hel', Hel1. split.
      * intros [[?|?]|(t' & Ht' & Hd)]; [by left | |].
        -- right. exists t. split; [by left | done].
        -- right. exists t'. split; [by right | done].
      * intros [?|(t' & [->|Ht']%elem_of_cons & Hd)]; [by left; left | |].
        -- by left; right.
        -- right. by exists t'.
Qed.

Lemma keys_layout offset lines terms N tdt :
  Forall2 (fun t l => record_for N tdt t (fst l)
                      /\ line_bytes (fst l) = Some (snd l)) terms lines ->
  keys (layout offset lines) = terms.
Proof.
  intros Hl. unfold keys. revert offset.
  induction Hl as [|t [record data] ts ls [Hr _] _ IH]; intros offset; [done|].
  cbn in *. rewrite (IH _). by destruct Hr as [-> _].
Qed.

Lemma norms_of_keys sq norms :
  norms_of sq = Ok norms -> keys norms = keys sq.
Proof.
  revert norms. induction sq as [|[doc x] sq IH]; intros norms; cbn.
  - by intros [= <-].
  - destruct (math_sqrt x); cbn; [|done].
    destruct (norms_of sq) as [ns|]; cbn; [|done].
    intros [= <-]. unfold keys in *. cbn. by rewrite (IH ns).
Qed.

End Writing.

Lemma dict_set_fresh {K V} `{EqDecision K} (k : K) (v : V) (d : dict K V) :
  k ∉ keys d -> dict_set k v d = d ++ [(k, v)].
Proof.
  induction d as [|[k' v'] d IH]; cbn; [done|].
  rewrite not_elem_of_cons. intros [Hne Hk]. rewrite decide_False by done.
  by rewrite (IH Hk).
Qed.

Lemma fold_dict_set_fresh {K V} `{EqDecision K} (l d : dict K V) :
  NoDup (keys l) -> (forall k, k ∈ keys l -> k ∉ keys d) ->
  fold_left (fun v e => dict_set (fst e) (snd e) v) l d = d ++ l.
Proof.
  revert d. induction l as [|[k v] l IH]; intros d; cbn.
  - intros _ _. by rewrite app_nil_r.
  - intros [Hk Hl]%NoDup_cons Hfresh. rewrite dict_set_fresh.
    + rewrite IH; [by rewrite <- app_assoc | done |].
      intros k' Hk'. unfold keys. rewrite fmap_app, elem_of_app.
      intros [Hin|Hin%list_elem_of_singleton].
      * eapply Hfresh; [|exact Hin]. by right.
      * cbn in Hin. by subst.
    + apply Hfresh. by left.
Qed.

(** ** The merge as a whole *)

Section Merged.
Context {libm : Libm} {json : Json}.

(** A successful merge: the aggregate of all entries, and the lines
    written for its terms in sorted order, which make up the three files. *)
Lemma merge_blocks_spec dir out :
  merge_blocks dir = Ok out ->
  exists tdt doc_ids lines,
    aggregated (entries_of (block_files dir)) (tdt, doc_ids)
    /\ out_N out = Z.of_nat (size doc_ids)
    /\ Forall2 (fun t l => record_for (out_N out) tdt t (fst l)
                           /\ line_bytes (fst l) = Some (snd l))
         (sorted str_lt (keys tdt)) lines
    /\ inverted (out_index out) = concat (List.map snd lines)
    /\ vocab (out_index out) = layout 0 lines
    /\ NoDup (keys (doc_norms (out_index out)))
    /\ (forall d, d ∈ keys (doc_norms (out_index out)) <-> d ∈ doc_ids).
Proof.
  unfold merge_blocks. destruct (block_files dir) as [|f files] eqn:Hfiles; [done|].
  destruct (aggregate_blocks (f :: files) _) as [[tdt doc_ids]|] eqn:Hagg;
    cbn [bind]; [|done].
  apply aggregate_blocks_aggregated in Hagg.
  destruct (Z.of_nat (size doc_ids) =? 0); [done|].
  destruct (write_terms _ tdt _ _) as [w|] eqn:Hw; cbn [bind]; [|done].
  apply write_terms_spec in Hw as (lines & Hlines & Hinv & Hvoc & Hnd & Hel).
  cbn in Hinv, Hvoc, Hnd, Hel.
  destruct (norms_of (w_doc_sq_sums w)) as [norms|] eqn:Hn; cbn [bind]; [|done].
  intros [= <-]. cbn [out_index out_N inverted vocab doc_norms].
  exists tdt, doc_ids, lines.
  destruct Hagg as [Ht Hd Htf Hocc Hids]. cbn [fst snd] in *.
  split; [by split|]. split; [done|]. split; [done|]. split; [done|].
  rewrite (norms_of_keys _ _ Hn). split; [|split].
  - rewrite Hvoc. rewrite fold_dict_set_fresh; [done| |].
    + rewrite (keys_layout _ _ _ _ _ Hlines).
      by rewrite sorted_Permutation.
    + intros k _. apply not_elem_of_nil.
  - apply Hnd. constructor.
  - intros d. rewrite Hel, Hids. split.
    + intros [?%elem_of_nil|(t & Ht' & Hin)]; [done|].
      unfold dict_get_default in Hin.
      destruct (dict_get t tdt) as [docs|] eqn:E; [|by apply elem_of_nil in Hin].
      by exists t, docs.
    + intros (t & docs & E & Hin). right. exists t. split.
      * rewrite sorted_Permutation. apply dict_get_is_Some. by rewrite E.
      * unfold dict_get_default. by rewrite E.
Qed.

(** The entry of a dictionary laid out from [length prefix] locates, in
    the file [prefix ++ lines], the bytes of one line. *)
Lemma layout_locates (prefix : list byte) lines t meta :
  dict_get t (layout (List.length prefix) lines) = Some meta ->
  exists record data,
    (record, data) ∈ lines
    /\ term record = t
    /\ meta_df meta = df record
    /\ QueryEngine.read_at (prefix ++ concat (List.map snd lines))
         (meta_offset meta) (meta_length meta) = Ok data.
Proof.
  revert prefix. induction lines as [|[record data] lines IH]; intros prefix;
    cbn; [done|].
  destruct (decide (t = term record)) as [->|Hne].
  - intros [= <-]. exists record, data. split; [by left|]. split; [done|].
    split; [done|]. unfold QueryEngine.read_at. cbn.
    rewrite (proj2 (Z.ltb_ge _ _)) by lia.
    rewrite (proj2 (Z.ltb_ge _ _)) by lia.
    rewrite (proj2 (Z.eqb_neq _ _)) by lia.
    rewrite !Nat2Z.id, drop_app_length, take_app_length. done.
  - rewrite <- length_app. intros (r & d & Hin & ? & ? & Hread)%IH.
    exists r, d. split; [by right|]. rewrite <- app_assoc in Hread. done.
Qed.

Lemma lines_of_written N tdt terms lines :
  Forall2 (fun t l => record_for N tdt t (fst l)
                      /\ line_bytes (fst l) = Some (snd l)) terms lines ->
  lines_of (List.map fst lines) = Some (concat (List.map snd lines))
  /\ List.map term (List.map fst lines) = terms.
Proof.
  induction 1 as [|t [record data] ts ls [[Ht _] Hl] _ [IH1 IH2]]; [done|].
  cbn in *. by rewrite Hl, IH1, IH2, Ht.
Qed.

Lemma written_line N tdt terms lines record data :
  Forall2 (fun t l => record_for N tdt t (fst l)
                      /\ line_bytes (fst l) = Some (snd l)) terms lines ->
  (record, data) ∈ lines ->
  term record ∈ terms
  /\ record_for N tdt (term record) record
  /\ line_bytes record = Some data.
Proof.
  intros Hl (i & Hi)%list_elem_of_lookup.
  destruct (Forall2_lookup_r _ _ _ _ _ Hl Hi) as (t & Ht & Hrec & Hline).
  cbn in *. pose proof Hrec as [<- _]. split; [|done].
  apply list_elem_of_lookup. by exists i.
Qed.

Lemma Forall2_posting_keys idf (docs : dict str Z) postings :
  Forall2 (posting_for idf) docs postings -> List.map fst postings = keys docs.
Proof.
  unfold keys. induction 1 as [|doc p docs ps [Hp _] _ IH]; [done|].
  cbn. by rewrite Hp, IH.
Qed.

Lemma Forall2_posting_elem idf (docs : dict str Z) postings d w :
  Forall2 (posting_for idf) docs postings -> (d, w) ∈ postings ->
  exists tf, (d, tf) ∈ docs /\ posting_for idf (d, tf) (d, w).
Proof.
  intros Hf (i & Hi)%list_elem_of_lookup.
  destruct (Forall2_lookup_r _ _ _ _ _ Hf Hi) as ([d' tf] & Hd & Hp).
  pose proof Hp as [Hfst _]. cbn in Hfst. subst d'.
  exists tf. split; [|done]. apply list_elem_of_lookup. by exists i.
Qed.

End Merged.

Lemma contribution_positive es t d e :
  Forall (fun e => 1 <= snd (snd e)) es ->
  e ∈ es -> fst e = t -> str_of (fst (snd e)) = d ->
  1 <= foldr Z.add 0 (List.map (contribution t d) es).
Proof.
  intros Hpos Hin Ht Hd.
  assert (Hnonneg : forall es', Forall (fun e => 1 <= snd (snd e)) es' ->
            0 <= foldr Z.add 0 (List.map (contribution t d) es')).
  { induction 1 as [|e' es' He' _ IH]; cbn; [lia|].
    unfold contribution at 1. case_decide; lia. }
  induction Hpos as [|e' es' He' Hes' IH]; [by apply elem_of_nil in Hin|].
  cbn. apply elem_of_cons in Hin as [<-|Hin].
  - unfold contribution at 1. rewrite decide_True by done.
    specialize (Hnonneg _ Hes'). lia.
  - specialize (IH Hin). unfold contribution at 1. case_decide; lia.
Qed.

(** C4. After a successful merge the norm table has exactly [N] entries,
    under distinct keys (so that it keeps its size through [doc_norms.json]),
    [N] being the (positive) number of documents used for the idf at merge
    time; hence the idf that the query engine computes from the size of the
    norm table is the idf of the merge, for every document frequency. *)
Theorem norm_table_size {libm : Libm} {json : Json} dir out :
  merge_blocks dir = Ok out ->
  Z.of_nat (List.length (doc_norms (out_index out))) = out_N out
  /\ NoDup (keys (doc_norms (out_index out)))
  /\ 0 < out_N out
  /\ forall df, QueryEngine.query_idf (out_index out) df = idf_of (out_N out) df.
Proof.
  intros Hm.
  assert (Hpos : 0 < out_N out).
  { revert Hm. unfold merge_blocks. destruct (block_files dir); [done|].
    destruct (aggregate_blocks _ _) as [[tdt ids]|]; cbn [bind]; [|done].
    destruct (Z.eqb_spec (Z.of_nat (size ids)) 0); [done|].
    destruct (write_terms _ _ _ _); cbn [bind]; [|done].
    destruct (norms_of _); cbn [bind]; [|done]. intros [= <-]. cbn. lia. }
  destruct (merge_blocks_spec _ _ Hm)
    as (tdt & ids & lines & _ & HN & _ & _ & _ & Hnd & Hel).
  assert (Hlen : Z.of_nat (List.length (doc_norms (out_index out))) = out_N out).
  { rewrite HN. f_equal. rewrite <- (length_map fst). fold (keys (doc_norms (out_index out))).
    apply Permutation_length, NoDup_Permutation; [done | apply NoDup_elements|].
    intros d. by rewrite Hel, elem_of_elements. }
  split; [done|]. split; [done|]. split; [done|].
  intros df. unfold QueryEngine.query_idf, idf_of. by rewrite Hlen.
Qed.

(** C5. After a successful merge, the offset and length of every dictionary
    entry locate in the postings store exactly the bytes of one line: the
    UTF-8 encoding of [json.dumps] of a record, followed by a newline,
    where the record's term is the dictionary key and its [df] is the [df]
    of the entry.  Where [json.loads] reads that line back as the record,
    [_read_postings] returns the postings of the record. *)
Theorem vocab_locates_record {libm : Libm} {json : Json} dir out t meta :
  merge_blocks dir = Ok out ->
  dict_get t (vocab (out_index out)) = Some meta ->
  exists record data,
    QueryEngine.read_at (inverted (out_index out))
      (meta_offset meta) (meta_length meta) = Ok data
    /\ line_bytes record = Some data
    /\ term record = t
    /\ df record = meta_df meta
    /\ (json_loads data = Some record ->
        QueryEngine._read_postings (out_index out) t
        = Ok (postings record, meta_length meta)).
Proof.
  intros Hm Hget.
  destruct (merge_blocks_spec _ _ Hm)
    as (tdt & ids & lines & _ & _ & Hlines & Hinv & Hvoc & _).
  rewrite Hvoc in Hget.
  destruct (layout_locates [] lines t meta Hget)
    as (record & data & Hin & Ht & Hdf & Hread).
  destruct (written_line _ _ _ _ _ _ Hlines Hin) as (_ & _ & Hline).
  exists record, data. rewrite Hinv.
  split; [done|]. split; [done|]. split; [done|]. split; [done|].
  intros Hloads. unfold QueryEngine._read_postings.
  rewrite Hvoc, Hget, Hinv. cbn in Hread. rewrite Hread. cbn.
  by rewrite Hloads.
Qed.

(** C6. The postings store does not depend on the order in which the
    operating system lists the directory (file names being unique), and
    its lines are the records of strictly increasing terms. *)
Theorem merge_deterministic {libm : Libm} {json : Json} dir1 dir2 :
  NoDup (List.map fst dir1) ->
  dir1 ≡ₚ dir2 ->
  merge_blocks dir1 = merge_blocks dir2
  /\ forall out, merge_blocks dir1 = Ok out ->
       exists records,
         lines_of records = Some (inverted (out_index out))
         /\ Sorted (fun a b => str_lt a b = true) (List.map term records).
Proof.
  intros Hnd Hp. split.
  - assert (Hfiles : block_files dir1 = block_files dir2).
    { unfold block_files, glob. apply sorted_key_Permutation.
      - apply (sublist_NoDup _ (List.map fst dir1)); [exact Hnd|].
        generalize dir1. intros l. induction l as [|f l IH]; cbn; [done|].
        destruct (matches_pattern (fst f)); cbn;
          [by apply sublist_skip | by apply sublist_cons].
      - by apply filter_Permutation. }
    unfold merge_blocks. by rewrite Hfiles.
  - intros out Hm.
    destruct (merge_blocks_spec _ _ Hm)
      as (tdt & ids & lines & Hagg & _ & Hlines & Hinv & _).
    destruct (lines_of_written _ _ _ _ Hlines) as [Hl Hterms].
    exists (List.map fst lines). rewrite Hinv, Hterms. split; [done|].
    apply sorted_str_strict. by destruct Hagg.
Qed.

(** C7. After a successful merge of blocks with positive frequencies, the
    [df] of a dictionary entry and of the record it locates is the number
    of postings of the record, whose document ids are distinct; and the
    weight of the posting of document [d] is
    [(1 + log10(tf)) * log10(N / df)], where [tf >= 1] is the sum of the
    frequencies of the (term, [d]) entries of all blocks. *)
Theorem posting_weights {libm : Libm} {json : Json} dir out t meta :
  merge_blocks dir = Ok out ->
  positive_tf dir ->
  dict_get t (vocab (out_index out)) = Some meta ->
  exists record data,
    QueryEngine.read_at (inverted (out_index out))
      (meta_offset meta) (meta_length meta) = Ok data
    /\ line_bytes record = Some data
    /\ term record = t
    /\ df record = meta_df meta
    /\ meta_df meta = Z.of_nat (List.length (postings record))
    /\ NoDup (List.map fst (postings record))
    /\ forall d w, (d, w) ∈ postings record ->
         let tf := cumulative_tf dir t d in
         1 <= tf
         /\ exists log_tf log_idf,
              math_log (float_of_int tf) ten = Ok log_tf
              /\ math_log
                   (PrimFloat.div (float_of_int (out_N out))
                      (float_of_int (meta_df meta))) ten = Ok log_idf
              /\ w = ((1 + log_tf) * log_idf)%float.
Proof.
  intros Hm Hpos Hget.
  destruct (merge_blocks_spec _ _ Hm)
    as (tdt & ids & lines & Hagg & _ & Hlines & Hinv & Hvoc & _).
  rewrite Hvoc in Hget.
  destruct (layout_locates [] lines t meta Hget)
    as (record & data & Hin & Ht & Hdf & Hread).
  destruct (written_line _ _ _ _ _ _ Hlines Hin) as (Hterm & Hrec & Hline).
  rewrite Ht in Hterm, Hrec. rewrite sorted_Permutation in Hterm.
  apply dict_get_is_Some in Hterm as [docs Hdocs].
  destruct Hrec as (_ & Hdfr & idf & Hidf & Hps).
  unfold dict_get_default in Hdfr, Hps. rewrite Hdocs in Hdfr, Hps.
  destruct Hagg as [_ Hd Htf Hocc _]. cbn [fst snd] in *.
  destruct (Hd _ _ Hdocs) as [Hnd Hne].
  exists record, data. rewrite Hinv.
  split; [done|]. split; [done|]. split; [done|]. split; [done|].
  split; [|split].
  - rewrite Hdf, Hdfr. f_equal. by apply Forall2_length in Hps.
  - by rewrite (Forall2_posting_keys _ _ _ Hps).
  - intros d w Hw. set (tf := cumulative_tf dir t d).
    destruct (Forall2_posting_elem _ _ _ _ _ Hps Hw)
      as (tf' & Hin' & _ & tfw & Htfw & Hwv).
    cbn [fst snd] in *.
    assert (Htf' : tf' = tf).
    { subst tf. unfold cumulative_tf. rewrite <- Htf.
      unfold dict_get_default. rewrite Hdocs.
      by rewrite (dict_get_elem _ _ _ Hnd Hin'). }
    subst tf'.
    assert (Hge : 1 <= tf).
    { destruct (Hocc t docs d Hdocs) as (e & He & Het & Hed).
      - apply list_elem_of_fmap. by exists (d, tf).
      - subst tf. unfold cumulative_tf. by eapply contribution_positive. }
    split; [done|].
    unfold tf_weight_of in Htfw. rewrite (proj2 (Z.ltb_lt 0 tf)) in Htfw by lia.
    destruct (math_log (float_of_int tf) ten) as [log_tf|]; [|done].
    cbn in Htfw. injection Htfw as <-.
    unfold idf_of in Hidf. rewrite Hdf.
    assert (Hdfpos : 0 < df record).
    { rewrite Hdfr. destruct docs; [done | cbn; lia]. }
    rewrite (proj2 (Z.ltb_lt 0 (df record))) in Hidf by done.
    by exists log_tf, idf.
Qed.

(** The block files are taken in increasing order of file name. *)
Lemma block_files_sorted (dir : directory) :
  NoDup (List.map fst dir) ->
  Sorted (fun a b => str_lt (fst a) (fst b) = true) (block_files dir).
Proof.
  intros Hnd. unfold block_files. apply (sorted_key_strict fst).
  apply (sublist_NoDup _ (List.map fst dir)); [exact Hnd|].
  unfold glob. induction dir as [|f l IH]; cbn; [done|].
  apply NoDup_cons in Hnd as [_ Hnd].
  destruct (matches_pattern (fst f)); cbn;
    [by apply sublist_skip, IH | by apply sublist_cons, IH].
Qed.

Section OnExamples.
Import Examples.
#[local] Existing Instances Reference.correctly_rounded Reference.python_json
  Reference.without_unidecode.

(** C3 on eleven blocks: the builder writes [block_0.json] to
    [block_10.json], one document each; the merge takes [block_10.json]
    third, not last, and the postings of "gat" come in that order, document
    10 before document 2. *)
Lemma block_order_lexicographic :
  fst (SPIMI.build_from_documents with_nltk TextPreprocessor.initial eleven 1)
  = Ok eleven_blocks
  /\ List.map fst eleven_blocks
     = List.map block_name [0; 1; 2; 3; 4; 5; 6; 7; 8; 9; 10]
  /\ List.map fst (block_files eleven_blocks)
     = List.map block_name [0; 1; 10; 2; 3; 4; 5; 6; 7; 8; 9]
  /\ merge_blocks eleven_blocks = Ok eleven_merged
  /\ List.map fst
       (QueryEngine.fetched_postings (out_index eleven_merged) (lit "gat"))
     = List.map str_of_int [0; 1; 10; 2; 3; 4; 5; 6; 7; 8; 9].
Proof. repeat split; vm_compute; reflexivity. Qed.

(** C4 at work: three documents, three norms. *)
Lemma norm_table_size_pets :
  merge_blocks pets_blocks = Ok pets_merged
  /\ out_N pets_merged = 3
  /\ Z.of_nat (List.length (doc_norms (out_index pets_merged)))
     = out_N pets_merged
  /\ NoDup (keys (doc_norms (out_index pets_merged)))
  /\ 0 < out_N pets_merged
  /\ forall df,
       QueryEngine.query_idf (out_index pets_merged) df
       = idf_of (out_N pets_merged) df.
Proof.
  split; [vm_compute; reflexivity|]. split; [reflexivity|].
  apply (norm_table_size pets_blocks pets_merged). vm_compute; reflexivity.
Defined.

(** C5 at work: the entry of "gat", and the record that the reference
    [json.loads] reads at its place. *)
Lemma vocab_locates_record_pets :
  dict_get (lit "gat") (vocab (out_index pets_merged))
  = Some {| meta_df := 2; meta_offset := 232; meta_length := 95 |}
  /\ QueryEngine._read_postings (out_index pets_merged) (lit "gat")
     = Ok ([(lit "1", 0x1.68a288b60b7fcp-3%float);
            (lit "3", 0x1.68a288b60b7fcp-3%float)], 95)
  /\ exists record data,
       QueryEngine.read_at (inverted (out_index pets_merged)) 232 95 = Ok data
       /\ line_bytes record = Some data
       /\ term record = lit "gat"
       /\ df record = 2
       /\ (json_loads data = Some record ->
           QueryEngine._read_postings (out_index pets_merged) (lit "gat")
           = Ok (postings record, 95)).
Proof.
  split; [vm_compute; reflexivity|]. split; [vm_compute; reflexivity|].
  apply (vocab_locates_record pets_blocks pets_merged (lit "gat")
           {| meta_df := 2; meta_offset := 232; meta_length := 95 |});
    vm_compute; reflexivity.
Defined.

(** C6 at work: the eleven blocks listed backwards. *)
Lemma merge_deterministic_eleven :
  merge_blocks eleven_blocks = merge_blocks (rev eleven_blocks)
  /\ forall out, merge_blocks eleven_blocks = Ok out ->
       exists records,
         lines_of records = Some (inverted (out_index out))
         /\ Sorted (fun a b => str_lt a b = true) (List.map term records).
Proof.
  apply (merge_deterministic eleven_blocks (rev eleven_blocks)).
  - apply (bool_decide_unpack (NoDup (List.map fst eleven_blocks))).
    vm_compute. exact I.
  - apply Permutation_rev.
Defined.

(** C7 at work: the record of "gat", in documents 1 and 3 out of three. *)
Lemma posting_weights_pets :
  positive_tf pets_blocks
  /\ exists record data,
       QueryEngine.read_at (inverted (out_index pets_merged)) 232 95 = Ok data
       /\ line_bytes record = Some data
       /\ term record = lit "gat"
       /\ df record = 2
       /\ 2 = Z.of_nat (List.length (postings record))
       /\ NoDup (List.map fst (postings record))
       /\ forall d w, (d, w) ∈ postings record ->
            let tf := cumulative_tf pets_blocks (lit "gat") d in
            1 <= tf
            /\ exists log_tf log_idf,
                 math_log (float_of_int tf) ten = Ok log_tf
                 /\ math_log
                      (PrimFloat.div (float_of_int (out_N pets_merged))
                         (float_of_int 2)) ten = Ok log_idf
                 /\ w = ((1 + log_tf) * log_idf)%float.
Proof.
  assert (Hpos : positive_tf pets_blocks).
  { unfold positive_tf.
    apply (bool_decide_unpack
             (Forall (fun e => 1 <= snd (snd e))
                (entries_of (block_files pets_blocks)))).
    vm_compute. exact I. }
  split; [exact Hpos|].
  apply (posting_weights pets_blocks pets_merged (lit "gat")
           {| meta_df := 2; meta_offset := 232; meta_length := 95 |});
    [vm_compute; reflexivity | exact Hpos | vm_compute; reflexivity].
Defined.

End OnExamples.

End MergeFacts.


(* ===================================================================== *)
(** * Part XV. Tokens, stems and resources                                 *)
(* ===================================================================== *)

Module TokenFacts.
Import Py TextPreprocessor TextFacts PyFacts.

Lemma str_join_cons (sep p : str) (parts : list str) :
  parts <> [] -> str_join sep (p :: parts) = p ++ sep ++ str_join sep parts.
Proof. by destruct parts. Qed.

Section Tokens.
Context {unicode : Unicode}.

(** *** The tokens of a normalised text *)

Lemma split_from_words b w s :
  words_from b s = true ->
  (if b then w = [] else w <> []) ->
  forallb is_lower_alnum w = true ->
  Forall (fun t => t <> [] /\ forallb is_lower_alnum t = true) (split_from w s)
  /\ split_from w s <> []
  /\ str_join [space] (split_from w s) = rev w ++ s.
Proof.
  revert b w. induction s as [|c s IH]; intros b w Hs Hw Hal.
  - destruct b; [done|]. cbn. destruct w as [|d w]; [done|].
    split; [|split; [done | by rewrite app_nil_r]].
    constructor; [|constructor]. split.
    + intros Hr. apply (f_equal (@List.length _)) in Hr.
      rewrite length_rev in Hr. done.
    + rewrite forallb_forall in *. intros x Hx. apply Hal. by apply in_rev.
  - rewrite words_from_cons in Hs. destruct (c =? space)%N eqn:Ec.
    + apply N.eqb_eq in Ec as ->. apply andb_true_iff in Hs as [Hb Hs].
      destruct b; [done|]. destruct w as [|d w]; [done|].
      cbn [split_from]. change (is_space space) with true. cbn iota.
      destruct (IH true [] Hs eq_refl eq_refl) as (Hall & Hne & Hj).
      split; [|split; [done|]].
      * constructor; [|done]. split.
        -- intros Hr. apply (f_equal (@List.length _)) in Hr.
           rewrite length_rev in Hr. done.
        -- rewrite forallb_forall in *. intros x Hx. apply Hal. by apply in_rev.
      * rewrite str_join_cons by done. by rewrite Hj.
    + apply andb_true_iff in Hs as [Hc Hs]. cbn [split_from].
      rewrite (lower_alnum_not_space _ Hc).
      destruct (IH false (c :: w) Hs) as (Hall & Hne & Hj); [done | |].
      { cbn. by rewrite Hc, Hal. }
      split; [done|]. split; [done|]. rewrite Hj. cbn. by rewrite <- app_assoc.
Qed.

Lemma tokenize_spec (text : option str) :
  Forall (fun t => t <> [] /\ forallb is_lower_alnum t = true) (tokenize text)
  /\ str_join [space] (tokenize text) = normalize_text text
  /\ (tokenize text = [] <-> normalize_text text = []).
Proof.
  unfold tokenize. pose proof (normalize_text_normal text) as Hn.
  destruct (normalize_text text) as [|c s] eqn:E; [by split|].
  unfold normal_form in Hn. unfold split.
  destruct (split_from_words true [] (c :: s) Hn eq_refl eq_refl) as (H1 & H0 & H2).
  done.
Qed.

(** *** Texts without tokens *)

Lemma blank_sub_spaces b s :
  forallb is_space s = true ->
  sub_spaces_from b s = [] \/ sub_spaces_from b s = [space].
Proof.
  revert b. induction s as [|c s IH]; intros b Hs; [by left|].
  cbn [forallb] in Hs. apply andb_true_iff in Hs as [Hc Hs].
  cbn [sub_spaces_from]. rewrite Hc.
  destruct b; [by apply IH|]. right.
  assert (Hrest : forall s', forallb is_space s' = true -> sub_spaces_from true s' = []).
  { clear. induction s' as [|d s' IH]; [done|]. cbn.
    intros [-> Hs]%andb_true_iff. by apply IH. }
  by rewrite Hrest.
Qed.

Lemma sub_spaces_keeps c b s :
  c ∈ s -> is_space c = false -> c ∈ sub_spaces_from b s.
Proof.
  intros Hin Hc. revert b. induction s as [|d s IH]; intros b;
    [by apply elem_of_nil in Hin|].
  cbn [sub_spaces_from]. apply elem_of_cons in Hin as [<-|Hin].
  - rewrite Hc. by left.
  - destruct (is_space d); [destruct b|]; try right; by apply IH.
Qed.

Lemma lstrip_keeps c s : c ∈ s -> is_space c = false -> c ∈ lstrip s.
Proof.
  intros Hin Hc. induction s as [|d s IH]; [done|]. cbn [lstrip].
  destruct (is_space d) eqn:Ed; [|done].
  apply elem_of_cons in Hin as [->|Hin]; [congruence | by apply IH].
Qed.

Lemma rstrip_keeps c s : c ∈ s -> is_space c = false -> c ∈ rstrip s.
Proof.
  intros Hin Hc. induction s as [|d s IH]; [done|]. cbn [rstrip].
  apply elem_of_cons in Hin as [<-|Hin].
  - destruct (rstrip s); [rewrite Hc|]; by left.
  - specialize (IH Hin). destruct (rstrip s) as [|e r]; [by apply elem_of_nil in IH|].
    by right.
Qed.

Lemma normalize_text_blank (s : str) :
  normalize_text (Some s) = []
  <-> Forall (fun c => is_lower_alnum c = false) (lower (unidecode s)).
Proof.
  unfold normalize_text. generalize (lower (unidecode s)). clear s. intros u.
  split.
  - intros Hn. apply Forall_forall. intros c Hc.
    destruct (is_lower_alnum c) eqn:Ec; [exfalso|done].
    assert (Hin : c ∈ strip (sub_spaces (sub_non_alnum u))).
    { pose proof (lower_alnum_not_space _ Ec) as Hsp.
      apply rstrip_keeps; [|done]. apply lstrip_keeps; [|done].
      apply sub_spaces_keeps; [|done].
      unfold sub_non_alnum. apply list_elem_of_fmap. exists c.
      by rewrite Ec. }
    rewrite Hn in Hin. by apply elem_of_nil in Hin.
  - intros Hu.
    assert (Hb : forallb is_space (sub_non_alnum u) = true).
    { induction Hu as [|c u Hc _ IH]; [done|].
      unfold sub_non_alnum in *. cbn [List.map forallb]. rewrite IH, andb_true_r.
      rewrite Hc. cbn. by destruct (is_space c) eqn:Ec. }
    unfold sub_spaces. by destruct (blank_sub_spaces false _ Hb) as [-> | ->].
Qed.

End Tokens.

(** X1. Every token that [tokenize] returns is a non-empty word of
    lowercase ASCII letters and digits, whatever the text and whatever the
    transliteration and case mapping do outside ASCII. *)
Theorem tokenize_words {unicode : Unicode} (text : option str) :
  Forall (fun t => t <> [] /\ forallb is_lower_alnum t = true) (tokenize text).
Proof. apply tokenize_spec. Qed.

(** X2. Joining the tokens of a text with single spaces gives back the
    normalised text, and tokenising that gives the same tokens again. *)
Theorem tokenize_join {unicode : Unicode} (text : option str) :
  str_join [space] (tokenize text) = normalize_text text
  /\ tokenize (Some (str_join [space] (tokenize text))) = tokenize text.
Proof.
  destruct (tokenize_spec text) as (_ & Hj & _). split; [done|]. rewrite Hj.
  unfold tokenize.
  by rewrite (normal_form_fixed _ (normalize_text_normal text)).
Qed.

(** X3. [tokenize] returns no token exactly when the text, transliterated
    and lowercased, has no character in [a-z0-9]. *)
Theorem tokenize_empty_iff {unicode : Unicode} (s : str) :
  tokenize (Some s) = []
  <-> Forall (fun c => is_lower_alnum c = false) (lower (unidecode s)).
Proof.
  rewrite <- normalize_text_blank. apply tokenize_spec.
Qed.

(** X4. On a text without any letter or digit, [preprocess] returns no
    token and [query] returns an empty result with zero bytes read, in
    every environment (also without NLTK), for every index and every [k],
    and the module globals are left as they were: no resource is loaded and
    the index is not touched. *)
Theorem query_without_tokens {libm : Libm} {json : IndexFiles.Json}
    {unicode : Unicode} env g (idx : IndexFiles.index) (s : str) (k : Z) :
  Forall (fun c => is_lower_alnum c = false) (lower (unidecode s)) ->
  preprocess env g (Some s) = (Ok [], g)
  /\ QueryEngine.query env g idx (Some s) k
     = (Ok {| QueryEngine.results := []; QueryEngine.bytes_read := 0 |}, g).
Proof.
  intros Hs. apply normalize_text_blank in Hs.
  assert (Hp : preprocess env g (Some s) = (Ok [], g)).
  { unfold preprocess. by rewrite (proj2 (proj2 (proj2 (tokenize_spec (Some s)))) Hs). }
  split; [done|]. unfold QueryEngine.query. by rewrite Hp.
Qed.

(** *** The heuristic stemmer *)

Lemma startswith_app s p : startswith s p = true -> exists r, s = p ++ r.
Proof.
  revert s. induction p as [|c p IH]; intros s; cbn.
  - intros _. by exists s.
  - destruct s as [|d s]; [done|].
    intros [Hc Hs]%andb_true_iff. apply bool_decide_eq_true in Hc as ->.
    destruct (IH _ Hs) as [r ->]. by exists r.
Qed.

Lemma endswith_take s p :
  endswith s p = true -> s = take (List.length s - List.length p) s ++ p.
Proof.
  unfold endswith. intros [r Hr]%startswith_app.
  assert (Hs : s = rev r ++ p).
  { rewrite <- (rev_involutive s), Hr, rev_app_distr. by rewrite rev_involutive. }
  rewrite Hs at 2. f_equal. rewrite Hs at 1 2. rewrite length_app.
  replace (List.length (rev r) + List.length p - List.length p)%nat
    with (List.length (rev r)) by lia.
  by rewrite take_app_length.
Qed.

Lemma strip_first_suffix_spec word suffixes w :
  strip_first_suffix word suffixes = Some w ->
  exists s, s ∈ suffixes /\ word = w ++ s /\ (3 <= List.length w)%nat.
Proof.
  induction suffixes as [|s rest IH]; cbn; [done|].
  destruct (endswith word s && _) eqn:E.
  - intros [= <-]. apply andb_true_iff in E as [He Hl].
    apply bool_decide_eq_true in Hl. exists s. split; [by left|].
    split; [by apply endswith_take|]. rewrite length_take. lia.
  - intros (s' & Hin & ?)%IH. exists s'. split; [by right | done].
Qed.

(** X5. [_simple_stem] only ever cuts one of its suffixes off the end of
    the word, and never leaves fewer than three characters of a word that
    has three (a shorter word is returned as it is). *)
Theorem simple_stem_suffix (word : str) :
  exists s,
    word = _simple_stem word ++ s
    /\ (s = [] \/ s ∈ noun_suffixes ++ verb_suffixes)
    /\ (Nat.min 3 (List.length word) <= List.length (_simple_stem word))%nat.
Proof.
  unfold _simple_stem. case_bool_decide as Hlen.
  { exists []. rewrite app_nil_r. split; [done|]. split; [by left | lia]. }
  destruct (strip_first_suffix word noun_suffixes) as [w|] eqn:En.
  { apply strip_first_suffix_spec in En as (s & Hin & Hw & Hl). exists s.
    split; [done|]. split; [|lia]. right. apply elem_of_app. by left. }
  destruct (strip_first_suffix word verb_suffixes) as [w|] eqn:Ev.
  { apply strip_first_suffix_spec in Ev as (s & Hin & Hw & Hl). exists s.
    split; [done|]. split; [|lia]. right. apply elem_of_app. by right. }
  exists []. rewrite app_nil_r. split; [done|]. split; [by left | lia].
Qed.

(** *** The module globals *)

(** X6. [_ensure_nltk_resources] never replaces a resource that is already
    loaded: a stopword set or a stemmer present before the call is the same
    after it, whether the call returns or raises; and when the call returns,
    a stopword set is loaded. *)
Theorem resources_kept {unicode : Unicode} (env : environment) (g : globals) :
  let r := fst (_ensure_nltk_resources env g) in
  let g' := snd (_ensure_nltk_resources env g) in
  (_stopwords g = None \/ _stopwords g' = _stopwords g)
  /\ (_stemmer g = None \/ _stemmer g' = _stemmer g)
  /\ (r = Ok tt /\ is_Some (_stopwords g') \/ exists e, r = Raise e).
Proof.
  unfold _ensure_nltk_resources, ensure_from_nltk.
  destruct g as [st sw]. cbn.
  destruct sw as [ws|], (custom_file env) as [[lines|]|], (nltk env) as [pkg|];
    cbn; eauto 8;
  destruct st as [f|]; cbn; eauto 8;
  try (destruct (snowball pkg) as [f|e]; cbn; eauto 8);
  destruct (stopwords_words pkg); cbn; eauto 8;
  destruct (download_then_words pkg); cbn; eauto 8.
Qed.

(** X7. Without NLTK, [preprocess] raises [RuntimeError] on every text
    that has a token, from any state of the module globals and whether or
    not a custom stopword file is there: the custom file spares
    [remove_stopwords] the NLTK lookup, but [stem_tokens] then asks for NLTK
    all the same. *)
Theorem preprocess_needs_nltk {unicode : Unicode} (env : environment)
    (g : globals) (text : option str) :
  nltk env = None ->
  tokenize text <> [] ->
  fst (preprocess env g text) = Raise RuntimeError.
Proof.
  intros Hn Ht. unfold preprocess.
  destruct (tokenize text) as [|t ts]; [done|].
  unfold remove_stopwords, stem_tokens, _ensure_nltk_resources, ensure_from_nltk.
  rewrite Hn. destruct g as [st [ws|]]; cbn; [done|].
  by destruct (custom_file env) as [[lines|]|].
Qed.

(** X8. The heuristic stemmer is what [stem_tokens] applies when it is the
    first to initialise the resources from a readable custom stopword file,
    NLTK being absent; the next call of [stem_tokens] raises
    [RuntimeError]. *)
Theorem simple_stem_first_call {unicode : Unicode} (env : environment)
    (g : globals) (lines : list str) (tokens tokens' : list str) :
  nltk env = None ->
  custom_file env = Some (Some lines) ->
  _stopwords g = None ->
  _stemmer g = None ->
  exists g',
    stem_tokens env g tokens = (Ok (List.map _simple_stem tokens), g')
    /\ fst (stem_tokens env g' tokens') = Raise RuntimeError.
Proof.
  intros Hn Hc Hsw Hst. destruct g as [st sw]. cbn in *. subst.
  unfold stem_tokens, _ensure_nltk_resources, ensure_from_nltk.
  rewrite Hc. cbn. eexists. split; [done|]. cbn. by rewrite Hn.
Qed.

(** *** [strip], [split] and [join] *)

Section Strip.
Context {unicode : Unicode}.

Lemma split_from_blank w c s1 s2 :
  is_space c = true ->
  split_from w (s1 ++ c :: s2) = split_from w s1 ++ split_from [] s2.
Proof.
  intros Hc. revert w. induction s1 as [|d s1 IH]; intros w;
    cbn [split_from app].
  - rewrite Hc. by destruct w.
  - destruct (is_space d); [|apply IH]. destruct w; by rewrite IH.
Qed.

Lemma split_lstrip s : split_from [] (lstrip s) = split_from [] s.
Proof.
  induction s as [|c s IH]; [done|]. cbn [lstrip split_from].
  destruct (is_space c) eqn:Ec; [done|]. cbn [split_from]. by rewrite Ec.
Qed.

Lemma split_rstrip w s : split_from w (rstrip s) = split_from w s.
Proof.
  revert w. induction s as [|c s IH]; intros w; [done|]. cbn [rstrip].
  destruct (rstrip s) as [|d r] eqn:Er.
  - cbn [split_from]. destruct (is_space c) eqn:Ec.
    + destruct w; by rewrite <- IH.
    + cbn [split_from]. rewrite Ec, <- IH. done.
  - cbn [split_from]. destruct (is_space c); [destruct w|]; by rewrite <- IH.
Qed.

Lemma split_strip s : split (strip s) = split s.
Proof. unfold split, strip. by rewrite split_rstrip, split_lstrip. Qed.

Lemma lstrip_head s c r : lstrip s = c :: r -> is_space c = false.
Proof.
  induction s as [|d s IH]; [done|]. cbn. destruct (is_space d) eqn:Ed; [done|].
  by intros [= <- _].
Qed.

Lemma rstrip_last s :
  rstrip s = [] \/ exists r c, rstrip s = r ++ [c] /\ is_space c = false.
Proof.
  induction s as [|d s IH]; [by left|]. cbn [rstrip].
  destruct IH as [-> | (r & c & -> & Hc)].
  - destruct (is_space d) eqn:Ed; [by left|]. right. by exists [], d.
  - right. destruct (r ++ [c]) as [|x y] eqn:E; [by destruct r|].
    rewrite <- E. by exists (d :: r), c.
Qed.

Lemma rstrip_head c s : is_space c = false -> exists r, rstrip (c :: s) = c :: r.
Proof. intros Hc. cbn. destruct (rstrip s); rewrite ?Hc; eauto. Qed.

Lemma strip_trimmed s : strip s <> [] -> trimmed (strip s).
Proof.
  unfold strip. intros Hne. split.
  - destruct (lstrip s) as [|c r] eqn:El; [done|].
    pose proof (lstrip_head _ _ _ El) as Hc.
    destruct (rstrip_head c r Hc) as [r' ->]. eauto.
  - by destruct (rstrip_last (lstrip s)) as [?|?].
Qed.

Lemma trimmed_strip s : trimmed s -> strip s = s.
Proof.
  intros [(c & r & -> & Hc) (r' & c' & Hs & Hc')]. unfold strip. cbn [lstrip].
  rewrite Hc, Hs. clear Hs Hc. induction r' as [|d r' IH]; cbn.
  - by rewrite Hc'.
  - cbn in IH. rewrite IH. by destruct r'.
Qed.

Lemma trimmed_join a b : trimmed a -> trimmed b -> trimmed (a ++ [space] ++ b).
Proof.
  intros [(c & r & -> & Hc) _] [_ (r' & c' & -> & Hc')]. split.
  - by exists c, (r ++ [space] ++ r' ++ [c']).
  - exists ((c :: r) ++ [space] ++ r'), c'. by rewrite <- !app_assoc.
Qed.

Lemma join_trimmed parts :
  Forall trimmed parts -> parts <> [] -> trimmed (str_join [space] parts).
Proof.
  induction 1 as [|p parts Hp Hparts IH]; [done|]. intros _.
  destruct parts as [|q parts]; [done|].
  change (str_join [space] (p :: q :: parts))
    with (p ++ [space] ++ str_join [space] (q :: parts)).
  apply trimmed_join; [done | by apply IH].
Qed.

Lemma split_join parts :
  split (str_join [space] parts) = concat (List.map split parts).
Proof.
  induction parts as [|p parts IH]; [done|].
  destruct parts as [|q parts]; [cbn; by rewrite app_nil_r|].
  change (str_join [space] (p :: q :: parts))
    with (p ++ space :: str_join [space] (q :: parts)).
  unfold split in *. rewrite split_from_blank by done. by rewrite IH.
Qed.

Lemma concat_series_text_parts (values : list value) :
  concat_series_text values
  = str_join [space]
      (List.map (fun v => strip (str_of_value v)) (List.filter kept_field values)).
Proof.
  unfold concat_series_text. f_equal.
  assert (H : forall parts,
    fold_left
      (fun parts v =>
         match v with
         | VNone => parts
         | _ =>
             let s := strip (str_of_value v) in
             if negb (bool_decide (s = []))
                && negb (bool_decide (lower s ∈ [lit "nan"; lit "none"]))
             then parts ++ [s]
             else parts
         end) values parts
    = parts ++ List.map (fun v => strip (str_of_value v))
                 (List.filter kept_field values)).
  { induction values as [|v vs IH]; intros parts; cbn [fold_left List.filter List.map].
    - by rewrite app_nil_r.
    - rewrite IH. destruct v; cbn [kept_field]; try done;
        destruct (_ && _); cbn [List.map]; try done; by rewrite <- app_assoc. }
  apply (H []).
Qed.

End Strip.

(** X9. The text that [concat_series_text] builds has no blank at either
    end, and its words are the words of the fields kept, field after field:
    nothing is taken from a field that is [None], blank, or [nan] or [none]
    in any case, and no two fields run into one word. *)
Theorem concat_series_text_words {unicode : Unicode} (values : list value) :
  strip (concat_series_text values) = concat_series_text values
  /\ split (concat_series_text values)
     = concat (List.map (fun v => split (str_of_value v))
                 (List.filter kept_field values)).
Proof.
  rewrite concat_series_text_parts. split.
  - destruct (List.filter kept_field values) as [|v vs] eqn:E; [done|].
    rewrite <- E. apply trimmed_strip, join_trimmed.
    + apply Forall_fmap, Forall_forall. intros x Hx. cbn.
      apply list_elem_of_In, filter_In in Hx as [_ Hx].
      apply strip_trimmed. destruct x; cbn in Hx; try done;
        apply andb_true_iff in Hx as [Hx _];
        by apply negb_true_iff, bool_decide_eq_false in Hx.
    + rewrite E. done.
  - rewrite split_join, List.map_map. f_equal. apply List.map_ext.
    intros v. apply split_strip.
Qed.

(** X10. For a length that is not negative, a snippet has at most
    [length + 3] characters, and up to [length] it is the text, stripped
    (nothing, for a value that counts as false). *)
Theorem snippet_length {unicode : Unicode} (text : value) (length : Z) :
  0 <= length ->
  Z.of_nat (List.length (QueryRunner.snippet text length)) <= length + 3
  /\ take (Z.to_nat length) (QueryRunner.snippet text length)
     = take (Z.to_nat length)
         (if truthy text then strip (str_of_value text) else []).
Proof.
  intros Hl. unfold QueryRunner.snippet.
  destruct (truthy text); cbn [negb]; [|cbn; split; [lia | done]].
  set (s := strip (str_of_value text)).
  destruct (Z.ltb_spec length (Z.of_nat (List.length s))) as [Hlt|Hge].
  - unfold slice_to. rewrite (proj2 (Z.ltb_ge length 0)) by lia.
    rewrite length_app, length_take. cbn [List.length lit List.map list_ascii_of_string].
    split; [lia|]. rewrite take_app_le by (rewrite length_take; lia).
    by rewrite take_take, Nat.min_id.
  - split; [lia | done].
Qed.

(** X11. The term frequencies that [query] counts ([q_tf]) and those of
    the block builder ([Counter(tokens)]) are the same table: its keys are
    the distinct tokens, and each token is mapped to the number of its
    occurrences. *)
Theorem count_tokens_counts (tokens : list str) (t : str) :
  NoDup (keys (QueryEngine.count_tokens tokens))
  /\ (t ∈ keys (QueryEngine.count_tokens tokens) <-> t ∈ tokens)
  /\ dict_get_default t 0 (QueryEngine.count_tokens tokens)
     = Z.of_nat (List.length (List.filter (fun x => bool_decide (x = t)) tokens))
  /\ SPIMI.counter tokens = QueryEngine.count_tokens tokens.
Proof.
  destruct (QueryFacts.count_tokens_keys_from tokens [] (NoDup_nil_2)) as [Hnd Hel].
  split; [done|]. split.
  { unfold QueryEngine.count_tokens. rewrite Hel. cbn. rewrite elem_of_nil. tauto. }
  split; [|done]. unfold QueryEngine.count_tokens.
  assert (H : forall q_tf : dict str Z,
    dict_get_default t 0
      (fold_left (fun q_tf t => dict_set t (dict_get_default t 0 q_tf + 1) q_tf)
         tokens q_tf)
    = dict_get_default t 0 q_tf
      + Z.of_nat (List.length (List.filter (fun x => bool_decide (x = t)) tokens))).
  { clear. induction tokens as [|x tokens IH]; intros q_tf;
      cbn [fold_left List.filter].
    - cbn. lia.
    - rewrite IH. case_bool_decide as Hx.
      + subst x. unfold dict_get_default at 1. rewrite dict_get_set_eq.
        cbn [List.length]. lia.
      + unfold dict_get_default at 1. rewrite dict_get_set_ne by done.
        fold (dict_get_default t 0 q_tf). lia. }
  rewrite H. done.
Qed.

Section OnExamples.
Import Examples.
#[local] Existing Instances Reference.tabulated Reference.python_json
  Reference.without_unidecode.

(** X4 at work: a query of punctuation, without NLTK. *)
Lemma query_without_tokens_bare :
  preprocess bare initial (Some (lit "?! ...")) = (Ok [], initial)
  /\ QueryEngine.query bare initial (MergeBlocks.out_index pets_merged)
       (Some (lit "?! ...")) 10
     = (Ok {| QueryEngine.results := []; QueryEngine.bytes_read := 0 |}, initial).
Proof.
  apply (query_without_tokens bare initial (MergeBlocks.out_index pets_merged)
           (lit "?! ...") 10).
  apply (bool_decide_unpack
           (Forall (fun c => is_lower_alnum c = false)
              (lower (unidecode (lit "?! ..."))))).
  vm_compute. exact I.
Defined.

(** X7 at work: a custom word list, no NLTK. *)
Lemma preprocess_needs_nltk_custom :
  fst (preprocess custom_only initial (Some (lit "el gato"))) = Raise RuntimeError.
Proof.
  apply (preprocess_needs_nltk custom_only initial (Some (lit "el gato"))).
  - reflexivity.
  - vm_compute. discriminate.
Defined.

(** X8 at work: "cantando" is stemmed to "cant" by the first call. *)
Lemma simple_stem_first_call_custom :
  List.map _simple_stem [lit "cantando"; lit "gato"] = [lit "cant"; lit "gato"]
  /\ exists g',
       stem_tokens custom_only initial [lit "cantando"; lit "gato"]
       = (Ok (List.map _simple_stem [lit "cantando"; lit "gato"]), g')
       /\ fst (stem_tokens custom_only g' [lit "gato"]) = Raise RuntimeError.
Proof.
  split; [vm_compute; reflexivity|].
  apply (simple_stem_first_call custom_only initial
           [lit "el"; lit "la"; lit "# comentario"; lit "Y"]
           [lit "cantando"; lit "gato"] [lit "gato"]); reflexivity.
Defined.

(** X10 at work: a title cut after five characters. *)
Lemma snippet_length_title :
  QueryRunner.snippet (VStr (lit "  El gato duerme ")) 5 = lit "El ga..."
  /\ Z.of_nat (List.length (QueryRunner.snippet (VStr (lit "  El gato duerme ")) 5))
     <= 5 + 3
  /\ take (Z.to_nat 5) (QueryRunner.snippet (VStr (lit "  El gato duerme ")) 5)
     = take (Z.to_nat 5)
         (if truthy (VStr (lit "  El gato duerme "))
          then strip (str_of_value (VStr (lit "  El gato duerme "))) else []).
Proof.
  split; [vm_compute; reflexivity|].
  apply (snippet_length (VStr (lit "  El gato duerme ")) 5). lia.
Defined.

End OnExamples.

End TokenFacts.


(* ===================================================================== *)
(** * Part XVI. Errors and layout of the merge                             *)
(* ===================================================================== *)

Module MergeMore.
Import Py IndexFiles MergeBlocks PyFacts MergeFacts.

(** ** Every entry leaves its mark *)

Lemma step_keeps (acc : aggregate) (e : str * (doc_id_value * Z)) t d :
  (exists docs, dict_get t (fst acc) = Some docs /\ d ∈ keys docs) ->
  exists docs, dict_get t (fst (step acc e)) = Some docs /\ d ∈ keys docs.
Proof.
  destruct acc as [tdt ids], e as [t' [id tf]]. unfold step, add_posting.
  cbn [fst snd]. intros (docs & Hget & Hd).
  destruct (decide (t' = t)) as [->|Hne].
  - rewrite dict_get_set_eq. eexists. split; [done|].
    apply elem_of_keys_dict_set. right. unfold dict_get_default. by rewrite Hget.
  - rewrite dict_get_set_ne by done. eauto.
Qed.

Lemma step_records (acc : aggregate) (e : str * (doc_id_value * Z)) :
  exists docs, dict_get (fst e) (fst (step acc e)) = Some docs
               /\ str_of (fst (snd e)) ∈ keys docs.
Proof.
  destruct acc as [tdt ids], e as [t [id tf]]. unfold step, add_posting.
  cbn [fst snd]. rewrite dict_get_set_eq. eexists. split; [done|].
  apply elem_of_keys_dict_set. by left.
Qed.

Lemma fold_step_records es acc e :
  e ∈ es ->
  exists docs, dict_get (fst e) (fst (fold_left step es acc)) = Some docs
               /\ str_of (fst (snd e)) ∈ keys docs.
Proof.
  assert (Hkeep : forall es acc t d,
            (exists docs, dict_get t (fst acc) = Some docs /\ d ∈ keys docs) ->
            exists docs, dict_get t (fst (fold_left step es acc)) = Some docs
                         /\ d ∈ keys docs).
  { clear. induction es as [|e es IH]; intros acc t d H; [done|]. cbn.
    by apply IH, step_keeps. }
  revert acc. induction es as [|e' es IH]; intros acc Hin;
    [by apply elem_of_nil in Hin|].
  cbn. apply elem_of_cons in Hin as [->|Hin]; [|by apply IH].
  apply Hkeep, step_records.
Qed.

(** ** What can be raised *)

Section Errors.
Context {libm : Libm} {json : Json}.











(** ** The records and the dictionary *)

(** The records written by a successful merge, with what the dictionary
    and the norm table hold about them. *)
Lemma merged_records dir out :
  merge_blocks dir = Ok out ->
  exists tdt doc_ids lines,
    fold_left step (entries_of (block_files dir)) ([], ∅) = (tdt, doc_ids)
    /\ aggregated (entries_of (block_files dir)) (tdt, doc_ids)
    /\ out_N out = Z.of_nat (size doc_ids)
    /\ inverted (out_index out) = concat (List.map snd lines)
    /\ vocab (out_index out) = layout 0 lines
    /\ keys (vocab (out_index out)) = sorted str_lt (keys tdt)
    /\ lines_of (List.map fst lines) = Some (inverted (out_index out))
    /\ (forall d, d ∈ keys (doc_norms (out_index out)) <-> d ∈ doc_ids)
    /\ Forall (fun l =>
                 exists docs,
                   dict_get (term (fst l)) tdt = Some docs
                   /\ df (fst l) = Z.of_nat (List.length docs)
                   /\ List.map fst (postings (fst l)) = keys docs
                   /\ line_bytes (fst l) = Some (snd l)) lines.
Proof.
  intros Hm.
  assert (exists tdt ids lines,
    fold_left step (entries_of (block_files dir)) ([], ∅) = (tdt, ids)
    /\ aggregated (entries_of (block_files dir)) (tdt, ids)
    /\ out_N out = Z.of_nat (size ids)
    /\ Forall2 (fun t l => record_for (out_N out) tdt t (fst l)
                           /\ line_bytes (fst l) = Some (snd l))
         (sorted str_lt (keys tdt)) lines
    /\ inverted (out_index out) = concat (List.map snd lines)
    /\ vocab (out_index out) = layout 0 lines
    /\ (forall d, d ∈ keys (doc_norms (out_index out)) <-> d ∈ ids))
    as (tdt & ids & lines & Hfold & Hagg & HN & Hlines & Hinv & Hvoc & Hel).
  { revert Hm. unfold merge_blocks.
    destruct (block_files dir) as [|f files] eqn:Hfiles; [done|].
    destruct (aggregate_blocks (f :: files) _) as [[tdt ids]|] eqn:Hagg;
      cbn [bind]; [|done].
    pose proof (aggregate_blocks_entries _ _ _ Hagg) as Hfold.
    apply aggregate_blocks_aggregated in Hagg.
    destruct (Z.of_nat (size ids) =? 0); [done|].
    destruct (write_terms _ tdt _ _) as [w|] eqn:Hw; cbn [bind]; [|done].
    apply write_terms_spec in Hw as (lines & Hlines & Hinv & Hvoc & Hnd & Hel).
    cbn in Hinv, Hvoc, Hnd, Hel.
    destruct (norms_of (w_doc_sq_sums w)) as [norms|] eqn:Hn; cbn [bind]; [|done].
    intros [= <-]. cbn [out_index out_N inverted vocab doc_norms].
    exists tdt, ids, lines. split; [done|]. split; [done|]. split; [done|].
    split; [done|]. split; [done|].
    pose proof Hagg as [Ht Hd Htf Hocc Hids]. cbn [fst snd] in *.
    rewrite (norms_of_keys _ _ Hn). split.
    - rewrite Hvoc. rewrite fold_dict_set_fresh; [done| |].
      + rewrite (keys_layout _ _ _ _ _ Hlines). by rewrite sorted_Permutation.
      + intros k _. apply not_elem_of_nil.
    - intros d. rewrite Hel, Hids. split.
      + intros [?%elem_of_nil|(t & Ht' & Hin)]; [done|].
        unfold dict_get_default in Hin.
        destruct (dict_get t tdt) as [docs|] eqn:E; [|by apply elem_of_nil in Hin].
        by exists t, docs.
      + intros (t & docs & E & Hin). right. exists t. split.
        * rewrite sorted_Permutation. apply dict_get_is_Some. by rewrite E.
        * unfold dict_get_default. by rewrite E. }
  exists tdt, ids, lines. split; [done|]. split; [done|]. split; [done|].
  split; [done|]. split; [done|].
  split; [by rewrite Hvoc, (keys_layout _ _ _ _ _ Hlines)|].
  split; [rewrite Hinv; by destruct (lines_of_written _ _ _ _ Hlines)|].
  split; [done|]. apply Forall_forall. intros [record data] Hin.
  destruct (written_line _ _ _ _ _ _ Hlines Hin) as (Hterm & Hrec & Hline).
  rewrite sorted_Permutation in Hterm.
  apply dict_get_is_Some in Hterm as [docs Hdocs].
  destruct Hrec as (_ & Hdf & idf & _ & Hps).
  unfold dict_get_default in Hdf, Hps. rewrite Hdocs in Hdf, Hps.
  exists docs. cbn. split; [done|]. split; [done|].
  split; [by eapply Forall2_posting_keys | done].
Qed.

Lemma utf8_char_not_nil c b : utf8_char c = Some b -> b <> [].
Proof. unfold utf8_char. repeat case_match; by intros [= <-]. Qed.

Lemma utf8_encode_length s b :
  utf8_encode s = Some b -> (List.length s <= List.length b)%nat.
Proof.
  revert b. induction s as [|c s IH]; intros b; cbn; [intros [= <-]; done|].
  destruct (utf8_char c) as [bc|] eqn:Ec; [|done].
  destruct (utf8_encode s) as [bs|]; [|done]. intros [= <-].
  apply utf8_char_not_nil in Ec. specialize (IH _ eq_refl).
  rewrite length_app. destruct bc; [done|]. cbn. lia.
Qed.

Lemma line_bytes_not_nil record data :
  line_bytes record = Some data -> (0 < List.length data)%nat.
Proof.
  unfold line_bytes. intros H%utf8_encode_length.
  rewrite length_app in H. cbn in H. lia.
Qed.

Lemma layout_contiguous offset lines :
  Forall (fun l : posting_record * list byte => (0 < List.length (snd l))%nat)
    lines ->
  contiguous (Z.of_nat offset) (values (layout offset lines))
    (Z.of_nat (offset + List.length (concat (List.map snd lines)))).
Proof.
  intros Hl. revert offset. induction Hl as [|[record data] lines Hd _ IH];
    intros offset; cbn.
  - f_equal. lia.
  - split; [done|]. split; [cbn in Hd; lia|]. rewrite length_app.
    specialize (IH (offset + List.length data)%nat).
    rewrite Nat2Z.inj_add in IH. unfold values in IH.
    by rewrite Nat.add_assoc.
Qed.

End Errors.


(** X13. After a successful merge the keys of the dictionary are in
    strictly increasing order (as strings), and they are exactly the terms
    that have a posting in some block file: a term whose posting list is
    empty in every block gets no entry. *)
Theorem vocab_terms {libm : Libm} {json : Json} dir out :
  merge_blocks dir = Ok out ->
  Sorted (fun a b => str_lt a b = true) (keys (vocab (out_index out)))
  /\ forall t, t ∈ keys (vocab (out_index out))
               <-> exists e, e ∈ entries_of (block_files dir) /\ fst e = t.
Proof.
  intros (tdt & ids & lines & Hfold & Hagg & _ & _ & _ & Hkeys & _)%merged_records.
  rewrite Hkeys. split; [apply sorted_str_strict, (agg_terms _ _ Hagg)|].
  intros t. rewrite sorted_Permutation. split.
  - intros [docs Hdocs]%dict_get_is_Some.
    destruct (agg_docs _ _ Hagg t docs Hdocs) as [_ Hne].
    destruct docs as [|[d tf] docs]; [done|].
    destruct (agg_occurs _ _ Hagg t _ d Hdocs) as (e & He & Ht & _); [by left|].
    by exists e.
  - intros (e & He & <-).
    destruct (fold_step_records _ ([], ∅) e He) as (docs & Hget & _).
    rewrite Hfold in Hget. cbn in Hget. apply dict_get_is_Some. by rewrite Hget.
Qed.

(** X14. After a successful merge, the document frequency of every
    dictionary entry lies between 1 and the number [N] of documents, so
    that the idf is the logarithm of a quotient that is at least one. *)
Theorem df_bounds {libm : Libm} {json : Json} dir out t meta :
  merge_blocks dir = Ok out ->
  dict_get t (vocab (out_index out)) = Some meta ->
  1 <= meta_df meta <= out_N out.
Proof.
  intros (tdt & ids & lines & _ & Hagg & HN & _ & Hvoc & _ & _ & _ & Hl)%merged_records
    Hget.
  rewrite Hvoc in Hget.
  destruct (layout_locates [] lines t meta Hget)
    as (record & data & Hin & Ht & Hdf & _).
  rewrite Forall_forall in Hl.
  destruct (Hl _ Hin) as (docs & Hdocs & Hdfr & _). cbn in *.
  destruct (agg_docs _ _ Hagg _ _ Hdocs) as [Hnd Hne]. cbn in *.
  rewrite Hdf, Hdfr, HN. split; [destruct docs; [done | cbn; lia]|].
  apply inj_le. rewrite <- (length_map fst). fold (keys docs).
  change (size ids) with (List.length (elements ids)).
  apply submseteq_length, NoDup_submseteq; [done|].
  intros d Hd. apply elem_of_elements, (agg_ids _ _ Hagg). cbn. eauto.
Qed.

(** X15. After a successful merge, the documents of the norm table are
    exactly the documents that occur in the postings of the records
    written: every document of a posting has its norm, and no norm is
    stored for a document without posting. *)
Theorem norms_cover_postings {libm : Libm} {json : Json} dir out :
  merge_blocks dir = Ok out ->
  exists records,
    lines_of records = Some (inverted (out_index out))
    /\ forall d, d ∈ keys (doc_norms (out_index out))
                 <-> exists r, r ∈ records /\ d ∈ List.map fst (postings r).
Proof.
  intros (tdt & ids & lines & _ & Hagg & _ & _ & Hvoc & Hkeys & Hlines & Hel & Hl)%merged_records.
  exists (List.map fst lines). split; [done|]. intros d. rewrite Hel.
  rewrite Forall_forall in Hl. rewrite (agg_ids _ _ Hagg). cbn [fst snd]. split.
  - intros (t & docs & Hdocs & Hd).
    assert (Ht : t ∈ keys (layout 0 lines)).
    { rewrite <- Hvoc, Hkeys, sorted_Permutation. apply dict_get_is_Some.
      by rewrite Hdocs. }
    apply dict_get_is_Some in Ht as [meta Hmeta].
    destruct (layout_locates [] lines t meta Hmeta)
      as (record & data & Hin & Ht & _).
    destruct (Hl _ Hin) as (docs' & Hdocs' & _ & Hps & _). cbn in *.
    rewrite Ht, Hdocs in Hdocs'. injection Hdocs' as <-.
    exists record. split; [|by rewrite Hps].
    apply list_elem_of_fmap. by exists (record, data).
  - intros (r & ([record data] & -> & Hin)%list_elem_of_fmap & Hd).
    destruct (Hl _ Hin) as (docs & Hdocs & _ & Hps & _). cbn in *.
    rewrite Hps in Hd. eauto.
Qed.

(** X16. After a successful merge, the entries of the dictionary, taken in
    order, tile the postings store: the first record starts at offset 0,
    each record starts where the previous one ends, no record is empty, and
    the last one ends at the end of the file. *)
Theorem records_tile_file {libm : Libm} {json : Json} dir out :
  merge_blocks dir = Ok out ->
  contiguous 0 (values (vocab (out_index out)))
    (Z.of_nat (List.length (inverted (out_index out)))).
Proof.
  intros (tdt & ids & lines & _ & _ & _ & Hinv & Hvoc & _ & _ & _ & Hl)%merged_records.
  rewrite Hinv, Hvoc. apply (layout_contiguous 0).
  eapply Forall_impl; [exact Hl|]. intros [record data] (docs & _ & _ & _ & Hline).
  by eapply line_bytes_not_nil.
Qed.

Section OnExamples.
Import Examples.
#[local] Existing Instances Reference.tabulated Reference.python_json
  Reference.without_unidecode.

(** X13 at work: the five stems of the three documents about pets. *)
Lemma vocab_terms_pets :
  keys (vocab (out_index pets_merged))
  = [lit "carn"; lit "com"; lit "duerm"; lit "gat"; lit "perr"; lit "pesc"]
  /\ Sorted (fun a b => str_lt a b = true) (keys (vocab (out_index pets_merged)))
  /\ forall t, t ∈ keys (vocab (out_index pets_merged))
               <-> exists e, e ∈ entries_of (block_files pets_blocks) /\ fst e = t.
Proof.
  split; [vm_compute; reflexivity|].
  apply (vocab_terms pets_blocks pets_merged). vm_compute; reflexivity.
Defined.

(** X14 at work: "gat" is in two of the three documents. *)
Lemma df_bounds_pets : 1 <= 2 <= out_N pets_merged.
Proof.
  apply (df_bounds pets_blocks pets_merged (lit "gat")
           {| meta_df := 2; meta_offset := 232; meta_length := 95 |});
    vm_compute; reflexivity.
Defined.

(** X15 at work: the three documents about pets. *)
Lemma norms_cover_postings_pets :
  keys (doc_norms (out_index pets_merged)) = [lit "2"; lit "1"; lit "3"]
  /\ exists records,
       lines_of records = Some (inverted (out_index pets_merged))
       /\ forall d, d ∈ keys (doc_norms (out_index pets_merged))
                    <-> exists r, r ∈ records /\ d ∈ List.map fst (postings r).
Proof.
  split; [vm_compute; reflexivity|].
  apply (norms_cover_postings pets_blocks pets_merged). vm_compute; reflexivity.
Defined.

(** X16 at work: the six records of the example, 463 bytes in all. *)
Lemma records_tile_file_pets :
  List.length (inverted (out_index pets_merged)) = 463%nat
  /\ contiguous 0 (values (vocab (out_index pets_merged)))
       (Z.of_nat (List.length (inverted (out_index pets_merged)))).
Proof.
  split; [vm_compute; reflexivity|].
  apply (records_tile_file pets_blocks pets_merged). vm_compute; reflexivity.
Defined.

End OnExamples.

End MergeMore.


(* ===================================================================== *)
(** * Part XVII. Properties of the block builder                           *)
(* ===================================================================== *)

Module BuildFacts.
Import Py IndexFiles MergeBlocks SPIMI PyFacts MergeFacts MergeMore.

(** ** Dictionaries whose values satisfy a predicate *)

Lemma Forall_values_dict_set {K V} `{EqDecision K} (P : V -> Prop) (k : K)
    (v : V) (d : dict K V) :
  Forall (fun kv => P (snd kv)) d -> P v ->
  Forall (fun kv => P (snd kv)) (dict_set k v d).
Proof.
  intros Hd Hv. induction Hd as [|[k' v'] d Hkv Hd IH]; cbn.
  - by repeat constructor.
  - destruct (decide (k = k')); constructor; done.
Qed.

Lemma Forall_values_get_default {K V} `{EqDecision K} (P : V -> Prop) (k : K)
    (v : V) (d : dict K V) :
  Forall (fun kv => P (snd kv)) d -> P v -> P (dict_get_default k v d).
Proof.
  intros Hd Hv. unfold dict_get_default.
  destruct (dict_get k d) as [v'|] eqn:E; [|done].
  apply dict_get_Some in E. rewrite Forall_forall in Hd. by apply (Hd (k, v')).
Qed.

(** ** Frequencies *)

Lemma counter_positive (tokens : list str) :
  Forall (fun kv => 1 <= snd kv) (counter tokens).
Proof.
  unfold counter.
  assert (H : forall tf : dict str Z,
             Forall (fun kv => 1 <= snd kv) tf ->
             Forall (fun kv => 1 <= snd kv)
               (fold_left (fun tf t => dict_set t (dict_get_default t 0 tf + 1) tf)
                  tokens tf)).
  { induction tokens as [|t ts IH]; intros tf Htf; [done|]. cbn. apply IH.
    apply (Forall_values_dict_set (fun v => 1 <= v)); [done|].
    assert (0 <= dict_get_default t 0 tf); [|lia].
    apply (Forall_values_get_default (fun v => 0 <= v)); [|lia].
    eapply Forall_impl; [exact Htf|]. cbn. lia. }
  by apply H.
Qed.

Lemma add_document_positive (doc_id : str) (tf : dict str Z) (b : block) :
  Forall (fun kv => 1 <= snd kv) tf ->
  positive_block b -> positive_block (add_document doc_id tf b).
Proof.
  unfold add_document. intros Htf. revert b.
  induction Htf as [|[term freq] tf Hf _ IH]; intros b Hb; [done|].
  cbn. apply IH.
  apply (Forall_values_dict_set (fun ps => Forall (fun p => 1 <= snd p) ps));
    [done|].
  apply Forall_app. split; [|by repeat constructor].
  by apply (Forall_values_get_default
              (fun ps => Forall (fun p : doc_id_value * Z => 1 <= snd p) ps)).
Qed.

(** ** The loop over the documents *)

Section Build.
Context {unicode : TextPreprocessor.Unicode}.

Lemma built_initial :
  built {| block_terms := []; block_count := 0; docs_in_block := 0;
           written_files := [] |}.
Proof. split; cbn; try done; constructor. Qed.

Lemma index_document_built env limit b g doc b' g' :
  built b ->
  index_document env limit (b, g) doc = (Ok b', g') ->
  built b'.
Proof.
  intros [Hc Hd Hn Hb Ht]. unfold index_document.
  destruct (TextPreprocessor.preprocess env g (snd doc)) as [[[|t ts]|e] g1];
    [by intros [= <- <-] | | done].
  assert (Hpos : positive_block
            (add_document (fst doc) (counter (t :: ts)) (block_terms b))).
  { apply add_document_positive; [apply counter_positive | done]. }
  destruct (limit <=? docs_in_block b + 1); intros [= <- <-]; split; cbn;
    try done; try lia.
  - rewrite List.map_app, Hn. cbn.
    rewrite (seqZ_app 0 (block_count b) 1) by lia. by rewrite List.map_app.
  - apply Forall_app. split; [done|]. repeat constructor. cbn. eauto.
  - constructor.
Qed.

Lemma index_documents_built env limit b g docs b' g' :
  built b ->
  index_documents env limit (b, g) docs = (Ok b', g') ->
  built b'.
Proof.
  revert b g. induction docs as [|doc docs IH]; intros b g Hb;
    cbn [index_documents fst snd].
  - by intros [= <- <-].
  - destruct (index_document env limit (b, g) doc) as [[b1|e] g1] eqn:E1;
      [|done].
    apply IH. by eapply index_document_built.
Qed.

(** What [build_from_documents] leaves in the blocks directory. *)
Lemma build_from_documents_spec env g docs limit dir g' :
  build_from_documents env g docs limit = (Ok dir, g') ->
  exists n : Z,
    1 <= n
    /\ List.map fst dir = List.map block_name (seqZ 0 n)
    /\ Forall (fun f => exists blk, snd f = Some blk /\ positive_block blk) dir.
Proof.
  unfold build_from_documents.
  destruct (index_documents env limit _ docs) as [[b|e] g1] eqn:E; [|done].
  apply index_documents_built in E as [Hc Hd Hn Hb Ht]; [|apply built_initial].
  destruct ((0 <? docs_in_block b) || (block_count b =? 0)) eqn:Ew;
    intros [= <- <-].
  - exists (block_count b + 1). split; [lia|]. unfold _write_block. split.
    + rewrite List.map_app, Hn, (seqZ_app 0 (block_count b) 1) by lia.
      by rewrite List.map_app.
    + apply Forall_app. split; [done|]. repeat constructor. cbn. eauto.
  - exists (block_count b). apply orb_false_iff in Ew as [_ Hz%Z.eqb_neq].
    split; [lia | done].
Qed.

End Build.

(** ** File names *)

Lemma lit_inj (a b : string) : lit a = lit b -> a = b.
Proof.
  unfold lit. intros H.
  rewrite <- (string_of_list_ascii_of_string a), <- (string_of_list_ascii_of_string b).
  f_equal. revert H. generalize (list_ascii_of_string a) (list_ascii_of_string b).
  induction l as [|x l IH]; intros [|y l']; cbn; try done.
  intros [= Hxy Hl]. f_equal; [|by apply IH].
  by rewrite <- (ascii_N_embedding x), <- (ascii_N_embedding y), Hxy.
Qed.

Lemma to_int_not_nil (z : Z) :
  Z.to_int z <> Decimal.Pos Decimal.Nil /\ Z.to_int z <> Decimal.Neg Decimal.Nil.
Proof.
  pose proof (DecimalZ.to_of (Z.to_int z)) as H. rewrite DecimalZ.of_to in H.
  split; intros E; rewrite E in H; cbn in H; done.
Qed.

Lemma str_of_int_inj (a b : Z) : str_of_int a = str_of_int b -> a = b.
Proof.
  unfold str_of_int. intros H%lit_inj. apply DecimalZ.to_int_inj.
  destruct (to_int_not_nil a), (to_int_not_nil b).
  assert (Some (Z.to_int a) = Some (Z.to_int b)) as [= ->]; [|done].
  rewrite <- (NilZero.isi (Z.to_int a)), <- (NilZero.isi (Z.to_int b)) by done.
  by rewrite H.
Qed.

Lemma block_name_inj (a b : Z) : block_name a = block_name b -> a = b.
Proof.
  unfold block_name. intros H. apply app_inv_head in H.
  apply (f_equal (@rev _)) in H. rewrite !rev_app_distr in H.
  apply app_inv_head in H. apply str_of_int_inj.
  by rewrite <- (rev_involutive (str_of_int a)), H, rev_involutive.
Qed.

Lemma startswith_prefix (p r : str) : startswith (p ++ r) p = true.
Proof.
  induction p as [|c p IH]; [by destruct r|]. cbn.
  by rewrite bool_decide_eq_true_2.
Qed.

Lemma block_name_matches (z : Z) : matches_pattern (block_name z) = true.
Proof.
  unfold matches_pattern, block_name.
  rewrite startswith_prefix. unfold endswith.
  rewrite !rev_app_distr, <- app_assoc, startswith_prefix. cbn [andb].
  apply bool_decide_eq_true. rewrite !length_app. cbn. lia.
Qed.

Lemma glob_block_names (dir : directory) (l : list Z) :
  List.map fst dir = List.map block_name l -> glob dir = dir.
Proof.
  unfold glob. revert l. induction dir as [|f dir IH]; intros [|z l];
    cbn [List.map List.filter]; try done.
  intros [= Hf Hd]. rewrite Hf, block_name_matches. f_equal. by eapply IH.
Qed.

(** ** Block sizes *)

Lemma block_docs_dict_set (term : str) (ps : list (doc_id_value * Z))
    (blk : block) (id : doc_id_value) :
  id ∈ block_docs (dict_set term ps blk) ->
  id ∈ List.map fst ps \/ id ∈ block_docs blk.
Proof.
  unfold block_docs. induction blk as [|[t qs] blk IH]; cbn.
  - rewrite app_nil_r. by left.
  - destruct (decide (term = t)) as [->|Hne]; cbn; rewrite !elem_of_app.
    + tauto.
    + intros [?|Hin]; [tauto|]. destruct (IH Hin); tauto.
Qed.

Lemma block_docs_get (term : str) (blk : block) (id : doc_id_value) :
  id ∈ List.map fst (dict_get_default (V := list (doc_id_value * Z)) term [] blk) ->
  id ∈ block_docs blk.
Proof.
  unfold dict_get_default.
  destruct (dict_get term blk) as [ps|] eqn:E; [|by intros ?%elem_of_nil].
  apply dict_get_Some in E. intros Hin. unfold block_docs.
  apply list_elem_of_In, in_concat. exists (List.map fst ps).
  split; [|by apply list_elem_of_In].
  apply (in_map (fun item => List.map fst (snd item)) _ (term, ps)).
  by apply list_elem_of_In.
Qed.

Lemma block_docs_add_document (doc_id : str) (tf : dict str Z) (blk : block)
    (id : doc_id_value) :
  id ∈ block_docs (add_document doc_id tf blk) ->
  id = IdStr doc_id \/ id ∈ block_docs blk.
Proof.
  unfold add_document. revert blk.
  induction tf as [|[term freq] tf IH]; intros blk; cbn; [by right|].
  intros [->|Hin]%IH; [by left|].
  apply block_docs_dict_set in Hin as [Hin|Hin]; [|by right].
  rewrite List.map_app, elem_of_app in Hin. destruct Hin as [Hin|Hin].
  - right. by eapply block_docs_get.
  - left. cbn in Hin. by apply list_elem_of_singleton in Hin.
Qed.

Lemma holds_at_most_ids (ids : list doc_id_value) (blk : block) (n : Z) :
  Z.of_nat (List.length ids) <= n ->
  (forall id, id ∈ block_docs blk -> id ∈ ids) ->
  holds_at_most n blk.
Proof.
  intros Hlen Hsub. unfold holds_at_most.
  assert (List.length (remove_dups (block_docs blk)) <= List.length ids)%nat;
    [|lia].
  apply submseteq_length, NoDup_submseteq; [apply NoDup_remove_dups|].
  intros id Hid. apply Hsub. by apply elem_of_remove_dups.
Qed.

Section Sizes.
Context {unicode : TextPreprocessor.Unicode}.

Lemma bounded_initial limit :
  bounded limit {| block_terms := []; block_count := 0; docs_in_block := 0;
                   written_files := [] |}.
Proof.
  split; cbn; [lia | | constructor].
  exists []. split; [done|]. by intros id ?%elem_of_nil.
Qed.

Lemma index_document_bounded env limit b g doc b' g' :
  bounded limit b ->
  index_document env limit (b, g) doc = (Ok b', g') ->
  bounded limit b'.
Proof.
  intros Hb. pose proof Hb as [Hd (ids & Hlen & Hids) Hw].
  unfold index_document.
  destruct (TextPreprocessor.preprocess env g (snd doc)) as [[[|t ts]|e] g1];
    [by intros [= <- <-] | | done].
  clear Hb. assert (Hnew : forall id,
            id ∈ block_docs
                   (add_document (fst doc) (counter (t :: ts)) (block_terms b)) ->
            id ∈ IdStr (fst doc) :: ids).
  { intros id [->|Hin]%block_docs_add_document; [by left|]. right. by apply Hids. }
  destruct (Z.leb_spec limit (docs_in_block b + 1)); intros [= <- <-];
    split; cbn.
  - lia.
  - exists []. split; [done|]. by intros id ?%elem_of_nil.
  - apply Forall_app. split; [done|]. repeat constructor. cbn.
    intros blk [= <-]. apply (holds_at_most_ids (IdStr (fst doc) :: ids)); [|done].
    cbn [List.length]. lia.
  - lia.
  - exists (IdStr (fst doc) :: ids). split; [cbn [List.length]; lia | done].
  - done.
Qed.

Lemma index_documents_bounded env limit b g docs b' g' :
  bounded limit b ->
  index_documents env limit (b, g) docs = (Ok b', g') ->
  bounded limit b'.
Proof.
  revert b g. induction docs as [|doc docs IH]; intros b g Hb;
    cbn [index_documents fst snd].
  - by intros [= <- <-].
  - destruct (index_document env limit (b, g) doc) as [[b1|e] g1] eqn:E1;
      [|done].
    apply IH. by eapply index_document_bounded.
Qed.

End Sizes.

(** ** What the merge makes of the builder's files *)

Lemma entries_positive (files : directory) :
  Forall (fun f => exists blk, snd f = Some blk /\ positive_block blk) files ->
  Forall (fun e => 1 <= snd (snd e)) (entries_of files).
Proof.
  unfold entries_of. induction 1 as [|f files (blk & Hf & Hpos) _ IH]; cbn;
    [constructor|].
  apply Forall_app. split; [|done]. rewrite Hf. clear -Hpos.
  unfold entries_of_block. induction Hpos as [|item blk Hitem _ IH]; cbn;
    [constructor|].
  apply Forall_app. split; [|done]. apply Forall_fmap.
  eapply Forall_impl; [exact Hitem|]. done.
Qed.

Lemma block_files_Permutation (dir : directory) (l : list Z) :
  List.map fst dir = List.map block_name l -> block_files dir ≡ₚ dir.
Proof.
  intros Hn. unfold block_files. rewrite sorted_Permutation.
  by rewrite (glob_block_names _ _ Hn).
Qed.

(** X17. Every frequency that [build_from_documents] writes into a block
    is at least one: the directory it leaves satisfies the precondition
    under which the weights of the merged postings are established. *)
Theorem built_positive_tf {unicode : TextPreprocessor.Unicode} env g docs
    block_doc_limit dir g' :
  build_from_documents env g docs block_doc_limit = (Ok dir, g') ->
  positive_tf dir.
Proof.
  intros (n & _ & Hn & Hpos)%build_from_documents_spec. unfold positive_tf.
  apply entries_positive.
  rewrite (block_files_Permutation _ _ Hn). done.
Qed.

(** X18. [build_from_documents] writes at least one block file, and the
    files it writes are [block_0.json], [block_1.json], ... in this order,
    without a gap and without a repeated name. *)
Theorem built_blocks_numbered {unicode : TextPreprocessor.Unicode} env g docs
    block_doc_limit dir g' :
  build_from_documents env g docs block_doc_limit = (Ok dir, g') ->
  (1 <= List.length dir)%nat
  /\ List.map fst dir
     = List.map block_name (seqZ 0 (Z.of_nat (List.length dir)))
  /\ NoDup (List.map fst dir).
Proof.
  intros (n & Hpos & Hn & _)%build_from_documents_spec.
  assert (Hlen : Z.of_nat (List.length dir) = n).
  { rewrite <- (length_map fst), Hn, length_map, length_seqZ. lia. }
  rewrite Hlen. split; [lia|]. split; [done|]. rewrite Hn.
  apply NoDup_fmap_2; [|apply NoDup_seqZ].
  intros a b. apply block_name_inj.
Qed.


(** X20. No block that [build_from_documents] writes holds postings of
    more than [block_doc_limit] documents (of more than one document, when
    the limit is below one). *)
Theorem built_blocks_bounded {unicode : TextPreprocessor.Unicode} env g docs
    block_doc_limit dir g' :
  build_from_documents env g docs block_doc_limit = (Ok dir, g') ->
  Forall (fun f => exists blk,
            snd f = Some blk /\ holds_at_most (Z.max 1 block_doc_limit) blk) dir.
Proof.
  intros Hb.
  pose proof (build_from_documents_spec _ _ _ _ _ _ Hb) as (_ & _ & _ & Hsome).
  assert (Hall : Forall (fun f => forall blk, snd f = Some blk ->
                          holds_at_most (Z.max 1 block_doc_limit) blk) dir).
  { revert Hb. unfold build_from_documents.
    destruct (index_documents env block_doc_limit _ docs) as [[b|e] g1] eqn:E;
      [|done].
    apply index_documents_bounded in E as [Hd (ids & Hlen & Hids) Hw];
      [|apply bounded_initial].
    destruct ((0 <? docs_in_block b) || (block_count b =? 0));
      intros [= <- <-]; [|done].
    unfold _write_block. apply Forall_app. split; [done|].
    repeat constructor. cbn. intros blk [= <-].
    apply (holds_at_most_ids ids); [lia | done]. }
  rewrite Forall_forall in *. intros f Hf.
  destruct (Hsome f Hf) as (blk & Hblk & _). exists blk. split; [done|].
  by apply (Hall f Hf).
Qed.


Section OnExamples.
Import Examples.
#[local] Existing Instances Reference.tabulated Reference.python_json
  Reference.without_unidecode.

(** X17 at work: the block of the three documents about pets. *)
Lemma built_positive_tf_pets : positive_tf pets_blocks.
Proof.
  apply (built_positive_tf with_nltk TextPreprocessor.initial pets 1000
           pets_blocks
           (snd (build_from_documents with_nltk TextPreprocessor.initial pets 1000))).
  vm_compute; reflexivity.
Defined.

(** X18 at work: eleven documents, one per block. *)
Lemma built_blocks_numbered_eleven :
  (1 <= List.length eleven_blocks)%nat
  /\ List.map fst eleven_blocks
     = List.map block_name (seqZ 0 (Z.of_nat (List.length eleven_blocks)))
  /\ NoDup (List.map fst eleven_blocks).
Proof.
  apply (built_blocks_numbered with_nltk TextPreprocessor.initial eleven 1
           eleven_blocks
           (snd (build_from_documents with_nltk TextPreprocessor.initial eleven 1))).
  vm_compute; reflexivity.
Defined.


(** X20 at work: three documents with a limit of two give a block of two
    documents and a block of one. *)
Lemma built_blocks_bounded_pets :
  List.map (fun f => match snd f with
                     | Some blk => List.length (remove_dups (block_docs blk))
                     | None => 0%nat
                     end) (blocks_of pets 2) = [2%nat; 1%nat]
  /\ Forall (fun f => exists blk,
               snd f = Some blk /\ holds_at_most (Z.max 1 2) blk)
       (blocks_of pets 2).
Proof.
  split; [vm_compute; reflexivity|].
  apply (built_blocks_bounded with_nltk TextPreprocessor.initial pets 2
           (blocks_of pets 2)
           (snd (build_from_documents with_nltk TextPreprocessor.initial pets 2))).
  vm_compute; reflexivity.
Defined.


End OnExamples.

End BuildFacts.


(* ===================================================================== *)
(** * Part XVIII. The order of scores and of the heap                      *)
(* ===================================================================== *)

Module FloatFacts.

(** The comparisons of binary64 values ([<], [<=], [==] of Python floats),
    through their specification on [spec_float]. *)

Lemma SFcompare_antisym x y c :
  SFcompare x y = Some c -> SFcompare y x = Some (CompOpp c).
Proof.
  destruct x as [sx|sx| |sx mx ex], y as [sy|sy| |sy my ey]; cbn;
    try done; try (intros [= <-]; by repeat case_match).
  intros [= <-]. f_equal.
  rewrite (Z.compare_antisym ex ey).
  change (PosDef.Pos.compare_cont Eq my mx) with (Pos.compare my mx).
  change (PosDef.Pos.compare_cont Eq mx my) with (Pos.compare mx my).
  rewrite (Pos.compare_antisym mx my).
  destruct sx, sy; try done; destruct (ex ?= ey); cbn; try done;
    by destruct (mx ?= my)%positive.
Qed.

Lemma SFcompare_total x y :
  x <> S754_nan -> y <> S754_nan -> exists c, SFcompare x y = Some c.
Proof.
  destruct x as [sx|sx| |sx mx ex], y as [sy|sy| |sy my ey]; cbn;
    try done; eauto.
Qed.

Lemma SFcompare_le_trans x y z c1 c2 :
  SFcompare x y = Some c1 -> c1 <> Gt ->
  SFcompare y z = Some c2 -> c2 <> Gt ->
  exists c, SFcompare x z = Some c /\ c <> Gt.
Proof.
  destruct x as [sx|sx| |sx mx ex], y as [sy|sy| |sy my ey],
    z as [sz|sz| |sz mz ez]; cbn; try done;
    intros [= <-] H1 [= <-] H2; eexists; (split; [reflexivity|]);
    try (destruct sx, sy, sz; done).
  change (PosDef.Pos.compare_cont Eq) with Pos.compare in *.
  destruct sx, sy, sz; try done;
    destruct (Z.compare_spec ex ey), (Z.compare_spec ey ez),
      (Z.compare_spec ex ez); try done; try lia; subst;
    destruct (Pos.compare_spec mx my), (Pos.compare_spec my mz),
      (Pos.compare_spec mx mz); try done; try lia.
Qed.

Lemma not_nan (x : float) : is_nan x = false -> Prim2SF x <> S754_nan.
Proof.
  unfold is_nan. rewrite FloatAxioms.eqb_spec. unfold SFeqb. intros H E. by rewrite E in H.
Qed.

Lemma ltb_asym (x y : float) :
  PrimFloat.ltb x y = true -> PrimFloat.ltb y x = false.
Proof.
  rewrite !FloatAxioms.ltb_spec. unfold SFltb.
  destruct (SFcompare (Prim2SF x) (Prim2SF y)) as [[]|] eqn:E; try done.
  by rewrite (SFcompare_antisym _ _ _ E).
Qed.

Lemma not_ltb_leb (x y : float) :
  is_nan x = false -> is_nan y = false ->
  PrimFloat.ltb x y = false -> PrimFloat.leb y x = true.
Proof.
  intros Hx%not_nan Hy%not_nan. rewrite FloatAxioms.ltb_spec, FloatAxioms.leb_spec. unfold SFltb, SFleb.
  destruct (SFcompare_total _ _ Hx Hy) as [c E]. rewrite E.
  rewrite (SFcompare_antisym _ _ _ E). by destruct c.
Qed.

Lemma leb_trans (x y z : float) :
  PrimFloat.leb x y = true -> PrimFloat.leb y z = true ->
  PrimFloat.leb x z = true.
Proof.
  rewrite !FloatAxioms.leb_spec. unfold SFleb.
  destruct (SFcompare (Prim2SF x) (Prim2SF y)) as [c1|] eqn:E1; [|done].
  destruct (SFcompare (Prim2SF y) (Prim2SF z)) as [c2|] eqn:E2; [|by destruct c1].
  intros H1 H2.
  destruct (SFcompare_le_trans _ _ _ _ _ E1 (ltac:(by destruct c1))
              E2 (ltac:(by destruct c2))) as (c & -> & Hc).
  by destruct c.
Qed.

Lemma eqb_leb (x y : float) : PrimFloat.eqb x y = true -> PrimFloat.leb y x = true.
Proof.
  rewrite FloatAxioms.eqb_spec, FloatAxioms.leb_spec. unfold SFeqb, SFleb.
  destruct (SFcompare (Prim2SF x) (Prim2SF y)) as [[]|] eqn:E; try done.
  by rewrite (SFcompare_antisym _ _ _ E).
Qed.

Lemma ltb_leb (x y : float) : PrimFloat.ltb x y = true -> PrimFloat.leb x y = true.
Proof.
  rewrite FloatAxioms.ltb_spec, FloatAxioms.leb_spec. unfold SFltb, SFleb.
  by destruct (SFcompare (Prim2SF x) (Prim2SF y)) as [[]|].
Qed.

Lemma eqb_sym (x y : float) : PrimFloat.eqb x y = PrimFloat.eqb y x.
Proof.
  rewrite !FloatAxioms.eqb_spec. unfold SFeqb.
  destruct (SFcompare (Prim2SF x) (Prim2SF y)) as [c|] eqn:E.
  - rewrite (SFcompare_antisym _ _ _ E). by destruct c.
  - destruct (SFcompare (Prim2SF y) (Prim2SF x)) as [c|] eqn:E'; [|done].
    by rewrite (SFcompare_antisym _ _ _ E') in E.
Qed.

End FloatFacts.

(** [heappush] and [heapreplace] keep the array ordered as a heap, for a
    comparison [lt] that agrees with a preorder [R] on the items that are
    [good] (for the pairs of the query engine: whose score is a number). *)
Module HeapOrderFacts.
Import Py Heapq HeapOrder HeapqFacts.

Lemma parent_lt (i : nat) : (0 < i)%nat -> (parent i < i)%nat.
Proof.
  unfold parent. intros Hi. pose proof (Nat.div_mod_eq (i - 1) 2).
  pose proof (Nat.mod_upper_bound (i - 1) 2). lia.
Qed.

Lemma parent_child (c pos : nat) :
  (0 < c)%nat ->
  parent c = pos <-> c = (2 * pos + 1)%nat \/ c = (2 * pos + 2)%nat.
Proof.
  unfold parent. intros Hc. pose proof (Nat.div_mod_eq (c - 1) 2).
  pose proof (Nat.mod_upper_bound (c - 1) 2). lia.
Qed.

Section Invariant.
Context {A : Type} (lt : A -> A -> bool) (R : A -> A -> Prop) (good : A -> Prop).
Hypothesis R_refl : forall a, good a -> R a a.
Hypothesis R_trans : forall a b c, R a b -> R b c -> R a c.
Hypothesis lt_R : forall a b, good a -> good b -> lt a b = true -> R a b.
Hypothesis nlt_R : forall a b, good a -> good b -> lt a b = false -> R b a.
Implicit Types (heap : list A) (x a : A).

(** *** [_siftdown] *)

Lemma sifting_down_done heap pos x :
  sifting_down R heap pos x ->
  (pos < List.length heap)%nat ->
  (forall p, (0 < pos)%nat -> heap !! parent pos = Some p -> R p x) ->
  heap_ordered R (<[pos := x]> heap).
Proof.
  intros (Ha & Hb & Hc) Hpos Hx i a p Hi Hia Hip.
  destruct (decide (i = pos)) as [->|Hne].
  - rewrite list_lookup_insert_eq in Hia by done. injection Hia as <-.
    rewrite list_lookup_insert_ne in Hip by (pose proof (parent_lt pos Hi); lia).
    by apply Hx.
  - rewrite list_lookup_insert_ne in Hia by done.
    destruct (decide (parent i = pos)) as [Hp|Hp].
    + rewrite <- Hp, list_lookup_insert_eq in Hip by (by rewrite Hp).
      injection Hip as <-. by eapply Hb.
    + rewrite list_lookup_insert_ne in Hip by done. by eapply Ha.
Qed.

Lemma sifting_down_step heap pos x p :
  sifting_down R heap pos x ->
  (0 < pos)%nat -> (pos < List.length heap)%nat ->
  heap !! parent pos = Some p ->
  good x -> Forall good heap ->
  lt x p = true ->
  sifting_down R (<[pos := p]> heap) (parent pos) x.
Proof.
  intros (Ha & Hb & Hc) Hpos Hlen Hp Hgx Hgood Hlt.
  pose proof (parent_lt pos Hpos) as Hpp.
  assert (Hgp : good p).
  { rewrite Forall_forall in Hgood. apply Hgood. by eapply list_elem_of_lookup_2. }
  assert (Hxp : R x p) by by apply lt_R.
  split; [|split].
  - intros i a q Hi Hne Hpne Hia Hiq.
    assert (i <> pos) by (intros ->; done).
    rewrite list_lookup_insert_ne in Hia by done.
    destruct (decide (parent i = pos)) as [Hpi|Hpi].
    + rewrite Hpi, list_lookup_insert_eq in Hiq by done. injection Hiq as <-.
      by eapply (Hc i).
    + rewrite list_lookup_insert_ne in Hiq by done. by eapply Ha.
  - intros c a Hc0 Hpc Hca.
    destruct (decide (c = pos)) as [->|Hne].
    + rewrite list_lookup_insert_eq in Hca by done. by injection Hca as <-.
    + rewrite list_lookup_insert_ne in Hca by done.
      apply (R_trans _ p); [done|]. eapply (Ha c); try done.
      * rewrite Hpc. lia.
      * by rewrite Hpc.
  - intros c a g Hc0 Hpc Hpp0 Hca Hg.
    rewrite list_lookup_insert_ne in Hg
      by (pose proof (parent_lt (parent pos) Hpp0); lia).
    assert (Hgp' : R g p).
    { eapply (Ha (parent pos)); try done; try lia.
      pose proof (parent_lt (parent pos) Hpp0); lia. }
    destruct (decide (c = pos)) as [->|Hne].
    + rewrite list_lookup_insert_eq in Hca by done. by injection Hca as <-.
    + rewrite list_lookup_insert_ne in Hca by done.
      apply (R_trans _ p); [done|]. eapply (Ha c); try done.
      * rewrite Hpc. lia.
      * by rewrite Hpc.
Qed.

Lemma siftdown_loop_ordered n heap pos x :
  (pos <= n)%nat -> (pos < List.length heap)%nat ->
  good x -> Forall good heap ->
  sifting_down R heap pos x ->
  heap_ordered R (siftdown_loop lt n heap 0 pos x).
Proof.
  revert heap pos. induction n as [|n IH]; intros heap pos Hn Hlen Hgx Hgood Hs.
  - cbn. apply sifting_down_done; [done | done | lia].
  - cbn [siftdown_loop]. case_bool_decide as Hpos;
      [|apply sifting_down_done; [done | done | lia]].
    pose proof (parent_lt pos Hpos) as Hpp. fold (parent pos).
    destruct (heap !! parent pos) as [p|] eqn:Hp;
      [|apply sifting_down_done; [done | done | congruence]].
    assert (Hgp : good p).
    { rewrite Forall_forall in Hgood. apply Hgood. by eapply list_elem_of_lookup_2. }
    destruct (lt x p) eqn:Hlt.
    + apply IH; [lia | rewrite length_insert; lia | done | |].
      * apply Forall_insert; done.
      * by apply sifting_down_step.
    + apply sifting_down_done; [done | done |].
      intros q _ Hq. rewrite Hp in Hq. injection Hq as <-. by apply nlt_R.
Qed.

(** [heappush] keeps the heap ordered. *)
Lemma heappush_ordered heap item :
  heap_ordered R heap -> Forall good heap -> good item ->
  heap_ordered R (heappush lt heap item).
Proof.
  intros Hh Hgood Hitem. unfold heappush, _siftdown.
  rewrite lookup_app_r, Nat.sub_diag by lia. cbn.
  apply siftdown_loop_ordered; [lia | rewrite length_app; cbn; lia | done | |].
  - apply Forall_app. split; [done | by constructor].
  - split; [|split].
    + intros i a p Hi Hne Hpne Hia Hip.
      assert (i < List.length heap)%nat.
      { apply lookup_lt_Some in Hia. rewrite length_app in Hia. cbn in Hia. lia. }
      pose proof (parent_lt i Hi).
      rewrite lookup_app_l in Hia, Hip by lia. by eapply Hh.
    + intros c a Hc Hpc Hca. apply lookup_lt_Some in Hca.
      rewrite length_app in Hca. cbn in Hca. pose proof (parent_lt c Hc). lia.
    + intros c a p Hc Hpc _ Hca. apply lookup_lt_Some in Hca.
      rewrite length_app in Hca. cbn in Hca. pose proof (parent_lt c Hc). lia.
Qed.

(** *** [_siftup] *)

Lemma siftup_loop_sifting n heap pos :
  (List.length heap - pos <= n)%nat -> (pos < List.length heap)%nat ->
  Forall good heap ->
  sifting_up R heap pos ->
  let '(heap', leaf) := siftup_loop lt n heap (List.length heap) pos in
  sifting_up R heap' leaf
  /\ (leaf < List.length heap')%nat
  /\ (List.length heap' <= 2 * leaf + 1)%nat.
Proof.
  revert heap pos. induction n as [|n IH]; intros heap pos Hn Hlen Hgood Hs;
    [lia|].
  cbn [siftup_loop]. case_bool_decide as Hchild; [|split; [done | lia]].
  destruct (lookup_lt_is_Some_2 heap (2 * pos + 1)) as [l Hl]; [done|].
  rewrite Hl.
  set (child := match heap !! (2 * pos + 1 + 1)%nat with
                | Some r => _ | None => _ end).
  assert (Hchoice : exists vc,
            heap !! child = Some vc
            /\ (child = (2 * pos + 1)%nat \/ child = (2 * pos + 2)%nat)
            /\ forall c a, (c = (2 * pos + 1)%nat \/ c = (2 * pos + 2)%nat) ->
                           heap !! c = Some a -> R vc a).
  { assert (Hgl : good l).
    { rewrite Forall_forall in Hgood. apply Hgood. by eapply list_elem_of_lookup_2. }
    subst child. destruct (heap !! (2 * pos + 1 + 1)%nat) as [r|] eqn:Hr.
    - assert (Hgr : good r).
      { rewrite Forall_forall in Hgood. apply Hgood. by eapply list_elem_of_lookup_2. }
      replace (2 * pos + 2)%nat with (2 * pos + 1 + 1)%nat by lia.
      rewrite bool_decide_eq_true_2 by by eapply lookup_lt_Some.
      cbn [andb]. destruct (lt l r) eqn:Hlr; cbn [negb].
      + exists l. split; [done|]. split; [by left|].
        intros c a [->| ->] Hc; rewrite Hc in *.
        * injection Hl as <-. by apply R_refl.
        * injection Hr as <-. by apply lt_R.
      + exists r. split; [done|]. split; [by right|].
        intros c a [->| ->] Hc; rewrite Hc in *.
        * injection Hl as <-. by apply nlt_R.
        * injection Hr as <-. by apply R_refl.
    - exists l. split; [done|]. split; [by left|].
      intros c a [->| ->] Hc.
      + rewrite Hc in Hl. injection Hl as <-. by apply R_refl.
      + replace (2 * pos + 2)%nat with (2 * pos + 1 + 1)%nat in Hc by lia.
        congruence. }
  destruct Hchoice as (vc & Hvc & Hchild_pos & Hmin). rewrite Hvc.
  assert (Hcl : (child < List.length heap)%nat) by by eapply lookup_lt_Some.
  assert (Hgvc : good vc).
  { rewrite Forall_forall in Hgood. apply Hgood. by eapply list_elem_of_lookup_2. }
  specialize (IH (<[pos := vc]> heap) child).
  rewrite length_insert in IH. apply IH; [lia | lia | by apply Forall_insert |].
  destruct Hs as [H1 H2]. split.
  - intros i a p Hi Hpi Hia Hip.
    destruct (decide (parent i = pos)) as [Hp|Hp].
    + rewrite Hp, list_lookup_insert_eq in Hip by done. injection Hip as <-.
      assert (i <> pos) by (pose proof (parent_lt i Hi); lia).
      rewrite list_lookup_insert_ne in Hia by done.
      apply (Hmin i); [|done]. by apply parent_child.
    + rewrite list_lookup_insert_ne in Hip by done.
      destruct (decide (i = pos)) as [->|Hne].
      * rewrite list_lookup_insert_eq in Hia by done. injection Hia as <-.
        eapply (H2 child); try done; [lia | apply parent_child; [lia | done]].
      * rewrite list_lookup_insert_ne in Hia by done. by eapply H1.
  - intros c a p Hc Hpc _ Hca Hp.
    assert (Hpchild : parent child = pos) by (apply parent_child; [lia | done]).
    rewrite Hpchild, list_lookup_insert_eq in Hp by done. injection Hp as <-.
    assert (c <> pos) by (pose proof (parent_lt c Hc); lia).
    rewrite list_lookup_insert_ne in Hca by done.
    eapply (H1 c); try done; [lia | by rewrite Hpc].
Qed.

Lemma siftup_loop_good n heap endpos pos :
  Forall good heap -> Forall good (siftup_loop lt n heap endpos pos).1.
Proof.
  revert heap pos. induction n as [|n IH]; intros heap pos Hgood; [done|].
  cbn [siftup_loop]. case_bool_decide; [|done].
  set (child := match heap !! (2 * pos + 1)%nat with
                | Some c => _ | None => _ end).
  destruct (heap !! child) as [vc|] eqn:Hvc; [|done].
  apply IH, Forall_insert; [done|].
  rewrite Forall_forall in Hgood. apply Hgood. by eapply list_elem_of_lookup_2.
Qed.

(** [heapreplace] keeps the heap ordered. *)
Lemma heapreplace_ordered top heap item heap' :
  heap_ordered R (top :: heap) -> Forall good (top :: heap) -> good item ->
  heapreplace lt (top :: heap) item = Ok heap' ->
  heap_ordered R heap'.
Proof.
  intros Hh Hgood Hitem [= <-]. cbn [insert list_insert]. unfold _siftup.
  cbn [lookup list_lookup].
  assert (Hgood0 : Forall good (item :: heap)).
  { apply Forall_cons in Hgood as [_ ?]. by constructor. }
  pose proof (siftup_loop_sifting (List.length (item :: heap)) (item :: heap) 0)
    as Hloop.
  pose proof (siftup_loop_good (List.length (item :: heap)) (item :: heap)
                (List.length (item :: heap)) 0 Hgood0) as Hg1.
  destruct (siftup_loop lt _ (item :: heap) _ 0) as [h1 leaf].
  destruct Hloop as ((H1 & H2) & Hleaf & Hlast); [lia | cbn; lia | done | |].
  { split.
    - intros i a p Hi Hpi Hia Hip. destruct i as [|i]; [lia|].
      destruct (parent (S i)) as [|j] eqn:Hj; [done|].
      eapply (Hh (S i)); [lia | exact Hia | by rewrite Hj].
    - intros; lia. }
  cbn [fst] in Hg1. unfold _siftdown. rewrite list_lookup_insert_eq by done.
  apply siftdown_loop_ordered;
    [lia | by rewrite length_insert | done | by apply Forall_insert |].
  split; [|split].
  - intros i a p Hi Hne Hpne Hia Hip.
    rewrite list_lookup_insert_ne in Hia, Hip by done. by eapply H1.
  - intros c a Hc Hpc Hca. apply lookup_lt_Some in Hca.
    rewrite length_insert in Hca. apply parent_child in Hpc; lia.
  - intros c a p Hc Hpc _ Hca. apply lookup_lt_Some in Hca.
    rewrite length_insert in Hca. apply parent_child in Hpc; lia.
Qed.

(** *** The root *)

Lemma heap_root_least heap m :
  heap_ordered R heap -> Forall good heap -> heap !! 0%nat = Some m ->
  forall a, a ∈ heap -> R m a.
Proof.
  intros Hh Hgood Hm a (i & Hi)%list_elem_of_lookup. revert a Hi.
  induction i as [i IH] using Wf_nat.lt_wf_ind. intros a Hi.
  destruct (decide (i = 0)%nat) as [->|Hne].
  - rewrite Hm in Hi. injection Hi as <-. apply R_refl.
    rewrite Forall_forall in Hgood. apply Hgood. by eapply list_elem_of_lookup_2.
  - assert (Hpi : (parent i < i)%nat) by (apply parent_lt; lia).
    destruct (lookup_lt_is_Some_2 heap (parent i)) as [p Hp].
    { apply lookup_lt_Some in Hi. lia. }
    apply (R_trans _ p); [by apply (IH (parent i))|].
    eapply (Hh i); [lia | done | done].
Qed.

End Invariant.
End HeapOrderFacts.


(* ===================================================================== *)
(** * Part XIX. Which documents a query returns                            *)
(* ===================================================================== *)

Module QueryMore.
Import Py IndexFiles QueryEngine PyFacts HeapqFacts QueryFacts FloatFacts.

Section MoreQueryProofs.
Context {libm : Libm} {json : Json} {unicode : TextPreprocessor.Unicode}.

(** *** Terms outside the dictionary *)

Lemma score_terms_unknown (idx : index) s (q_tf : list (str * Z)) :
  Forall (fun t => dict_get t (vocab idx) = None) (keys q_tf) ->
  score_terms idx s q_tf = Ok s.
Proof.
  unfold keys. induction q_tf as [|[t tf] q_tf IH]; cbn; [done|].
  intros [Ht Hq]%Forall_cons. cbn in Ht. rewrite Ht. cbn. by apply IH.
Qed.

Lemma query_tokens_unknown (idx : index) (tokens : list str) (k : Z) :
  Forall (fun t => dict_get t (vocab idx) = None) tokens ->
  query_tokens idx tokens k = Ok {| results := []; bytes_read := 0 |}.
Proof.
  intros Ht. unfold query_tokens. rewrite score_terms_unknown; [reflexivity|].
  rewrite Forall_forall in *. intros t Hin. apply Ht.
  rewrite count_tokens_keys in Hin. by rewrite elem_of_remove_dups in Hin.
Qed.

(** *** Which documents are selected *)

Lemma select_scorable (idx : index) (k : Z) q_norm heap heap' (item : str * float) :
  select idx k q_norm heap item = Ok heap' ->
  List.map snd heap'
  ⊆+ (if has_norm idx (fst item) then [fst item] else []) ++ List.map snd heap.
Proof.
  destruct item as [doc_id dot]. unfold select, has_norm. cbn [fst].
  destruct (PrimFloat.eqb (dict_get_default doc_id 0%float (doc_norms idx)) 0).
  { by intros [= <-]. }
  destruct (PrimFloat.eqb _ 0); [done|]. cbn [negb app].
  destruct (Z.of_nat (List.length heap) <? k).
  - intros [= <-]. by rewrite heappush_Permutation.
  - destruct heap as [|top heap]; [done|].
    destruct (PrimFloat.ltb (fst top) _).
    + destruct (heapreplace_Permutation Heapq.tuple_lt top heap
        ((dot / (q_norm * dict_get_default doc_id 0 (doc_norms idx)))%float,
         doc_id)) as (h & -> & Hp).
      intros [= <-]. rewrite Hp. cbn. by apply submseteq_skip, submseteq_cons.
    + intros [= <-]. by apply submseteq_cons.
Qed.

Lemma select_all_scorable (idx : index) (k : Z) q_norm heap heap' items :
  select_all idx k q_norm heap items = Ok heap' ->
  List.map snd heap'
  ⊆+ rev (List.filter (has_norm idx) (keys items)) ++ List.map snd heap.
Proof.
  unfold keys. revert heap. induction items as [|item items IH]; intros heap; cbn.
  - by intros [= <-].
  - destruct (select idx k q_norm heap item) as [h1|] eqn:H1; cbn; [|done].
    intros Hrest. rewrite (IH _ Hrest). apply select_scorable in H1.
    destruct (has_norm idx (fst item)); cbn in *.
    + rewrite <- app_assoc. cbn. by apply submseteq_app.
    + by apply submseteq_app.
Qed.

Lemma select_all_nonpositive (idx : index) (k : Z) q_norm heap items :
  k <= 0 ->
  select_all idx k q_norm [] items = Ok heap ->
  heap = [] /\ List.filter (has_norm idx) (keys items) = [].
Proof.
  intros Hk. unfold keys. induction items as [|[doc_id dot] items IH];
    cbn [select_all List.map List.filter fst].
  - by intros [= <-].
  - unfold select, has_norm.
    destruct (PrimFloat.eqb (dict_get_default doc_id 0%float (doc_norms idx)) 0);
      cbn [negb bind]; [done|].
    destruct (PrimFloat.eqb _ 0); [done|]. cbn [List.length].
    destruct (Z.ltb_spec (Z.of_nat 0) k); [cbn in *; lia | done].
Qed.

Lemma query_tokens_scorable (idx : index) (tokens : list str) (k : Z) r :
  query_tokens idx tokens k = Ok r ->
  List.map fst (results r) ⊆+ List.filter (has_norm idx) (candidates idx tokens)
  /\ (k <= 0 ->
      results r = []
      /\ List.filter (has_norm idx) (candidates idx tokens) = []).
Proof.
  unfold query_tokens.
  destruct (score_terms idx _ (count_tokens tokens)) as [s|] eqn:Hs; cbn; [|done].
  destruct (if PrimFloat.ltb 0 (q_sq_sum s) then _ else _) as [q_norm|];
    cbn; [|done].
  destruct (select_all idx k q_norm [] (accum s)) as [heap|] eqn:Hsel;
    cbn; [|done].
  intros [= <-]. cbn [results].
  pose proof (accum_candidates _ _ _ Hs) as Hcand. split.
  - rewrite results_of_heap. rewrite (select_all_scorable _ _ _ _ _ _ Hsel).
    cbn. rewrite app_nil_r, <- Permutation_rev.
    by rewrite (filter_Permutation _ _ _ Hcand).
  - intros Hk. destruct (select_all_nonpositive _ _ _ _ _ Hk Hsel) as [-> Hnone].
    split; [done|]. apply Permutation_nil_r.
    by rewrite <- (filter_Permutation _ _ _ Hcand), Hnone.
Qed.

(** *** The order of the results *)

Lemma sorted_desc_Sorted {A} (key : A -> float) (l : list A) :
  Sorted (fun a b => PrimFloat.ltb (key a) (key b) = false)
    (sorted_by_key_desc key l).
Proof.
  apply (sorted_Sorted (fun a b => PrimFloat.ltb (key b) (key a))).
  intros a b. apply ltb_asym.
Qed.

Lemma Sorted_descending {A} (key : A -> float) (l : list A) :
  Forall (fun a => is_nan (key a) = false) l ->
  Sorted (fun a b => PrimFloat.ltb (key a) (key b) = false) l ->
  StronglySorted (fun a b => PrimFloat.leb (key b) (key a) = true) l.
Proof.
  intros Hnan Hs. apply Sorted_StronglySorted.
  { intros a b c Hab Hbc. by eapply leb_trans. }
  induction Hs as [|a l Hl IH Ha]; [constructor|].
  apply Forall_cons in Hnan as [Hna Hnan]. constructor; [by apply IH|].
  destruct Ha as [|b l Hab]; constructor.
  apply Forall_cons in Hnan as [Hnb _]. by apply not_ltb_leb.
Qed.

End MoreQueryProofs.

(** X22. A query none of whose tokens is in the dictionary returns an
    empty result with zero bytes read, for every [k] (also [k <= 0]) and
    whatever the norm table holds: nothing is read and nothing is raised. *)
Theorem query_out_of_vocabulary {libm : Libm} {json : Json}
    {unicode : TextPreprocessor.Unicode} env g (idx : index) qtext (k : Z)
    tokens g1 :
  TextPreprocessor.preprocess env g qtext = (Ok tokens, g1) ->
  Forall (fun t => dict_get t (vocab idx) = None) tokens ->
  query env g idx qtext k = (Ok {| results := []; bytes_read := 0 |}, g1).
Proof.
  unfold query. intros -> Ht. destruct tokens as [|t ts]; [done|].
  by rewrite query_tokens_unknown.
Qed.

(** X23. With [k <= 0], [query] returns only when no candidate document
    has a stored norm other than zero, and then with an empty result list:
    as soon as a candidate can be scored, the call raises instead (the heap
    is empty and [heap[0]] is an [IndexError]). *)
Theorem query_nonpositive_k {libm : Libm} {json : Json}
    {unicode : TextPreprocessor.Unicode} env g (idx : index) qtext (k : Z)
    tokens g1 r g2 :
  k <= 0 ->
  TextPreprocessor.preprocess env g qtext = (Ok tokens, g1) ->
  query env g idx qtext k = (Ok r, g2) ->
  results r = []
  /\ List.filter (has_norm idx) (candidates idx tokens) = [].
Proof.
  unfold query. intros Hk ->. destruct tokens as [|t ts].
  - by intros [= <- _].
  - intros [= Hq _]. apply query_tokens_scorable in Hq as [_ Hq]. by apply Hq.
Qed.

(** X24. Every document that [query] returns is a candidate (a document
    of the postings fetched for the tokens) whose stored norm is not zero,
    and none is returned twice; when [k] is at least the number of such
    candidates, all of them are returned. *)
Theorem query_results_scorable {libm : Libm} {json : Json}
    {unicode : TextPreprocessor.Unicode} env g (idx : index) qtext (k : Z)
    tokens g1 r g2 :
  TextPreprocessor.preprocess env g qtext = (Ok tokens, g1) ->
  query env g idx qtext k = (Ok r, g2) ->
  List.map fst (results r) ⊆+ List.filter (has_norm idx) (candidates idx tokens)
  /\ (Z.of_nat (List.length
                  (List.filter (has_norm idx) (candidates idx tokens))) <= k ->
      List.map fst (results r)
      ≡ₚ List.filter (has_norm idx) (candidates idx tokens)).
Proof.
  unfold query. intros ->. destruct tokens as [|t ts].
  - intros [= <- _]. cbn. split; [apply submseteq_nil_l|]. done.
  - intros [= Hq _].
    pose proof (query_tokens_scorable _ _ _ _ Hq) as [Hsub Hzero].
    split; [done|]. intros Hlen.
    destruct (Z.le_gt_cases k 0) as [Hk|Hk].
    + destruct (Hzero Hk) as [-> ->]. done.
    + apply submseteq_length_Permutation; [done|].
      apply query_tokens_results in Hq as [_ Hq]. specialize (Hq ltac:(lia)).
      rewrite length_map. lia.
Qed.

(** X25. The results of [query] come in descending order of score: as
    long as no score is NaN, no result scores above one that precedes it. *)
Theorem query_results_descending {libm : Libm} {json : Json}
    {unicode : TextPreprocessor.Unicode} env g (idx : index) qtext (k : Z)
    r g' :
  query env g idx qtext k = (Ok r, g') ->
  Forall (fun p => is_nan (snd p) = false) (results r) ->
  StronglySorted (fun a b => PrimFloat.leb (snd b) (snd a) = true) (results r).
Proof.
  intros Hq Hnan. apply Sorted_descending; [done|]. revert Hq. unfold query.
  destruct (TextPreprocessor.preprocess env g qtext) as [[[|t ts]|] g1];
    [intros [= <- _]; constructor | | done].
  intros [= Hq _]. revert Hq. unfold query_tokens.
  destruct (score_terms idx _ _) as [s|]; cbn; [|done].
  destruct (if PrimFloat.ltb 0 (q_sq_sum s) then _ else _) as [q_norm|];
    cbn; [|done].
  destruct (select_all idx k q_norm [] (accum s)) as [heap|]; cbn; [|done].
  intros [= <-]. cbn [results]. apply sorted_desc_Sorted.
Qed.

Section OnExamples.
Import Examples.
#[local] Existing Instances Reference.tabulated Reference.python_json
  Reference.without_unidecode.

(** X22 at work: no document about pets mentions a zebra. *)
Lemma query_out_of_vocabulary_pets :
  fst (quick_query (MergeBlocks.out_index pets_merged) "la zebra" 10)
  = Ok {| results := []; bytes_read := 0 |}.
Proof.
  assert (H : quick_query (MergeBlocks.out_index pets_merged) "la zebra" 10
              = (Ok {| results := []; bytes_read := 0 |},
                 snd (TextPreprocessor.preprocess with_nltk
                        TextPreprocessor.initial (Some (lit "la zebra"))))).
  { apply (query_out_of_vocabulary with_nltk TextPreprocessor.initial
             (MergeBlocks.out_index pets_merged) (Some (lit "la zebra")) 10
             [lit "zebra"]).
    - vm_compute; reflexivity.
    - constructor; [vm_compute; reflexivity | constructor]. }
  by rewrite H.
Defined.

(** X23 at work: with [k = 0], the query "zebra" returns (nothing), and
    the query "gato" raises. *)
Lemma query_nonpositive_k_pets :
  fst (quick_query (MergeBlocks.out_index pets_merged) "gato" 0) = Raise IndexError
  /\ results (result_of (quick_query (MergeBlocks.out_index pets_merged) "zebra" 0))
     = []
  /\ List.filter (has_norm (MergeBlocks.out_index pets_merged))
       (candidates (MergeBlocks.out_index pets_merged) [lit "zebra"]) = [].
Proof.
  split; [vm_compute; reflexivity|].
  apply (query_nonpositive_k with_nltk TextPreprocessor.initial
           (MergeBlocks.out_index pets_merged) (Some (lit "zebra")) 0
           [lit "zebra"]
           (snd (quick_query (MergeBlocks.out_index pets_merged) "zebra" 0))
           (result_of (quick_query (MergeBlocks.out_index pets_merged) "zebra" 0))
           (snd (quick_query (MergeBlocks.out_index pets_merged) "zebra" 0))).
  - lia.
  - vm_compute; reflexivity.
  - vm_compute; reflexivity.
Defined.

(** X24 at work: "gato" has the candidates 1 and 3, and both are
    returned. *)
Lemma query_results_scorable_pets :
  List.filter (has_norm (MergeBlocks.out_index pets_merged))
    (candidates (MergeBlocks.out_index pets_merged) [lit "gat"])
  = [lit "1"; lit "3"]
  /\ List.map fst
       (results (result_of (quick_query (MergeBlocks.out_index pets_merged) "gato" 10)))
     ⊆+ List.filter (has_norm (MergeBlocks.out_index pets_merged))
          (candidates (MergeBlocks.out_index pets_merged) [lit "gat"])
  /\ (Z.of_nat
        (List.length
           (List.filter (has_norm (MergeBlocks.out_index pets_merged))
              (candidates (MergeBlocks.out_index pets_merged) [lit "gat"]))) <= 10 ->
      List.map fst
        (results (result_of (quick_query (MergeBlocks.out_index pets_merged) "gato" 10)))
      ≡ₚ List.filter (has_norm (MergeBlocks.out_index pets_merged))
           (candidates (MergeBlocks.out_index pets_merged) [lit "gat"])).
Proof.
  split; [vm_compute; reflexivity|].
  apply (query_results_scorable with_nltk TextPreprocessor.initial
           (MergeBlocks.out_index pets_merged) (Some (lit "gato")) 10
           [lit "gat"]
           (snd (quick_query (MergeBlocks.out_index pets_merged) "gato" 10))
           (result_of (quick_query (MergeBlocks.out_index pets_merged) "gato" 10))
           (snd (quick_query (MergeBlocks.out_index pets_merged) "gato" 10))).
  - vm_compute; reflexivity.
  - vm_compute; reflexivity.
Defined.

(** X25 at work: the ranking for "El perro y el gato". *)
Lemma query_results_descending_pets :
  List.map fst
    (results
       (result_of
          (quick_query (MergeBlocks.out_index pets_merged) "El perro y el gato" 10)))
  = [lit "2"; lit "3"; lit "1"]
  /\ StronglySorted (fun a b => PrimFloat.leb (snd b) (snd a) = true)
       (results
          (result_of
             (quick_query (MergeBlocks.out_index pets_merged) "El perro y el gato" 10))).
Proof.
  split; [vm_compute; reflexivity|].
  apply (query_results_descending with_nltk TextPreprocessor.initial
           (MergeBlocks.out_index pets_merged) (Some (lit "El perro y el gato")) 10
           (result_of
              (quick_query (MergeBlocks.out_index pets_merged) "El perro y el gato" 10))
           (snd (quick_query (MergeBlocks.out_index pets_merged) "El perro y el gato" 10))).
  - vm_compute; reflexivity.
  - apply (bool_decide_unpack
             (Forall (fun p : str * float => is_nan (snd p) = false)
                (results
                   (result_of
                      (quick_query (MergeBlocks.out_index pets_merged)
                         "El perro y el gato" 10))))).
    vm_compute. exact I.
Defined.

End OnExamples.

End QueryMore.


Module TopFacts.
Import Py IndexFiles QueryEngine PyFacts HeapqFacts QueryFacts FloatFacts.
Import HeapOrder HeapOrderFacts.

(** ** Scores and the order of the heap *)

Lemma score_le_refl a : has_score a -> score_le a a.
Proof.
  unfold has_score, score_le. intros Ha. apply not_ltb_leb; [done | done|].
  destruct (PrimFloat.ltb (fst a) (fst a)) eqn:E; [|done].
  by rewrite (ltb_asym _ _ E) in E.
Qed.

Lemma score_le_trans a b c : score_le a b -> score_le b c -> score_le a c.
Proof. apply leb_trans. Qed.

Lemma tuple_lt_le a b :
  has_score a -> has_score b -> Heapq.tuple_lt a b = true -> score_le a b.
Proof.
  unfold Heapq.tuple_lt, score_le. intros _ _.
  destruct (PrimFloat.eqb (fst a) (fst b)) eqn:E.
  - intros _. rewrite eqb_sym in E. by apply eqb_leb.
  - apply ltb_leb.
Qed.

Lemma tuple_nlt_le a b :
  has_score a -> has_score b -> Heapq.tuple_lt a b = false -> score_le b a.
Proof.
  unfold Heapq.tuple_lt, score_le, has_score. intros Ha Hb.
  destruct (PrimFloat.eqb (fst a) (fst b)) eqn:E.
  - intros _. by apply eqb_leb.
  - by apply not_ltb_leb.
Qed.

Ltac score_order :=
  first [ apply score_le_refl | apply score_le_trans
        | apply tuple_lt_le | apply tuple_nlt_le ].

(** ** Selection *)

Section Selection.
Context (idx : index) (q_norm : float).

Lemma selecting_empty k : 0 <= k -> selecting k [] [].
Proof.
  intros Hk. split; cbn; [|constructor| |by left|lia].
  - intros i a p _ Hi. done.
  - intros x y Hx. by apply elem_of_nil in Hx.
Qed.

Lemma select_keeps (k : Z) heap rest heap' (item : str * float) :
  1 <= k ->
  selecting k heap rest ->
  Forall has_score (scores_of idx q_norm [item]) ->
  select idx k q_norm heap item = Ok heap' ->
  exists rest',
    selecting k heap' rest'
    /\ heap' ++ rest' ≡ₚ scores_of idx q_norm [item] ++ heap ++ rest.
Proof.
  intros Hk [Hord Hsc Hrest Hfull Hlen] Hitem. unfold scores_of in *.
  cbn [List.filter List.map] in *. unfold select.
  destruct item as [doc_id dot]. unfold has_norm in *. cbn [fst snd] in *.
  destruct (PrimFloat.eqb (dict_get_default doc_id 0%float (doc_norms idx)) 0).
  { intros [= <-]. exists rest. split; [by split | done]. }
  cbn [negb List.map] in *. apply Forall_cons in Hitem as [Hnew _].
  unfold scored in *. cbn [fst snd] in *.
  set (new := ((dot / (q_norm * dict_get_default doc_id 0 (doc_norms idx)))%float,
               doc_id)) in *.
  destruct (PrimFloat.eqb _ 0); [done|].
  destruct (Z.ltb_spec (Z.of_nat (List.length heap)) k) as [Hlt|Hge].
  - intros [= <-]. destruct Hfull as [->|]; [|lia].
    pose proof (heappush_Permutation Heapq.tuple_lt heap new) as Hp.
    exists []. split.
    + split.
      * apply (heappush_ordered Heapq.tuple_lt score_le has_score);
          try done; score_order.
      * rewrite Hp. by constructor.
      * intros x y Hx. by apply elem_of_nil in Hx.
      * by left.
      * rewrite (Permutation_length Hp). cbn [List.length]. lia.
    + rewrite !app_nil_r. by rewrite Hp.
  - destruct heap as [|top heap]; [done|].
    assert (Hmin : forall y, y ∈ top :: heap -> score_le top y).
    { apply (heap_root_least score_le has_score); try done; score_order. }
    pose proof Hsc as [Htop Hsc']%Forall_cons.
    change ((dot / (q_norm * dict_get_default doc_id 0 (doc_norms idx)))%float)
      with (fst new).
    destruct (PrimFloat.ltb (fst top) (fst new)) eqn:Hcmp.
    + intros Hrep.
      assert (Hord' : heap_ordered score_le heap').
      { apply (heapreplace_ordered Heapq.tuple_lt score_le has_score)
          with (top := top) (heap := heap) (item := new);
          try done; score_order. }
      injection Hrep as <-.
      pose proof (siftup_Permutation Heapq.tuple_lt (new :: heap) 0) as Hp.
      exists (top :: rest). split.
      * split.
        -- done.
        -- cbn [insert list_insert]. rewrite Hp. by constructor.
        -- cbn [insert list_insert]. intros x y Hx Hy. rewrite Hp in Hy.
           assert (Htn : score_le top new) by by apply ltb_leb.
           apply elem_of_cons in Hx as [->|Hx], Hy as [->|Hy]; try done.
           ++ apply Hmin. by right.
           ++ apply (score_le_trans _ top); [|done]. apply Hrest; [done | by left].
           ++ apply Hrest; [done | by right].
        -- right. cbn [insert list_insert]. rewrite (Permutation_length Hp).
           cbn [List.length] in *. lia.
        -- cbn [insert list_insert]. rewrite (Permutation_length Hp).
           cbn [List.length] in *. lia.
      * cbn [insert list_insert]. rewrite Hp. cbn.
        rewrite <- Permutation_middle. by rewrite perm_swap.
    + intros [= <-]. exists (new :: rest). split.
      * split; try done.
        -- intros x y [->|Hx]%elem_of_cons Hy; [|by apply Hrest].
           apply (score_le_trans _ top); [|by apply Hmin].
           by apply not_ltb_leb.
        -- right. cbn [List.length] in *. lia.
      * cbn. rewrite <- Permutation_middle. apply perm_swap.
Qed.

Lemma scores_of_cons item items :
  scores_of idx q_norm (item :: items)
  = scores_of idx q_norm [item] ++ scores_of idx q_norm items.
Proof.
  unfold scores_of. cbn. by destruct (has_norm idx (fst item)).
Qed.

Lemma select_all_keeps (k : Z) heap rest heap' items :
  1 <= k ->
  selecting k heap rest ->
  Forall has_score (scores_of idx q_norm items) ->
  select_all idx k q_norm heap items = Ok heap' ->
  exists rest',
    selecting k heap' rest'
    /\ heap' ++ rest' ≡ₚ scores_of idx q_norm items ++ heap ++ rest.
Proof.
  intros Hk. revert heap rest. induction items as [|item items IH];
    intros heap rest Hsel Hgood; cbn [select_all].
  - intros [= <-]. by exists rest.
  - rewrite (scores_of_cons item items) in Hgood. apply Forall_app in Hgood as [Hg1 Hg2].
    destruct (select idx k q_norm heap item) as [h1|] eqn:H1; cbn [bind]; [|done].
    intros Hrest.
    destruct (select_keeps _ _ _ _ _ Hk Hsel Hg1 H1) as (rest1 & Hsel1 & Hp1).
    destruct (IH _ _ Hsel1 Hg2 Hrest) as (rest' & Hsel' & Hp').
    exists rest'. split; [done|]. rewrite Hp', Hp1, (scores_of_cons item items).
    rewrite <- !app_assoc. apply Permutation_app_swap_app.
Qed.

(** With room for every pair, all of them are kept. *)
Lemma select_all_every (k K : Z) heap heap' full items :
  select_all idx k q_norm heap items = Ok heap' ->
  Z.of_nat (List.length full)
  + Z.of_nat (List.length (scores_of idx q_norm items)) <= K ->
  exists full',
    select_all idx K q_norm full items = Ok full'
    /\ full' ≡ₚ scores_of idx q_norm items ++ full.
Proof.
  revert heap full. induction items as [|item items IH]; intros heap full;
    cbn [select_all].
  - intros _ _. by exists full.
  - destruct (select idx k q_norm heap item) as [h1|] eqn:H1; cbn [bind]; [|done].
    intros Hrest. rewrite (scores_of_cons item items), length_app. intros HK.
    assert (exists full1,
              select idx K q_norm full item = Ok full1
              /\ full1 ≡ₚ scores_of idx q_norm [item] ++ full)
      as (full1 & -> & Hp1).
    { revert H1 HK. unfold select, scores_of. cbn [List.filter List.map].
      destruct item as [doc_id dot]. unfold has_norm. cbn [fst snd].
      destruct (PrimFloat.eqb (dict_get_default doc_id 0%float (doc_norms idx)) 0).
      { intros _ _. by exists full. }
      cbn [negb List.map List.length]. destruct (PrimFloat.eqb _ 0); [done|].
      intros _ HK. rewrite (proj2 (Z.ltb_lt _ _)) by lia.
      eexists. split; [done|]. apply heappush_Permutation. }
    cbn [bind]. destruct (IH _ full1 Hrest) as (full' & Hfull & Hp').
    { rewrite (Permutation_length Hp1), length_app. lia. }
    exists full'. split; [done|]. rewrite Hp', Hp1.
    rewrite <- !app_assoc. apply Permutation_app_swap_app.
Qed.

End Selection.

Section Queries.
Context {libm : Libm} {json : Json} {unicode : TextPreprocessor.Unicode}.

Lemma results_swap (heap : list (float * str)) :
  sorted_by_key_desc snd
    (sorted_by_key_desc snd
       (List.map (fun '(score, doc_id) => (doc_id, score)) heap))
  ≡ₚ List.map swap heap.
Proof.
  rewrite !sorted_by_key_desc_Permutation.
  apply Permutation_refl'. apply List.map_ext. by intros [].
Qed.

Lemma query_tokens_top (idx : index) (tokens : list str) (k K : Z) r full :
  1 <= k ->
  Z.of_nat (List.length (List.filter (has_norm idx) (candidates idx tokens)))
  <= K ->
  query_tokens idx tokens k = Ok r ->
  query_tokens idx tokens K = Ok full ->
  Forall (fun p => is_nan (snd p) = false) (results full) ->
  exists rest,
    results full ≡ₚ results r ++ rest
    /\ forall x y, x ∈ rest -> y ∈ results r ->
                   PrimFloat.leb (snd x) (snd y) = true.
Proof.
  intros Hk HK. unfold query_tokens.
  destruct (score_terms idx _ (count_tokens tokens)) as [s|] eqn:Hs; cbn; [|done].
  destruct (if PrimFloat.ltb 0 (q_sq_sum s) then _ else _) as [q_norm|];
    cbn; [|done].
  destruct (select_all idx k q_norm [] (accum s)) as [heap|] eqn:Hsel;
    cbn; [|done].
  intros [= <-]. cbn [results].
  destruct (select_all_every idx q_norm k K [] heap [] (accum s) Hsel)
    as (hfull & Hfull & Hpf).
  { cbn. unfold scores_of. rewrite length_map.
    rewrite <- (filter_length_Permutation _ _ _ (accum_candidates _ _ _ Hs)) in HK.
    unfold keys in HK.
    assert (Hl : forall l : list (str * float),
              List.length (List.filter (has_norm idx) (List.map fst l))
              = List.length (List.filter (fun item => has_norm idx (fst item)) l)).
    { clear. induction l as [|x l IH]; [done|]. cbn.
      destruct (has_norm idx (fst x)); cbn; by rewrite IH. }
    rewrite <- Hl. lia. }
  rewrite Hfull. cbn. intros [= <-]. cbn [results]. rewrite app_nil_r in Hpf.
  intros Hnan.
  assert (Hgood : Forall has_score (scores_of idx q_norm (accum s))).
  { rewrite <- Hpf. rewrite results_swap in Hnan.
    rewrite Forall_fmap in Hnan. eapply Forall_impl; [exact Hnan|]. done. }
  destruct (select_all_keeps idx q_norm k [] [] heap (accum s) Hk
              (selecting_empty k ltac:(lia)) Hgood Hsel)
    as (rest & Hselg & Hp).
  rewrite !app_nil_r in Hp.
  exists (List.map swap rest). split.
  - rewrite !results_swap, <- List.map_app. apply Permutation_map.
    by rewrite Hpf, Hp.
  - intros x y (x' & -> & Hx)%list_elem_of_fmap Hy. rewrite results_swap in Hy.
    apply list_elem_of_fmap in Hy as (y' & -> & Hy). cbn.
    by apply (sel_rest _ _ _ Hselg).
Qed.

End Queries.

(** X26. [query] keeps the [k] best scores.  Let [full] be what the same
    query returns with a capacity [K] that leaves room for every candidate
    with a stored norm; as long as no score is NaN, the results for
    [k >= 1] are taken from [full], and no pair of [full] that is left out
    scores above a pair that is returned. *)
Theorem query_top_k {libm : Libm} {json : Json}
    {unicode : TextPreprocessor.Unicode} env g (idx : index) qtext (k K : Z)
    tokens g1 r g2 full g3 :
  1 <= k ->
  TextPreprocessor.preprocess env g qtext = (Ok tokens, g1) ->
  Z.of_nat (List.length (List.filter (has_norm idx) (candidates idx tokens)))
  <= K ->
  query env g idx qtext k = (Ok r, g2) ->
  query env g idx qtext K = (Ok full, g3) ->
  Forall (fun p => is_nan (snd p) = false) (results full) ->
  exists rest,
    results full ≡ₚ results r ++ rest
    /\ forall x y, x ∈ rest -> y ∈ results r ->
                   PrimFloat.leb (snd x) (snd y) = true.
Proof.
  unfold query. intros Hk -> HK. destruct tokens as [|t ts].
  - intros [= <- _] [= <- _] _. exists []. split; [done|].
    intros x y Hx. by apply elem_of_nil in Hx.
  - intros [= Hq _] [= Hfull _]. by eapply query_tokens_top.
Qed.

Section OnExamples.
Import Examples.
#[local] Existing Instances Reference.tabulated Reference.python_json
  Reference.without_unidecode.

(** X26 at work: of the three documents ranked for "El perro y el gato",
    a capacity of one keeps document 2, and neither of the other two scores
    above it. *)
Lemma query_top_k_pets :
  List.map fst
    (results
       (result_of
          (quick_query (MergeBlocks.out_index pets_merged) "El perro y el gato" 1)))
  = [lit "2"]
  /\ exists rest,
       results
         (result_of
            (quick_query (MergeBlocks.out_index pets_merged) "El perro y el gato" 10))
       ≡ₚ results
            (result_of
               (quick_query (MergeBlocks.out_index pets_merged) "El perro y el gato" 1))
          ++ rest
       /\ forall x y,
            x ∈ rest ->
            y ∈ results
                  (result_of
                     (quick_query (MergeBlocks.out_index pets_merged)
                        "El perro y el gato" 1)) ->
            PrimFloat.leb (snd x) (snd y) = true.
Proof.
  split; [vm_compute; reflexivity|].
  apply (query_top_k with_nltk TextPreprocessor.initial
           (MergeBlocks.out_index pets_merged) (Some (lit "El perro y el gato"))
           1 10 [lit "perr"; lit "gat"]
           (snd (quick_query (MergeBlocks.out_index pets_merged) "El perro y el gato" 1))
           (result_of
              (quick_query (MergeBlocks.out_index pets_merged) "El perro y el gato" 1))
           (snd (quick_query (MergeBlocks.out_index pets_merged) "El perro y el gato" 1))
           (result_of
              (quick_query (MergeBlocks.out_index pets_merged) "El perro y el gato" 10))
           (snd (quick_query (MergeBlocks.out_index pets_merged) "El perro y el gato" 10))).
  - lia.
  - vm_compute; reflexivity.
  - vm_compute. discriminate.
  - vm_compute; reflexivity.
  - vm_compute; reflexivity.
  - apply (bool_decide_unpack
             (Forall (fun p : str * float => is_nan (snd p) = false)
                (results
                   (result_of
                      (quick_query (MergeBlocks.out_index pets_merged)
                         "El perro y el gato" 10))))).
    vm_compute. exact I.
Defined.

End OnExamples.

End TopFacts.
